(** * bot_backend: duplicate filter, conversation sequencer, background
      executor, config cache and error reporter

    A shallow embedding of [services/message-processor.js],
    [services/config-cache.js] and the webhook route of
    [routes/whatsapp-optimized.js].

    The JavaScript sources are asynchronous: a function runs without
    interruption until it suspends at an [await] on a collaborator
    (database, WhatsApp API, loaders) or on another task's promise.  The
    embedding keeps that structure.  Source functions are written in a small
    monad [async] whose constructors are the primitive things the code does
    (a method call on one of the module-level singletons, a collaborator
    call, starting an async function, awaiting promises, [setTimeout],
    [setImmediate]); an event loop gives them their meaning. *)

From stdpp Require Import gmap strings list pretty.

Set Default Proof Using "Type".
Set Warnings "-register-all".

(* ===================================================================== *)
(** * JavaScript values                                                   *)
(* ===================================================================== *)

Inductive jsval : Type :=
| JUndefined
| JNull
| JBool (b : bool)
| JNum (n : Z)
| JStr (s : string)
| JObj (fields : list (string * jsval))
| JArr (items : list jsval).

(** Outcome of an evaluation that may throw; a thrown value is any [jsval]. *)
Inductive res (A : Type) : Type :=
| Ok (a : A)
| Err (e : jsval).
Arguments Ok {A} a.
Arguments Err {A} e.

(** [if (v)], [!v], [a || b] *)
Definition truthy (v : jsval) : bool :=
  match v with
  | JUndefined | JNull => false
  | JBool b => b
  | JNum n => negb (n =? 0)%Z
  | JStr s => negb (String.eqb s EmptyString)
  | JObj _ | JArr _ => true
  end.

Definition js_or (a b : jsval) : jsval := if truthy a then a else b.

(** [`${v}`] *)
Fixpoint template (v : jsval) : string :=
  match v with
  | JUndefined => "undefined"
  | JNull => "null"
  | JBool true => "true"
  | JBool false => "false"
  | JNum n => pretty n
  | JStr s => s
  | JObj _ => "[object Object]"
  | JArr items =>
      (fix join (l : list jsval) : string :=
         match l with
         | [] => EmptyString
         | x :: l' =>
             let sx := match x with
                       | JUndefined | JNull => EmptyString
                       | _ => template x
                       end in
             match l' with
             | [] => sx
             | _ => sx +:+ "," +:+ join l'
             end
         end) items
  end.

Fixpoint assoc (name : string) (fields : list (string * jsval)) : jsval :=
  match fields with
  | [] => JUndefined
  | (n, v) :: rest => if String.eqb n name then v else assoc name rest
  end.

Definition TypeError (msg : string) : jsval :=
  JObj [("name", JStr "TypeError"); ("message", JStr msg)].

Definition mkError (msg : string) : jsval :=
  JObj [("message", JStr msg); ("stack", JStr ("Error: " +:+ msg))].

(** [v.name]: reading a property of [undefined] or [null] throws. *)
Definition prop (v : jsval) (name : string) : res jsval :=
  match v with
  | JUndefined | JNull =>
      Err (TypeError ("Cannot read properties of " +:+ template v))
  | JObj fields => Ok (assoc name fields)
  | JArr items =>
      if String.eqb name "length" then Ok (JNum (Z.of_nat (length items)))
      else Ok JUndefined
  | JStr s =>
      if String.eqb name "length" then Ok (JNum (Z.of_nat (String.length s)))
      else Ok JUndefined
  | JBool _ | JNum _ => Ok JUndefined
  end.

(* ===================================================================== *)
(** * Module-level state and the database                                 *)
(* ===================================================================== *)

(** The message extracted from a webhook delivery
    ([WhatsAppService.processIncomingMessage]). *)
Record message_data := MessageData {
  messageId : string;
  from : string;
  to : string;
  businessId : jsval;
  messageType : string;
  content : jsval;
  mediaUrl : jsval;
  mediaId : jsval
}.

(** Argument of [DatabaseService.saveMessage], one row of [messages]. *)
Record message_row := MessageRow {
  row_businessId : jsval;
  row_conversationId : jsval;
  row_messageId : string;
  row_fromNumber : string;
  row_toNumber : string;
  row_messageType : string;
  row_content : jsval;
  row_mediaUrl : jsval;
  row_localFilePath : jsval;
  row_isFromUser : bool
}.

(** One row of [processing_errors] (see [ensureErrorTableExists]). *)
Record error_row := ErrorRow {
  error_message : jsval;
  error_stack : jsval;
  retry_count : Z;
  created_at : Z;
  updated_at : Z
}.

Record database := Database {
  messages : list message_row;
  processing_errors : gmap string error_row
}.

(** [stats] of message-processor.js *)
Record processor_stats := ProcessorStats {
  processed : nat;
  duplicates : nat;
  errors : nat
}.

(** [stats] of config-cache.js *)
Record cache_stats := CacheStats {
  hits : nat;
  misses : nat;
  cache_errors : nat
}.

(** An entry of the node-cache store: the value and the instant after which
    it is no longer returned. *)
Record cache_entry := CacheEntry {
  entry_value : jsval;
  entry_expires : Z
}.

Inductive counter := Processed | Duplicates | Errors.
Inductive cache_counter := Hits | Misses | CacheErrors.

(** The primitive synchronous operations of the two modules and of the
    route: method calls on the module-level singletons, the console, the
    clock and the HTTP response. *)
Inductive op : Type :=
| processingMessages_has (messageId : string)
| processingMessages_add (messageId : string)
| processingMessages_delete (messageId : string)
| conversationLocks_has (key : string)
| conversationLocks_get (key : string)
| conversationLocks_set (key : string) (p : nat)
| conversationLocks_delete (key : string)
| stats_incr (c : counter)
| cache_get (key : string)
| cache_set (key : string) (v : jsval)
| cache_del (key : string)
| cache_stats_incr (c : cache_counter)
| console_log (line : string)
| console_error (line : string)
| Date_now
| res_send (status : Z) (body : string)
| WhatsAppService_setBusinessConfig (config : jsval).

Definition ret_type (o : op) : Type :=
  match o with
  | processingMessages_has _ | conversationLocks_has _ => bool
  | conversationLocks_get _ => option nat
  | cache_get _ => jsval
  | Date_now => Z
  | _ => unit
  end.

(** Suspending calls: the collaborators and the SQL statements the sources
    send through [pool.query]. *)
Inductive request : Type :=
| Query_SelectMessage (messageId : string)
| Query_UpsertError (messageId : string) (message stack : jsval)
| DatabaseService_saveMessage (row : message_row)
| DatabaseService_createOrGetConversation (businessId : jsval) (from : string)
| BusinessService_getWhatsAppConfigByPhoneNumber (phoneNumberId : jsval)
| BusinessService_getBusinessById (businessId : jsval)
| BusinessService_getBusinessTone (businessId : jsval)
| WhatsAppService_sendMessage (to : string) (text : jsval)
| WhatsAppService_sendReaction (to messageId emoji : string)
| WhatsAppService_markMessageAsRead (messageId : string)
| Respond_text (md : message_data) (conversation businessId tone : jsval)
| Respond_media (md : message_data) (businessId : jsval).

Record heap := Heap {
  processingMessages : gset string;
  conversationLocks : gmap string nat;
  stats : processor_stats;
  cache : gmap string cache_entry;
  cstats : cache_stats;
  whatsapp_config : jsval
}.

Record world := World {
  w_heap : heap;
  w_db : database;
  w_clock : Z
}.

Definition set_heap (f : heap → heap) (w : world) : world :=
  World (f (w_heap w)) (w_db w) (w_clock w).
Definition set_db (f : database → database) (w : world) : world :=
  World (w_heap w) (f (w_db w)) (w_clock w).
Definition set_clock (t : Z) (w : world) : world :=
  World (w_heap w) (w_db w) t.

Definition upd_processingMessages (f : gset string → gset string) (h : heap) : heap :=
  Heap (f (processingMessages h)) (conversationLocks h) (stats h) (cache h)
       (cstats h) (whatsapp_config h).
Definition upd_conversationLocks (f : gmap string nat → gmap string nat) (h : heap) : heap :=
  Heap (processingMessages h) (f (conversationLocks h)) (stats h) (cache h)
       (cstats h) (whatsapp_config h).
Definition upd_stats (f : processor_stats → processor_stats) (h : heap) : heap :=
  Heap (processingMessages h) (conversationLocks h) (f (stats h)) (cache h)
       (cstats h) (whatsapp_config h).
Definition upd_cache (f : gmap string cache_entry → gmap string cache_entry) (h : heap) : heap :=
  Heap (processingMessages h) (conversationLocks h) (stats h) (f (cache h))
       (cstats h) (whatsapp_config h).
Definition upd_cstats (f : cache_stats → cache_stats) (h : heap) : heap :=
  Heap (processingMessages h) (conversationLocks h) (stats h) (cache h)
       (f (cstats h)) (whatsapp_config h).
Definition upd_whatsapp_config (v : jsval) (h : heap) : heap :=
  Heap (processingMessages h) (conversationLocks h) (stats h) (cache h)
       (cstats h) v.

Definition incr (c : counter) (s : processor_stats) : processor_stats :=
  match c with
  | Processed => ProcessorStats (S (processed s)) (duplicates s) (errors s)
  | Duplicates => ProcessorStats (processed s) (S (duplicates s)) (errors s)
  | Errors => ProcessorStats (processed s) (duplicates s) (S (errors s))
  end.

Definition cincr (c : cache_counter) (s : cache_stats) : cache_stats :=
  match c with
  | Hits => CacheStats (S (hits s)) (misses s) (cache_errors s)
  | Misses => CacheStats (hits s) (S (misses s)) (cache_errors s)
  | CacheErrors => CacheStats (hits s) (misses s) (S (cache_errors s))
  end.

(** Modelled from the spec: the node-cache store behind [cache] (the package
    is not part of the sources).  "No cache entry is returned once
    now > loaded_at + ttl"; entries are "lazily evicted on read".  The store
    is built with [stdTTL: 300] seconds. *)
Definition stdTTL_ms : Z := 300000.

Definition node_cache_get (now : Z) (key : string) (c : gmap string cache_entry)
  : jsval * gmap string cache_entry :=
  match c !! key with
  | Some e =>
      if (entry_expires e <? now)%Z then (JUndefined, delete key c)
      else (entry_value e, c)
  | None => (JUndefined, c)
  end.

Definition node_cache_set (now : Z) (key : string) (v : jsval)
  (c : gmap string cache_entry) : gmap string cache_entry :=
  <[key := CacheEntry v (now + stdTTL_ms)]> c.

(** Meaning of the synchronous operations. *)
Definition op_sem (o : op) (w : world) : ret_type o * world :=
  match o return ret_type o * world with
  | processingMessages_has id =>
      (bool_decide (id ∈ processingMessages (w_heap w)), w)
  | processingMessages_add id =>
      (tt, set_heap (upd_processingMessages (λ s, s ∪ {[id]})) w)
  | processingMessages_delete id =>
      (tt, set_heap (upd_processingMessages (λ s, s ∖ {[id]})) w)
  | conversationLocks_has key =>
      (bool_decide (is_Some (conversationLocks (w_heap w) !! key)), w)
  | conversationLocks_get key =>
      (conversationLocks (w_heap w) !! key, w)
  | conversationLocks_set key p =>
      (tt, set_heap (upd_conversationLocks (insert key p)) w)
  | conversationLocks_delete key =>
      (tt, set_heap (upd_conversationLocks (delete key)) w)
  | stats_incr c => (tt, set_heap (upd_stats (incr c)) w)
  | cache_get key =>
      let '(v, c) := node_cache_get (w_clock w) key (cache (w_heap w)) in
      (v, set_heap (upd_cache (λ _, c)) w)
  | cache_set key v =>
      (tt, set_heap (upd_cache (node_cache_set (w_clock w) key v)) w)
  | cache_del key => (tt, set_heap (upd_cache (delete key)) w)
  | cache_stats_incr c => (tt, set_heap (upd_cstats (cincr c)) w)
  | console_log _ => (tt, w)
  | console_error _ => (tt, w)
  | Date_now => (w_clock w, w)
  | res_send _ _ => (tt, w)
  | WhatsAppService_setBusinessConfig v =>
      (tt, set_heap (upd_whatsapp_config v) w)
  end.

(* ===================================================================== *)
(** * The database                                                        *)
(* ===================================================================== *)

(** How a suspended call ends: the collaborator serves it, or it fails (a
    dropped connection, a timeout, an API error).  For a collaborator that
    is only a name here the served value is the payload; for the SQL
    statements and [saveMessage] the value is computed from the tables. *)
Inductive answer : Type :=
| Served (v : jsval)
| Failed (e : jsval).

Definition INT_MAX : Z := 2147483647.

Definition has_message (id : string) (rows : list message_row) : bool :=
  existsb (λ r, String.eqb (row_messageId r) id) rows.

(** [SELECT id FROM messages WHERE message_id = $1 LIMIT 1] *)
Definition select_message (id : string) (db : database) : jsval :=
  JObj [("rows",
         JArr (if has_message id (messages db)
               then [JObj [("id", JStr id)]] else []))].

(** The characters of a string in UTF-8 are its bytes that are not
    continuation bytes ([10xxxxxx]). *)
Definition is_continuation (c : Ascii.ascii) : bool :=
  match c with
  | Ascii.Ascii _ _ _ _ _ _ b6 b7 => b7 && negb b6
  end.


(** The first [n] characters of a string, and the rest. *)
Fixpoint split_chars (n : nat) (s : string) : string * string :=
  match s with
  | EmptyString => (EmptyString, EmptyString)
  | String c s' =>
      if is_continuation c then
        let '(kept, excess) := split_chars n s' in (String c kept, excess)
      else
        match n with
        | O => (EmptyString, s)
        | S n' => let '(kept, excess) := split_chars n' s' in (String c kept, excess)
        end
  end.

Fixpoint all_spaces (s : string) : bool :=
  match s with
  | EmptyString => true
  | String c s' => Ascii.eqb c (Ascii.ascii_of_nat 32) && all_spaces s'
  end.

(** [message_id VARCHAR(255) UNIQUE NOT NULL] of [ensureErrorTableExists]:
    what the column holds for a value assigned to it.  A value of more than
    255 characters is refused, unless the characters in excess are all
    spaces, which are cut off. *)
Definition stored_message_id (id : string) : option string :=
  let '(kept, excess) := split_chars 255 id in
  if all_spaces excess then Some kept else None.


(** [INSERT INTO processing_errors (message_id, error_message, error_stack,
     created_at) VALUES ($1, $2, $3, NOW())
     ON CONFLICT (message_id) DO UPDATE
     SET error_message = $2, error_stack = $3,
         retry_count = processing_errors.retry_count + 1]
    on the table of [ensureErrorTableExists], with [message_id VARCHAR(255)]
    and [retry_count INTEGER DEFAULT 0]: the statement fails when the id
    does not fit its column, and when the incremented count leaves the
    32-bit range. *)
Definition upsert_error (now : Z) (id : string) (msg stack : jsval)
  (db : database) : res database :=
  match stored_message_id id with
  | None => Err (mkError "value too long for type character varying(255)")
  | Some key =>
      match processing_errors db !! key with
      | None =>
          Ok (Database (messages db)
                (<[key := ErrorRow msg stack 0 now now]> (processing_errors db)))
      | Some r =>
          if (retry_count r + 1 <=? INT_MAX)%Z then
            Ok (Database (messages db)
                  (<[key := ErrorRow msg stack (retry_count r + 1)
                               (created_at r) (updated_at r)]>
                     (processing_errors db)))
          else Err (mkError "integer out of range")
      end
  end.

(** Modelled from the spec: [DatabaseService.saveMessage] (the service is
    not part of the sources).  "persistMessage(envelope) -> rowId — must
    enforce a uniqueness constraint on external_id": a second row with the
    same message id is refused. *)
Definition save_message (row : message_row) (db : database) : option database :=
  if has_message (row_messageId row) (messages db) then None
  else Some (Database (messages db ++ [row]) (processing_errors db)).

Definition serve (r : request) (a : answer) (w : world) : res jsval * world :=
  match a with
  | Failed e => (Err e, w)
  | Served v =>
      match r with
      | Query_SelectMessage id => (Ok (select_message id (w_db w)), w)
      | Query_UpsertError id msg stack =>
          match upsert_error (w_clock w) id msg stack (w_db w) with
          | Ok db => (Ok (JObj [("rowCount", JNum 1)]), set_db (λ _, db) w)
          | Err e => (Err e, w)
          end
      | DatabaseService_saveMessage row =>
          match save_message row (w_db w) with
          | Some db =>
              (Ok (JObj [("message_id", JStr (row_messageId row))]),
               set_db (λ _, db) w)
          | None =>
              (Err (mkError "duplicate key value violates unique constraint"), w)
          end
      | _ => (Ok v, w)
      end
  end.

(* ===================================================================== *)
(** * Asynchronous computations                                           *)
(* ===================================================================== *)

(** The body of an async function that returns an [A].  Promises are
    numbers. *)
Inductive async (A : Type) : Type :=
| Ret (a : A)
| Throw (e : jsval)
| Do (o : op) (k : ret_type o → async A)
| Call (r : request) (k : res jsval → async A)
| Spawn (body : async jsval) (k : nat → async A)
| Await (ps : list nat) (k : res (list jsval) → async A)
| SetTimeout (cb : async jsval) (ms : Z) (k : async A)
| SetImmediate (cb : async jsval) (k : async A).
Arguments Ret {A} a.
Arguments Throw {A} e.
Arguments Do {A} o k.
Arguments Call {A} r k.
Arguments Spawn {A} body k.
Arguments Await {A} ps k.
Arguments SetTimeout {A} cb ms k.
Arguments SetImmediate {A} cb k.

Fixpoint bind {A B : Type} (m : async A) (f : A → async B) : async B :=
  match m with
  | Ret a => f a
  | Throw e => Throw e
  | Do o k => Do o (λ b, bind (k b) f)
  | Call r k => Call r (λ x, bind (k x) f)
  | Spawn body k => Spawn body (λ p, bind (k p) f)
  | Await ps k => Await ps (λ x, bind (k x) f)
  | SetTimeout cb ms k => SetTimeout cb ms (bind k f)
  | SetImmediate cb k => SetImmediate cb (bind k f)
  end.

Declare Scope async_scope.
Delimit Scope async_scope with async.
Bind Scope async_scope with async.
Notation "x ← y ; z" := (bind y (λ x, z))
  (at level 20, y at level 100, z at level 200, only parsing) : async_scope.
Notation "y ;; z" := (bind y (λ _, z))
  (at level 100, z at level 200, only parsing, right associativity) : async_scope.
Open Scope async_scope.

(** [try { m } catch (error) { h error }] *)
Fixpoint try_catch {A : Type} (m : async A) (h : jsval → async A) : async A :=
  match m with
  | Ret a => Ret a
  | Throw e => h e
  | Do o k => Do o (λ b, try_catch (k b) h)
  | Call r k => Call r (λ x, try_catch (k x) h)
  | Spawn body k => Spawn body (λ p, try_catch (k p) h)
  | Await ps k => Await ps (λ x, try_catch (k x) h)
  | SetTimeout cb ms k => SetTimeout cb ms (try_catch k h)
  | SetImmediate cb k => SetImmediate cb (try_catch k h)
  end.

(** [try { m } finally { fin }]: [fin] runs on every exit; the outcome is
    that of [m] unless [fin] throws. *)
Fixpoint try_finally {A : Type} (m : async A) (fin : async unit) : async A :=
  match m with
  | Ret a => bind fin (λ _, Ret a)
  | Throw e => bind fin (λ _, Throw e)
  | Do o k => Do o (λ b, try_finally (k b) fin)
  | Call r k => Call r (λ x, try_finally (k x) fin)
  | Spawn body k => Spawn body (λ p, try_finally (k p) fin)
  | Await ps k => Await ps (λ x, try_finally (k x) fin)
  | SetTimeout cb ms k => SetTimeout cb ms (try_finally k fin)
  | SetImmediate cb k => SetImmediate cb (try_finally k fin)
  end.

Definition do (o : op) : async (ret_type o) := Do o Ret.
Definition throw {A : Type} (e : jsval) : async A := Throw e.
Definition of_res {A : Type} (r : res A) : async A :=
  match r with
  | Ok a => Ret a
  | Err e => Throw e
  end.
(** [await collaborator(...)] *)
Definition call (r : request) : async jsval := Call r of_res.
(** [f(...)] for an async function [f], without [await]: its body starts
    running at once and the caller gets the promise. *)
Definition start (body : async jsval) : async nat := Spawn body Ret.
(** [await p] *)
Definition await (p : nat) : async jsval :=
  Await [p] (λ r, match r with
                  | Ok vs => Ret (hd JUndefined vs)
                  | Err e => Throw e
                  end).
(** [await Promise.all([p1, ..., pn])] *)
Definition await_all (ps : list nat) : async (list jsval) := Await ps of_res.
Definition setTimeout (cb : async jsval) (ms : Z) : async unit :=
  SetTimeout cb ms (Ret tt).
Definition setImmediate (cb : async jsval) : async unit :=
  SetImmediate cb (Ret tt).

(* ===================================================================== *)
(** * The event loop                                                      *)
(* ===================================================================== *)

(** What a task does, step by step: an operation with its result, a
    collaborator call with its outcome, the start of another task, an
    [await] with what it received, a scheduled callback, and its own
    beginning and end. *)
Inductive act : Type :=
| ABegin (m : async jsval)
| ADo (o : op) (b : ret_type o)
| ACall (r : request) (x : res jsval)
| ASpawn (p : nat) (body : async jsval)
| AAwait (ps : list nat) (x : res (list jsval))
| ATimeout (cb : async jsval) (ms : Z)
| AImmediate (cb : async jsval)
| AEnd (r : res jsval).

(** A task suspended at [await] on promises, and one suspended on a
    collaborator.  [*_self] is the promise the task settles when it ends. *)
Record waiter := Waiter {
  wt_on : list nat;
  wt_k : res (list jsval) → async jsval;
  wt_self : nat
}.

Record pending := Pending {
  pc_id : nat;
  pc_req : request;
  pc_k : res jsval → async jsval;
  pc_self : nat
}.

Record loop := Loop {
  world_of : world;
  fresh : nat;
  settled : gmap nat (res jsval);
  waiting : list waiter;
  calls : list pending;
  micro : list (nat * async jsval);
  immediates : list (async jsval);
  timers : list (Z * async jsval);
  trace : list (nat * act)
}.

Definition set_world (w : world) (st : loop) : loop :=
  Loop w (fresh st) (settled st) (waiting st) (calls st)
       (micro st) (immediates st) (timers st) (trace st).
Definition set_fresh (n : nat) (st : loop) : loop :=
  Loop (world_of st) n (settled st) (waiting st) (calls st)
       (micro st) (immediates st) (timers st) (trace st).
Definition set_settled (m : gmap nat (res jsval)) (st : loop) : loop :=
  Loop (world_of st) (fresh st) m (waiting st) (calls st)
       (micro st) (immediates st) (timers st) (trace st).
Definition set_waiting (l : list waiter) (st : loop) : loop :=
  Loop (world_of st) (fresh st) (settled st) l (calls st)
       (micro st) (immediates st) (timers st) (trace st).
Definition set_calls (l : list pending) (st : loop) : loop :=
  Loop (world_of st) (fresh st) (settled st) (waiting st) l
       (micro st) (immediates st) (timers st) (trace st).
Definition set_micro (l : list (nat * async jsval)) (st : loop) : loop :=
  Loop (world_of st) (fresh st) (settled st) (waiting st) (calls st)
       l (immediates st) (timers st) (trace st).
Definition set_immediates (l : list (async jsval)) (st : loop) : loop :=
  Loop (world_of st) (fresh st) (settled st) (waiting st) (calls st)
       (micro st) l (timers st) (trace st).
Definition set_timers (l : list (Z * async jsval)) (st : loop) : loop :=
  Loop (world_of st) (fresh st) (settled st) (waiting st) (calls st)
       (micro st) (immediates st) l (trace st).
Definition log (self : nat) (a : act) (st : loop) : loop :=
  Loop (world_of st) (fresh st) (settled st) (waiting st) (calls st)
       (micro st) (immediates st) (timers st) (trace st ++ [(self, a)]).

(** [Promise.all]: rejected as soon as one input is rejected, fulfilled
    once all are. *)
Fixpoint first_rejected (s : gmap nat (res jsval)) (ps : list nat) : option jsval :=
  match ps with
  | [] => None
  | p :: ps' =>
      match s !! p with
      | Some (Err e) => Some e
      | _ => first_rejected s ps'
      end
  end.

Fixpoint all_fulfilled (s : gmap nat (res jsval)) (ps : list nat) : option (list jsval) :=
  match ps with
  | [] => Some []
  | p :: ps' =>
      match s !! p with
      | Some (Ok v) =>
          match all_fulfilled s ps' with
          | Some vs => Some (v :: vs)
          | None => None
          end
      | _ => None
      end
  end.

Definition gather (s : gmap nat (res jsval)) (ps : list nat) : option (res (list jsval)) :=
  match first_rejected s ps with
  | Some e => Some (Err e)
  | None =>
      match all_fulfilled s ps with
      | Some vs => Some (Ok vs)
      | None => None
      end
  end.

(** The waiters a settlement releases, in the order in which they started
    waiting, and the ones that keep waiting. *)
Fixpoint release (s : gmap nat (res jsval)) (ws : list waiter)
  : list (waiter * res (list jsval)) * list waiter :=
  match ws with
  | [] => ([], [])
  | w :: ws' =>
      let rs := release s ws' in
      match gather s (wt_on w) with
      | Some r => ((w, r) :: rs.1, rs.2)
      | None => (rs.1, w :: rs.2)
      end
  end.

(** A released waiter becomes a microtask. *)
Definition resume (wr : waiter * res (list jsval)) (st : loop) : loop :=
  log (wt_self wr.1) (AAwait (wt_on wr.1) wr.2)
    (set_micro (micro st ++ [(wt_self wr.1, wt_k wr.1 wr.2)]) st).

Definition settle (self : nat) (r : res jsval) (st : loop) : loop :=
  let s := <[self := r]> (settled st) in
  let rs := release s (waiting st) in
  foldl (λ st wr, resume wr st)
    (set_waiting rs.2 (set_settled s (log self (AEnd r) st))) rs.1.

(** Run a task until it ends or suspends. *)
Fixpoint run_thread (self : nat) (m : async jsval) (st : loop) {struct m} : loop :=
  match m with
  | Ret v => settle self (Ok v) st
  | Throw e => settle self (Err e) st
  | Do o k =>
      let bw := op_sem o (world_of st) in
      run_thread self (k bw.1) (log self (ADo o bw.1) (set_world bw.2 st))
  | Call r k =>
      set_fresh (S (fresh st))
        (set_calls (calls st ++ [Pending (fresh st) r k self]) st)
  | Spawn body k =>
      let p := fresh st in
      run_thread self (k p)
        (run_thread p body
           (log self (ASpawn p body) (log p (ABegin body) (set_fresh (S p) st))))
  | Await ps k =>
      match gather (settled st) ps with
      | Some r => resume (Waiter ps k self, r) st
      | None => set_waiting (waiting st ++ [Waiter ps k self]) st
      end
  | SetTimeout cb ms k =>
      run_thread self k
        (log self (ATimeout cb ms)
           (set_timers (timers st ++ [((w_clock (world_of st) + ms)%Z, cb)]) st))
  | SetImmediate cb k =>
      run_thread self k
        (log self (AImmediate cb) (set_immediates (immediates st ++ [cb]) st))
  end.

(** Start a new task for a callback or a request handler. *)
Definition run_new (m : async jsval) (st : loop) : loop :=
  run_thread (fresh st) m (log (fresh st) (ABegin m) (set_fresh (S (fresh st)) st)).

Fixpoint take_call (cid : nat) (l : list pending) : option (pending * list pending) :=
  match l with
  | [] => None
  | c :: l' =>
      if Nat.eqb (pc_id c) cid then Some (c, l')
      else match take_call cid l' with
           | Some (x, rest) => Some (x, c :: rest)
           | None => None
           end
  end.

(** The timer to run next: the earliest due time, the oldest among equals. *)
Fixpoint next_timer (l : list (Z * async jsval))
  : option ((Z * async jsval) * list (Z * async jsval)) :=
  match l with
  | [] => None
  | t :: l' =>
      match next_timer l' with
      | Some (u, rest) =>
          if (t.1 <=? u.1)%Z then Some (t, l') else Some (u, t :: rest)
      | None => Some (t, [])
      end
  end.

(** What can happen next.  [Request m] is an HTTP request whose handler is
    [m]; [Reply] is a collaborator completing a call; [Immediate] and
    [Timer] run a due callback; [Elapse] lets time pass, never beyond a
    pending timer; [Tick] runs the next microtask.  Microtasks run before
    anything else. *)
Inductive event : Type :=
| Request (m : async jsval)
| Reply (cid : nat) (a : answer)
| Immediate
| Timer
| Elapse (dt : Z)
| Tick.

Definition step (ev : event) (st : loop) : option loop :=
  match ev, micro st with
  | Tick, (self, m) :: rest => Some (run_thread self m (set_micro rest st))
  | Tick, [] => None
  | _, _ :: _ => None
  | Request m, [] => Some (run_new m st)
  | Reply cid a, [] =>
      match take_call cid (calls st) with
      | Some (c, rest) =>
          let rw := serve (pc_req c) a (world_of st) in
          Some (run_thread (pc_self c) (pc_k c rw.1)
                  (log (pc_self c) (ACall (pc_req c) rw.1)
                     (set_world rw.2 (set_calls rest st))))
      | None => None
      end
  | Immediate, [] =>
      match immediates st with
      | cb :: rest => Some (run_new cb (set_immediates rest st))
      | [] => None
      end
  | Timer, [] =>
      match next_timer (timers st) with
      | Some ((due, cb), rest) =>
          if (due <=? w_clock (world_of st))%Z
          then Some (run_new cb (set_timers rest st))
          else None
      | None => None
      end
  | Elapse dt, [] =>
      if (0 <=? dt)%Z &&
         forallb (λ t, (w_clock (world_of st) + dt <=? t.1)%Z) (timers st)
      then Some (set_world (set_clock (w_clock (world_of st) + dt)%Z (world_of st)) st)
      else None
  end.

Fixpoint exec (evs : list event) (st : loop) : option loop :=
  match evs with
  | [] => Some st
  | ev :: evs' =>
      match step ev st with
      | Some st' => exec evs' st'
      | None => None
      end
  end.

Definition empty_heap : heap :=
  Heap ∅ ∅ (ProcessorStats 0 0 0) ∅ (CacheStats 0 0 0) JUndefined.
Definition empty_world : world :=
  World empty_heap (Database [] ∅) 0.
Definition boot : loop := Loop empty_world 0 ∅ [] [] [] [] [] [].

Definition is_step (a : act) : bool :=
  match a with
  | ABegin _ | AEnd _ => false
  | _ => true
  end.

(** The steps of one task in a trace, in order: what it did between its
    beginning and its end. *)
Definition steps (self : nat) (tr : list (nat * act)) : list act :=
  omap (λ x, if Nat.eqb x.1 self && is_step x.2 then Some x.2 else None) tr.

(** The state a run ends in. *)
Definition after (evs : list event) : loop := default boot (exec evs boot).

Definition ran (evs : list event) : bool :=
  match exec evs boot with
  | Some _ => true
  | None => false
  end.

(* ===================================================================== *)
(** * One call in isolation                                               *)
(* ===================================================================== *)

(** The collaborators' answers are taken from a script, each with the time
    that passes before it arrives.  For bodies that start no other task. *)
Fixpoint run_seq {A : Type} (m : async A) (script : list (Z * answer)) (w : world)
  : option (res A * world * list (Z * answer) * list act) :=
  match m with
  | Ret a => Some (Ok a, w, script, [])
  | Throw e => Some (Err e, w, script, [])
  | Do o k =>
      let bw := op_sem o w in
      match run_seq (k bw.1) script bw.2 with
      | Some (r, w', s', tr) => Some (r, w', s', ADo o bw.1 :: tr)
      | None => None
      end
  | Call r k =>
      match script with
      | (dt, a) :: script' =>
          let rw := serve r a (set_clock (w_clock w + dt)%Z w) in
          match run_seq (k rw.1) script' rw.2 with
          | Some (r', w', s', tr) => Some (r', w', s', ACall r rw.1 :: tr)
          | None => None
          end
      | [] => None
      end
  | _ => None
  end.

(* ===================================================================== *)
(** * services/config-cache.js                                            *)
(* ===================================================================== *)

Definition is_undefined (v : jsval) : bool :=
  match v with
  | JUndefined => true
  | _ => false
  end.

(** [if (c) body] *)
Definition when (c : bool) (body : async unit) : async unit :=
  if c then body else Ret tt.

Module ConfigCache.

Definition getCachedWhatsAppConfig (phoneNumberId : jsval)
  (fetchFunction : jsval → async jsval) : async jsval :=
  let cacheKey := "whatsapp_config:" +:+ template phoneNumberId in
  try_catch
    (cached ← do (cache_get cacheKey);
     if negb (is_undefined cached) then
       do (cache_stats_incr Hits);;
       Ret cached
     else
       do (cache_stats_incr Misses);;
       config ← fetchFunction phoneNumberId;
       when (truthy config) (do (cache_set cacheKey config));;
       Ret config)
    (λ error,
       do (cache_stats_incr CacheErrors);;
       do (console_error "Cache error for WhatsApp config:");;
       fetchFunction phoneNumberId).

Definition getCachedBusiness (businessId : jsval)
  (fetchFunction : jsval → async jsval) : async jsval :=
  let cacheKey := "business:" +:+ template businessId in
  try_catch
    (cached ← do (cache_get cacheKey);
     if negb (is_undefined cached) then
       do (cache_stats_incr Hits);;
       Ret cached
     else
       do (cache_stats_incr Misses);;
       business ← fetchFunction businessId;
       when (truthy business) (do (cache_set cacheKey business));;
       Ret business)
    (λ error,
       do (cache_stats_incr CacheErrors);;
       do (console_error "Cache error for business:");;
       fetchFunction businessId).

Definition getCachedBusinessTone (businessId : jsval)
  (fetchFunction : jsval → async jsval) : async jsval :=
  let cacheKey := "business_tone:" +:+ template businessId in
  try_catch
    (cached ← do (cache_get cacheKey);
     if negb (is_undefined cached) then
       do (cache_stats_incr Hits);;
       Ret cached
     else
       do (cache_stats_incr Misses);;
       tone ← fetchFunction businessId;
       when (truthy tone) (do (cache_set cacheKey tone));;
       Ret tone)
    (λ error,
       do (cache_stats_incr CacheErrors);;
       do (console_error "Cache error for business tone:");;
       fetchFunction businessId).

Definition invalidateBusinessCache (businessId : jsval) : async unit :=
  do (cache_del ("business:" +:+ template businessId));;
  do (cache_del ("business_tone:" +:+ template businessId));;
  do (console_log ("Cache invalidated for business " +:+ template businessId)).

Definition invalidateWhatsAppConfig (phoneNumberId : jsval) : async unit :=
  do (cache_del ("whatsapp_config:" +:+ template phoneNumberId));;
  do (console_log ("Cache invalidated for WhatsApp config " +:+ template phoneNumberId)).

End ConfigCache.

(* ===================================================================== *)
(** * services/message-processor.js                                       *)
(* ===================================================================== *)

(** [v > 0] for the length of a result set *)
Definition gt_zero (v : jsval) : bool :=
  match v with
  | JNum n => (0 <? n)%Z
  | _ => false
  end.

(** [await v] where [v] may be [undefined] rather than a promise *)
Definition await_value (v : option nat) : async jsval :=
  match v with
  | Some p => await p
  | None => Await [] (λ _, Ret JUndefined)
  end.

Module MessageProcessor.

Definition isMessageProcessed (messageId : string) : async bool :=
  has ← do (processingMessages_has messageId);
  if has then
    do (stats_incr Duplicates);;
    do (console_log ("Message " +:+ messageId +:+ " is currently being processed - skipping"));;
    Ret true
  else
    try_catch
      (result ← call (Query_SelectMessage messageId);
       rows ← of_res (prop result "rows");
       len ← of_res (prop rows "length");
       if gt_zero len then
         do (stats_incr Duplicates);;
         do (console_log ("Message " +:+ messageId +:+ " already in database - skipping"));;
         Ret true
       else
         Ret false)
      (λ error,
         do (console_error "Error checking message duplicate:");;
         Ret false).

Definition markAsProcessing (messageId : string) : async unit :=
  do (processingMessages_add messageId);;
  setTimeout (do (processingMessages_delete messageId);; Ret JUndefined) 120000.

Definition markAsCompleted (messageId : string) : async unit :=
  do (processingMessages_delete messageId).

Definition processWithLock (conversationKey : string)
  (processingFunction : async jsval) : async jsval :=
  has ← do (conversationLocks_has conversationKey);
  when has
    (do (console_log ("Waiting for previous message in conversation " +:+ conversationKey));;
     try_catch
       (previous ← do (conversationLocks_get conversationKey);
        await_value previous;;
        Ret tt)
       (λ error, do (console_log "Previous message failed, continuing...")));;
  currentProcessing ← start processingFunction;
  do (conversationLocks_set conversationKey currentProcessing);;
  try_finally
    (try_catch
       (result ← await currentProcessing;
        do (stats_incr Processed);;
        Ret result)
       (λ error,
          do (stats_incr Errors);;
          throw error))
    (do (conversationLocks_delete conversationKey)).

Definition logProcessingError (messageId : string) (error : jsval) : async unit :=
  try_catch
    (message ← of_res (prop error "message");
     stack ← of_res (prop error "stack");
     call (Query_UpsertError messageId
             (js_or message (JStr "Unknown error"))
             (js_or stack (JStr EmptyString)));;
     Ret tt)
    (λ logError, do (console_error "Failed to log error to database:")).

Definition apology : string :=
  "I apologize, but I encountered an issue processing your message. " +:+
  "Our team has been notified and will look into this. " +:+
  "Please try again in a moment, or contact support if the issue persists.".

Definition sendErrorNotification (messageData : message_data) : async unit :=
  try_catch
    (call (WhatsAppService_sendMessage (from messageData) (JStr apology));;
     Ret tt)
    (λ sendError, do (console_error "Failed to send error notification to user:")).

Definition conversationKey_of (messageData : message_data) : string :=
  template (js_or (businessId messageData) (JStr "unknown")) +:+ ":" +:+ from messageData.

(** The callback [processInBackground] hands to [setImmediate]. *)
Definition background (messageData : message_data)
  (processingFunction : message_data → async jsval) : async jsval :=
  let conversationKey := conversationKey_of messageData in
  try_finally
    (try_catch
       (do (console_log ("[" +:+ messageId messageData +:+ "] Starting background processing"));;
        processWithLock conversationKey (processingFunction messageData);;
        do (console_log ("[" +:+ messageId messageData +:+ "] Processing completed successfully"));;
        Ret JUndefined)
       (λ error,
          do (console_error ("[" +:+ messageId messageData +:+ "] Processing failed:"));;
          try_catch
            (logProcessingError (messageId messageData) error)
            (λ logError, do (console_error "Failed to log error:"));;
          try_catch
            (sendErrorNotification messageData)
            (λ notifyError, do (console_error "Failed to send error notification:"));;
          Ret JUndefined))
    (markAsCompleted (messageId messageData)).

Definition processInBackground (messageData : message_data)
  (processingFunction : message_data → async jsval) : async unit :=
  setImmediate (background messageData processingFunction).

End MessageProcessor.

(* ===================================================================== *)
(** * routes/whatsapp-optimized.js                                        *)
(* ===================================================================== *)

Module Route.

(** [BusinessService.<loader>.bind(BusinessService)] *)
Definition getWhatsAppConfigByPhoneNumber (id : jsval) : async jsval :=
  call (BusinessService_getWhatsAppConfigByPhoneNumber id).
Definition getBusinessById (id : jsval) : async jsval :=
  call (BusinessService_getBusinessById id).
Definition getBusinessTone (id : jsval) : async jsval :=
  call (BusinessService_getBusinessTone id).

Definition is_inactive (status : jsval) : bool :=
  match status with
  | JStr s => String.eqb s "inactive"
  | _ => false
  end.

Definition is_media (messageType : string) : bool :=
  String.eqb messageType "image" || String.eqb messageType "audio".

(** [processTextMessage] and [processMediaMessage] are chains of
    collaborator calls (intent detection, calendar, Odoo, FAQ search,
    OpenAI, media download) that never touch the module-level state; each
    is one suspension here, ending in the reply or in a thrown error. *)
Definition processTextMessage (messageData : message_data)
  (conversation businessId businessTone : jsval) : async jsval :=
  call (Respond_text messageData conversation businessId businessTone).

Definition processMediaMessage (messageData : message_data)
  (businessId : jsval) : async jsval :=
  call (Respond_media messageData businessId).

Definition processMessageFull (messageData : message_data) : async jsval :=
  startTime ← do Date_now;
  try_catch
    (do (console_log "Fetching business configuration...");;
     p1 ← start (ConfigCache.getCachedWhatsAppConfig (JStr (to messageData))
                   getWhatsAppConfigByPhoneNumber);
     p2 ← start (Ret JNull);
     first ← await_all [p1; p2];
     let whatsappConfig := nth 0 first JUndefined in
     let business := nth 1 first JUndefined in
     if negb (truthy whatsappConfig) then
       do (console_error ("No WhatsApp configuration found for phone number: "
                          +:+ to messageData));;
       Ret JUndefined
     else
       businessId ← of_res (prop whatsappConfig "business_id");
       do (console_log ("Processing message for business ID: " +:+ template businessId));;
       p3 ← (if truthy business then start (Ret business)
             else start (ConfigCache.getCachedBusiness businessId getBusinessById));
       p4 ← start (ConfigCache.getCachedBusinessTone businessId getBusinessTone);
       second ← await_all [p3; p4];
       let businessData := nth 0 second JUndefined in
       let businessTone := nth 1 second JUndefined in
       if negb (truthy businessData) then
         do (console_error ("Business not found for ID: " +:+ template businessId));;
         Ret JUndefined
       else
         status ← of_res (prop businessData "status");
         if is_inactive status then
           name ← of_res (prop businessData "name");
           do (console_log ("Business " +:+ template businessId +:+ " ("
                            +:+ template name +:+ ") is inactive. Skipping."));;
           Ret JUndefined
         else
           do (WhatsAppService_setBusinessConfig whatsappConfig);;
           r1 ← start (call (WhatsAppService_markMessageAsRead (messageId messageData)));
           r2 ← start (call (WhatsAppService_sendReaction (from messageData)
                               (messageId messageData) "⏳"));
           start (try_catch
                    (await_all [r1; r2];; Ret JUndefined)
                    (λ err,
                       do (console_log "Typing indicator failed (non-critical):");;
                       Ret JUndefined));;
           pc ← start (call (DatabaseService_createOrGetConversation businessId
                               (from messageData)));
           third ← await_all [pc];
           let conversation := nth 0 third JUndefined in
           conversationId ← of_res (prop conversation "id");
           savedMessage ← call (DatabaseService_saveMessage
                                  (MessageRow businessId conversationId
                                     (messageId messageData)
                                     (from messageData) (to messageData)
                                     (messageType messageData)
                                     (content messageData)
                                     (mediaUrl messageData) JNull true));
           aiResponse ←
             (if is_media (messageType messageData) then
                mediaResult ← processMediaMessage messageData businessId;
                localFilePath ← of_res (prop mediaResult "localFilePath");
                of_res (prop mediaResult "aiResponse")
              else
                processTextMessage messageData conversation businessId businessTone);
           conversationId' ← of_res (prop conversation "id");
           now ← do Date_now;
           call (DatabaseService_saveMessage
                   (MessageRow businessId conversationId'
                      ("ai_" +:+ messageId messageData +:+ "_" +:+ pretty now)
                      (to messageData) (from messageData)
                      "text" aiResponse JNull JNull false));;
           call (WhatsAppService_sendReaction (from messageData)
                   (messageId messageData) EmptyString);;
           call (WhatsAppService_sendMessage (from messageData) aiResponse);;
           finish ← do Date_now;
           do (console_log ("Message " +:+ messageId messageData +:+ " processed in "
                            +:+ pretty (finish - startTime)%Z +:+ "ms"));;
           Ret JUndefined)
    (λ error,
       do (console_error "Error in processMessageFull:");;
       throw error).

(** [router.post("/webhook", ...)].  Its input is what
    [WhatsAppService.processIncomingMessage(req.body)] returned: the
    message, or nothing when the delivery carries none. *)
Definition webhook_post (parsed : option message_data) : async jsval :=
  startTime ← do Date_now;
  try_catch
    (do (console_log "=== WEBHOOK RECEIVED ===");;
     match parsed with
     | None =>
         do (console_log "No message data to process");;
         do (res_send 200 "OK");;
         Ret JUndefined
     | Some messageData =>
         isProcessed ← MessageProcessor.isMessageProcessed (messageId messageData);
         if (isProcessed : bool) then
           do (console_log ("Duplicate message " +:+ messageId messageData +:+ " - skipping"));;
           do (res_send 200 "OK");;
           Ret JUndefined
         else
           MessageProcessor.markAsProcessing (messageId messageData);;
           do (console_log ("Message " +:+ messageId messageData +:+ " accepted for processing"));;
           now ← do Date_now;
           do (console_log ("Webhook response time: " +:+ pretty (now - startTime)%Z +:+ "ms"));;
           do (res_send 200 "OK");;
           MessageProcessor.processInBackground messageData processMessageFull;;
           Ret JUndefined
     end)
    (λ error,
       do (console_error "Webhook error:");;
       do (res_send 200 "OK");;
       Ret JUndefined).

End Route.

(* ===================================================================== *)
(** * Vocabulary of the statements                                        *)
(* ===================================================================== *)

(** A collaborator that is only a name here: its answer is the payload. *)
Definition is_external (r : request) : bool :=
  match r with
  | Query_SelectMessage _ | Query_UpsertError _ _ _
  | DatabaseService_saveMessage _ => false
  | _ => true
  end.

Definition outcome (a : answer) : res jsval :=
  match a with
  | Served v => Ok v
  | Failed e => Err e
  end.

(** The three cache getters with their key prefixes. *)
Definition getters : list (string * (jsval → (jsval → async jsval) → async jsval)) :=
  [ ("whatsapp_config:", ConfigCache.getCachedWhatsAppConfig);
    ("business:", ConfigCache.getCachedBusiness);
    ("business_tone:", ConfigCache.getCachedBusinessTone) ].

(** The store holds an unexpired entry for [key]. *)
Definition live (key : string) (w : world) : bool :=
  match cache (w_heap w) !! key with
  | Some e => negb (entry_expires e <? w_clock w)%Z
  | None => false
  end.

(** The collaborator calls of a run, with their outcomes. *)
Definition calls_in (tr : list act) : list (request * res jsval) :=
  omap (λ a, match a with
             | ACall r x => Some (r, x)
             | _ => None
             end) tr.

Definition later (dt : Z) (w : world) : world := set_clock (w_clock w + dt)%Z w.



(** [error.message] can be read: the thrown value is not [undefined] or
    [null]. *)
Definition readable (error : jsval) : bool :=
  match error with
  | JUndefined | JNull => false
  | _ => true
  end.

Definition is_served (a : answer) : bool :=
  match a with
  | Served _ => true
  | Failed _ => false
  end.

(* ===================================================================== *)
(** * Observations on a run                                               *)
(* ===================================================================== *)

Definition ticks (n : nat) : list event := replicate n Tick.

(** The message ids of the rows of [messages], oldest first. *)
Definition stored (st : loop) : list string :=
  map row_messageId (messages (w_db (world_of st))).

Definition lock_of (key : string) (st : loop) : option nat :=
  conversationLocks (w_heap (world_of st)) !! key.

Definition marked (id : string) (st : loop) : bool :=
  bool_decide (id ∈ processingMessages (w_heap (world_of st))).

(** Task [p] has begun and has not settled. *)
Definition in_flight (p : nat) (st : loop) : bool :=
  existsb (λ x, Nat.eqb x.1 p) (trace st) &&
  bool_decide (settled st !! p = None).

Definition is_pipeline_start (a : act) : bool :=
  match a with
  | ADo (console_log line) _ => String.eqb line "Fetching business configuration..."
  | _ => false
  end.

(** How many times [processMessageFull] was entered. *)
Definition pipeline_runs (st : loop) : nat :=
  length (filter (λ x, is_pipeline_start x.2 = true) (trace st)).

Definition retries (id : string) (st : loop) : option Z :=
  retry_count <$> processing_errors (w_db (world_of st)) !! id.

(** The texts sent to the user. *)
Definition sent (st : loop) : list jsval :=
  omap (λ x, match x.2 with
             | ACall (WhatsAppService_sendMessage _ text) (Ok _) => Some text
             | _ => None
             end) (trace st).

(* ===================================================================== *)
(** * Scenarios                                                           *)
(* ===================================================================== *)

Definition msg (id : string) : message_data :=
  MessageData id "+100" "769784609553122" JUndefined "text" (JStr "hi") JNull JNull.

Definition post (id : string) : event :=
  Request (Route.webhook_post (Some (msg id))).

Definition config_row : jsval := JObj [("business_id", JNum 7)].
Definition business_row : jsval :=
  JObj [("status", JStr "active"); ("name", JStr "Shop")].
Definition tone_row : jsval := JObj [("tone", JStr "friendly")].
Definition conversation_row : jsval := JObj [("id", JNum 1)].
Definition ok : answer := Served JNull.

(** One user sends A, then B and C while A is still being answered.
    Call 1, 8 and 11 are the duplicate checks; every delivery is accepted
    and its background callback runs. *)
Definition three_arrive : list event :=
  [ post "A"; Reply 1 ok; Immediate;
    post "B"; Reply 8 ok; Immediate;
    post "C"; Reply 11 ok; Immediate ].

(** A's pipeline runs to its end (configuration, business and tone,
    conversation, incoming row, reply text, reply row, reaction, message).
    The seven microtasks after the last reply resume A's
    [processWithLock], then B's, then C's. *)
Definition a_completes : list event :=
  [ Reply 5 (Served config_row); Tick;
    Reply 14 (Served business_row); Reply 16 (Served tone_row); Tick;
    Reply 23 (Served conversation_row); Tick;
    Reply 24 ok; Reply 25 (Served (JStr "hello")); Reply 26 ok;
    Reply 27 ok; Reply 28 ok ] ++ ticks 7.

(** B and C each get their conversation and store their incoming row; then
    B gets its reply text and stores its reply row. *)
Definition b_and_c_interleave : list event :=
  [ Reply 45 (Served conversation_row); Tick;
    Reply 52 (Served conversation_row); Tick;
    Reply 53 ok; Reply 54 ok;
    Reply 55 (Served (JStr "hello")); Reply 57 ok; Reply 58 ok ].

(** B's last collaborator call returns: B's pipeline settles. *)
Definition b_completes : list event := [ Reply 59 ok; Tick ].

(** A fourth message of the same user. *)
Definition d_arrives : list event := [ post "D"; Reply 61 ok; Immediate ] ++ ticks 2.

(** The same delivery twice: the second arrives while the first is waiting
    for the database in [isMessageProcessed]. *)
Definition twice_arrive : list event :=
  [ post "m1"; post "m1"; Reply 1 ok; Reply 3 ok; Immediate; Immediate ].

Definition first_run : list event :=
  [ Reply 7 (Served config_row); Tick;
    Reply 11 (Served business_row); Reply 13 (Served tone_row); Tick;
    Reply 20 (Served conversation_row); Tick;
    Reply 21 ok; Reply 22 (Served (JStr "hello")); Reply 23 ok;
    Reply 24 ok; Reply 25 ok ] ++ ticks 4.

Definition second_run : list event :=
  [ Reply 37 (Served conversation_row); Tick; Reply 38 ok; Tick;
    Reply 39 ok; Reply 40 ok ].

(** A delivery for a number without configuration: the loader (call 5)
    finds nothing, and the pipeline (task 3) and the background callback
    (task 2) run to their ends. *)
Definition unconfigured : list event :=
  [ post "m1"; Reply 1 ok; Immediate; Reply 5 (Served JNull); Tick; Tick ].

(** The same id is delivered again 119 seconds later and accepted again. *)
Definition dropped_then_redelivered : list event :=
  unconfigured ++ [ Elapse 119000; post "m1"; Reply 8 ok; Immediate ].

Definition stale_timer_fires : list event := [ Elapse 1000; Timer ].

(** A failure of the database connection. *)
Definition down : jsval := mkError "connection terminated".


(** Three calls of a getter, one after the other, for a number that has no
    configuration. *)
Definition three_lookups : async (list jsval) :=
  a ← ConfigCache.getCachedWhatsAppConfig (JStr "000") Route.getWhatsAppConfigByPhoneNumber;
  b ← ConfigCache.getCachedWhatsAppConfig (JStr "000") Route.getWhatsAppConfigByPhoneNumber;
  c ← ConfigCache.getCachedWhatsAppConfig (JStr "000") Route.getWhatsAppConfigByPhoneNumber;
  Ret [a; b; c].

(** Which task stored which row. *)
Definition savers (st : loop) : list (nat * string) :=
  omap (λ x, match x.2 with
             | ACall (DatabaseService_saveMessage row) (Ok _) =>
                 Some (x.1, row_messageId row)
             | _ => None
             end) (trace st).

Definition due_times (st : loop) : list Z := map fst (timers st).

Definition mp_stats (st : loop) : processor_stats := stats (w_heap (world_of st)).

(** The callback [markAsProcessing] gives to [setTimeout]. *)
Definition expire (messageId : string) : async jsval :=
  do (processingMessages_delete messageId);; Ret JUndefined.

(* ===================================================================== *)
(** * Every path of one task                                              *)
(* ===================================================================== *)

(** [all_paths m Q]: [Q] holds of the steps and of the outcome of every
    complete run of the task [m], whatever its operations return, whatever
    its collaborators answer and whatever its awaits receive.  The steps of
    the tasks it starts are not its own. *)
Fixpoint all_paths {A : Type} (m : async A) (Q : list act → res A → Prop) : Prop :=
  match m with
  | Ret a => Q [] (Ok a)
  | Throw e => Q [] (Err e)
  | Do o k => ∀ b, all_paths (k b) (λ τ, Q (ADo o b :: τ))
  | Call r k => ∀ x, all_paths (k x) (λ τ, Q (ACall r x :: τ))
  | Spawn body k => ∀ p, all_paths (k p) (λ τ, Q (ASpawn p body :: τ))
  | Await ps k => ∀ x, all_paths (k x) (λ τ, Q (AAwait ps x :: τ))
  | SetTimeout cb ms k => all_paths k (λ τ, Q (ATimeout cb ms :: τ))
  | SetImmediate cb k => all_paths k (λ τ, Q (AImmediate cb :: τ))
  end.

Definition count_acts (f : act → bool) (τ : list act) : nat :=
  length (List.filter f τ).

(** [processingMessages.delete(id)] *)
Definition is_unmark (id : string) (a : act) : bool :=
  match a with
  | ADo (processingMessages_delete id') _ => String.eqb id' id
  | _ => false
  end.

Definition is_incr (c : counter) (a : act) : bool :=
  match a, c with
  | ADo (stats_incr Processed) _, Processed => true
  | ADo (stats_incr Duplicates) _, Duplicates => true
  | ADo (stats_incr Errors) _, Errors => true
  | _, _ => false
  end.


(** What the awaits of a run received, in order. *)
Definition awaited (τ : list act) : list (res (list jsval)) :=
  omap (λ a, match a with
             | AAwait _ x => Some x
             | _ => None
             end) τ.

Definition inactive (businessData : jsval) : bool :=
  match prop businessData "status" with
  | Ok status => Route.is_inactive status
  | Err _ => false
  end.

(** The pipeline found no WhatsApp configuration, or no business, or an
    inactive one: the first [Promise.all] gave a falsy configuration, or the
    second a business that is falsy or has status "inactive". *)
Definition dropped (τ : list act) : bool :=
  match awaited τ with
  | Ok first :: rest =>
      if negb (truthy (nth 0 first JUndefined)) then true
      else match rest with
           | Ok second :: _ =>
               negb (truthy (nth 0 second JUndefined))
               || inactive (nth 0 second JUndefined)
           | _ => false
           end
  | _ => false
  end.

(** The promises of the tasks a run started, in order. *)
Definition spawned (τ : list act) : list nat :=
  omap (λ a, match a with
             | ASpawn p _ => Some p
             | _ => None
             end) τ.

(** The first [await] of a run: its promises and what it received. *)
Definition first_await (τ : list act) : option (list nat * res (list jsval)) :=
  head (omap (λ a, match a with
                   | AAwait ps x => Some (ps, x)
                   | _ => None
                   end) τ).

(** The first task a run started, with the first [await] after that. *)
Fixpoint task_await (τ : list act) : option (nat * (list nat * res (list jsval))) :=
  match τ with
  | [] => None
  | ASpawn p _ :: τ' => pair p <$> first_await τ'
  | _ :: τ' => task_await τ'
  end.

(** The outcome of the task a run started, as its [await] received it. *)
Definition task_outcome (τ : list act) : option (res (list jsval)) :=
  (λ t, t.2.2) <$> task_await τ.

Definition fulfilled (τ : list act) : bool :=
  match task_outcome τ with
  | Some (Ok _) => true
  | _ => false
  end.

(** [res.status(200).send("OK")] *)
Definition is_ack (a : act) : bool :=
  match a with
  | ADo (res_send status _) _ => (status =? 200)%Z
  | _ => false
  end.

(** The callbacks a run gave to [setImmediate] before its first response. *)
Fixpoint deferred_before_ack (τ : list act) : nat :=
  match τ with
  | [] => 0
  | AImmediate _ :: τ' => S (deferred_before_ack τ')
  | a :: τ' => if is_ack a then 0 else deferred_before_ack τ'
  end.





(** The tasks a run started: their promises and bodies. *)
Definition spawns (τ : list act) : list (nat * async jsval) :=
  omap (λ a, match a with
             | ASpawn p body => Some (p, body)
             | _ => None
             end) τ.


(* ===================================================================== *)
(** * The tasks of the loop and the paths of their programs               *)
(* ===================================================================== *)

(** What an [await] on one promise receives from the result of its task. *)
Definition lift (r : res jsval) : res (list jsval) :=
  match r with
  | Ok v => Ok [v]
  | Err e => Err e
  end.

(** What a step says about other tasks: the task it starts has begun with
    that body; the values an [await] received are the ones the tasks of its
    promises ended with, and the error it received is the one a task of its
    promises ended with. *)
Definition linked (tr : list (nat * act)) (a : act) : Prop :=
  match a with
  | ASpawn p body => (p, ABegin body) ∈ tr
  | AAwait ps (Ok vs) => Forall2 (λ p v, (p, AEnd (Ok v)) ∈ tr) ps vs
  | AAwait ps (Err e) => ∃ p, p ∈ ps ∧ (p, AEnd (Err e)) ∈ tr
  | _ => True
  end.

(** What remains of a task's program, given what it did so far ([pre]:
    the step it is about to log). *)
Definition ob (tr : list (nat * act)) (s : nat) (pre : list act) (c : async jsval) : Prop :=
  ∀ m, (s, ABegin m) ∈ tr →
  ∀ Q, all_paths m Q → all_paths c (λ τ r, Q (steps s tr ++ pre ++ τ) r).

(** A task of the pool: its promise, and what the trace must satisfy for its
    continuation to be a remainder of its program. *)
Definition ent : Type := nat * (list (nat * act) → Prop).

Definition run_ent (x : nat * async jsval) : ent :=
  (x.1, λ tr, ob tr x.1 [] x.2).
Definition wait_ent (w : waiter) : ent :=
  (wt_self w, λ tr, ∀ x, ob tr (wt_self w) [AAwait (wt_on w) x] (wt_k w x)).
Definition call_ent (c : pending) : ent :=
  (pc_self c, λ tr, ∀ x, ob tr (pc_self c) [ACall (pc_req c) x] (pc_k c x)).

Definition pool (st : loop) : list ent :=
  (run_ent <$> micro st) ++ (wait_ent <$> waiting st) ++ (call_ent <$> calls st).

Definition local (e : ent) : Prop :=
  ∀ tr s' a, s' ≠ e.1 → e.2 tr → e.2 (tr ++ [(s', a)]).

Record sound (es : list ent) (tr : list (nat * act)) (n : nat)
    (sm : gmap nat (res jsval)) : Prop := Sound {
  s_nodup : NoDup (es.*1);
  s_ok : ∀ e, e ∈ es → e.2 tr ∧ local e ∧ e.1 < n ∧ ∀ r, (e.1, AEnd r) ∉ tr;
  s_fresh : ∀ x, x ∈ tr → x.1 < n;
  s_done : ∀ s m r, (s, ABegin m) ∈ tr → (s, AEnd r) ∈ tr →
           ∀ Q, all_paths m Q → Q (steps s tr) r;
  s_linked : ∀ x, x ∈ tr → linked tr x.2;
  s_settled : ∀ p r, sm !! p = Some r → (p, AEnd r) ∈ tr
}.

(** The invariant of the loop; [E] are the tasks being run. *)
Definition Inv (E : list (nat * async jsval)) (st : loop) : Prop :=
  sound ((run_ent <$> E) ++ pool st) (trace st) (fresh st) (settled st).

(* ===================================================================== *)
(** * Markers and the timers that delete them                             *)
(* ===================================================================== *)

(** The marker that is set and has not been given its timer yet, after an
    operation; [None] when the operation sets a marker while one is owed
    its timer. *)
Definition owes (o : op) (owed : option string) : option (option string) :=
  match o with
  | processingMessages_add id =>
      match owed with
      | None => Some (Some id)
      | Some _ => None
      end
  | processingMessages_delete id =>
      Some (if decide (owed = Some id) then None else owed)
  | _ => Some owed
  end.

(** [tidy owed m]: in [m], in its callbacks and in the tasks it starts,
    every [processingMessages.add(id)] is followed, before the task
    suspends, starts another task or ends, by [setTimeout] of the deletion
    of [id] after 120 seconds.  [owed] is the marker that still waits for
    its timer. *)
Fixpoint tidy {A : Type} (owed : option string) (m : async A) : Prop :=
  match m with
  | Ret _ | Throw _ => owed = None
  | Do o k =>
      match owes o owed with
      | Some owed' => ∀ b, tidy owed' (k b)
      | None => False
      end
  | Call _ k => owed = None ∧ ∀ x, tidy None (k x)
  | Spawn body k => owed = None ∧ tidy None body ∧ ∀ p, tidy None (k p)
  | Await _ k => owed = None ∧ ∀ x, tidy None (k x)
  | SetTimeout cb ms k =>
      tidy None cb
      ∧ match owed with
        | Some id => cb = expire id ∧ ms = 120000%Z
        | None => True
        end
      ∧ tidy None k
  | SetImmediate cb k => tidy None cb ∧ tidy owed k
  end.

(** The marker a callback deletes first. *)
Definition expires (cb : async jsval) : option string :=
  match cb with
  | Do (processingMessages_delete id) _ => Some id
  | _ => None
  end.

(** Every marker but the owed one has a pending timer that deletes it and
    is due within 120 seconds, and whatever is still to run is tidy. *)
Record kept (owed : option string) (st : loop) : Prop := Kept {
  k_marks : ∀ id, id ∈ processingMessages (w_heap (world_of st)) →
    owed = Some id
    ∨ ∃ due, (due, expire id) ∈ timers st
             ∧ (w_clock (world_of st) ≤ due ≤ w_clock (world_of st) + 120000)%Z;
  k_micro : ∀ x, x ∈ micro st → tidy None x.2;
  k_waiting : ∀ w x, w ∈ waiting st → tidy None (wt_k w x);
  k_calls : ∀ c x, c ∈ calls st → tidy None (pc_k c x);
  k_immediates : ∀ cb, cb ∈ immediates st → tidy None cb;
  k_timers : ∀ t, t ∈ timers st → tidy None t.2
}.

(** The requests of a run are webhook deliveries. *)
Definition is_delivery (ev : event) : Prop :=
  match ev with
  | Request m => ∃ parsed, m = Route.webhook_post parsed
  | _ => True
  end.

(* ===================================================================== *)
(** * routes/whatsapp-optimized.js: verification and text replies         *)
(* ===================================================================== *)

(** [router.get("/webhook")] and [processTextMessage] touch none of the
    module-level singletons and start no task: each is a sequence of
    collaborator calls, log lines and, for the endpoint, one response.  They
    are embedded as functions of the collaborators' answers that give what
    the code did, in order, and its outcome. *)

(** [a === b] for values from different places (a query string, a row of
    the database, a literal): two objects are never the same object. *)
Definition strict_eq (a b : jsval) : bool :=
  match a, b with
  | JUndefined, JUndefined | JNull, JNull => true
  | JBool x, JBool y => Bool.eqb x y
  | JNum x, JNum y => (x =? y)%Z
  | JStr x, JStr y => String.eqb x y
  | _, _ => false
  end.

(** [v[0]] *)
Definition first_item (v : jsval) : res jsval :=
  match v with
  | JUndefined | JNull =>
      Err (TypeError ("Cannot read properties of " +:+ template v))
  | JArr items => Ok (nth 0 items JUndefined)
  | JStr (String c _) => Ok (JStr (String c EmptyString))
  | JObj fields => Ok (assoc "0" fields)
  | _ => Ok JUndefined
  end.

(** [v.startsWith(prefix)]: only strings have the method. *)
Definition startsWith (v : jsval) (prefix : string) : res bool :=
  match v with
  | JStr s => Ok (String.prefix prefix s)
  | JUndefined | JNull =>
      Err (TypeError ("Cannot read properties of " +:+ template v))
  | _ => Err (TypeError "startsWith is not a function")
  end.

(** [configs.find(config => config.verify_token === token)]: only arrays
    have the method; reading the property of a [null] element throws. *)
Fixpoint find_token (token : jsval) (items : list jsval) : res jsval :=
  match items with
  | [] => Ok JUndefined
  | config :: rest =>
      match prop config "verify_token" with
      | Ok v => if strict_eq v token then Ok config else find_token token rest
      | Err e => Err e
      end
  end.

Definition find_config (token configs : jsval) : res jsval :=
  match configs with
  | JArr items => find_token token items
  | JUndefined | JNull =>
      Err (TypeError ("Cannot read properties of " +:+ template configs))
  | _ => Err (TypeError "configs.find is not a function")
  end.

Definition newline : string := String (Ascii.ascii_of_nat 10) EmptyString.

Module Responder.

(** The collaborators, none of which is part of the sources. *)
Inductive service : Type :=
| BusinessService_getAllWhatsAppConfigs
| IntentDetectionService_detectIntent (userMessage : jsval)
| CalendarHandler_handleCalendarIntent (businessId : jsval) (from : string)
    (userMessage intent businessTone : jsval)
| OdooHandler_handleOdooIntent (businessId : jsval) (from : string)
    (userMessage intent businessTone : jsval)
| AirtableService_searchFAQEmbeddings (businessId userMessage : jsval)
| DatabaseService_getConversationHistory (conversationId : jsval) (limit : Z)
| OpenAIService_generateResponse (history userMessage businessTone intent : jsval).

(** What the code does, step by step. *)
Inductive effect : Type :=
| Asked (s : service) (x : res jsval)
| Logged (line : string)
| Errored (line : string)
| Sent (status : Z) (body : jsval).

(** A computation: given each collaborator's answer, its steps and its
    outcome.  No call is made twice in one run of the functions below. *)
Definition flow (A : Type) : Type := (service → res jsval) → list effect * res A.

Definition Ret {A : Type} (a : A) : flow A := λ _, ([], Ok a).
Definition Throw {A : Type} (e : jsval) : flow A := λ _, ([], Err e).

Definition bind {A B : Type} (m : flow A) (f : A → flow B) : flow B :=
  λ ans,
    match m ans with
    | (τ, Ok a) => let '(τ', r) := f a ans in (τ ++ τ', r)
    | (τ, Err e) => (τ, Err e)
    end.

(** [try { m } catch (error) { h error }] *)
Definition try_catch {A : Type} (m : flow A) (h : jsval → flow A) : flow A :=
  λ ans,
    match m ans with
    | (τ, Ok a) => (τ, Ok a)
    | (τ, Err e) => let '(τ', r) := h e ans in (τ ++ τ', r)
    end.

Definition of_res {A : Type} (r : res A) : flow A := λ _, ([], r).
(** [await collaborator(...)] *)
Definition ask (s : service) : flow jsval := λ ans, ([Asked s (ans s)], ans s).
Definition console_log (line : string) : flow unit := λ _, ([Logged line], Ok tt).
Definition console_error (line : string) : flow unit := λ _, ([Errored line], Ok tt).
(** [res.status(status).send(body)] *)
Definition res_send (status : Z) (body : jsval) : flow unit :=
  λ _, ([Sent status body], Ok tt).

Declare Scope flow_scope.
Delimit Scope flow_scope with flow.
Bind Scope flow_scope with flow.
Notation "x ← y ; z" := (bind y (λ x, z))
  (at level 20, y at level 100, z at level 200, only parsing) : flow_scope.
Notation "y ;; z" := (bind y (λ _, z))
  (at level 100, z at level 200, only parsing, right associativity) : flow_scope.
#[local] Open Scope flow_scope.

(** [router.get("/webhook", ...)]; its inputs are the three fields it takes
    from [req.query].  Express ignores what the handler returns. *)
Definition webhook_get (mode token challenge : jsval) : flow unit :=
  try_catch
    (if negb (truthy mode) || negb (truthy token) then
       console_log "Webhook verification failed: Missing required parameters";;
       res_send 403 (JStr "Forbidden");;
       Ret tt
     else
       configs ← ask BusinessService_getAllWhatsAppConfigs;
       matchingConfig ← of_res (find_config token configs);
       if strict_eq mode (JStr "subscribe") && truthy matchingConfig then
         console_log "Webhook verification successful";;
         res_send 200 challenge;;
         Ret tt
       else
         console_log "Webhook verification failed: Invalid token or mode";;
         res_send 403 (JStr "Forbidden");;
         Ret tt)
    (λ error,
       console_error "Webhook verification error:";;
       res_send 403 (JStr "Forbidden");;
       Ret tt).

Definition is_calendar_intent (intent : jsval) : bool :=
  strict_eq intent (JStr "schedule_appointment")
  || strict_eq intent (JStr "check_availability")
  || strict_eq intent (JStr "cancel_appointment")
  || strict_eq intent (JStr "reschedule_appointment").

(** [response && response.handled], then [return response.response]: the
    reply a handler gives, if it gives one. *)
Definition handled_reply (response : jsval) : flow (option jsval) :=
  if truthy response then
    handled ← of_res (prop response "handled");
    if truthy handled then
      reply ← of_res (prop response "response");
      Ret (Some reply)
    else Ret None
  else Ret None.

Section Replies.

(** [v >= c / 100], the comparison of a similarity with 0.65 and 0.55.  A
    similarity is a fraction, which the values here (whose numbers are
    integers) cannot hold, so the comparison is left open: what is proved
    below holds for every comparison and says nothing on which of the two
    FAQ replies is given. *)
Variable at_least : jsval → Z → bool.

(** The FAQ step of [processTextMessage]: the reply it returns, if any. *)
Definition faq_reply (businessId userMessage : jsval) : flow (option jsval) :=
  try_catch
    (faqMatches ← ask (AirtableService_searchFAQEmbeddings businessId userMessage);
     if truthy faqMatches then
       len ← of_res (prop faqMatches "length");
       if gt_zero len then
         topMatch ← of_res (first_item faqMatches);
         similarity ← of_res (prop topMatch "similarity");
         if at_least similarity 65 then
           question ← of_res (prop topMatch "question");
           console_log ("High confidence FAQ match (" +:+ template similarity +:+ "): "
                        +:+ template question);;
           answer ← of_res (prop topMatch "answer");
           Ret (Some answer)
         else if at_least similarity 55 then
           console_log ("Medium confidence FAQ match (" +:+ template similarity +:+ ")");;
           answer ← of_res (prop topMatch "answer");
           Ret (Some (JStr (template answer +:+ newline +:+ newline
                            +:+ "Is this what you were looking for?")))
         else Ret None
       else Ret None
     else Ret None)
    (λ faqError,
       console_error "FAQ search error (non-critical):";;
       Ret None).

Definition processTextMessage (messageData : message_data)
  (conversation businessId businessTone : jsval) : flow jsval :=
  let userMessage := content messageData in
  console_log "Detecting intent...";;
  intentResult ← ask (IntentDetectionService_detectIntent userMessage);
  intent ← of_res (prop intentResult "intent");
  confidence ← of_res (prop intentResult "confidence");
  console_log ("Detected intent: " +:+ template intent +:+ " (confidence: "
               +:+ template confidence +:+ ")");;
  fromCalendar ←
    (if is_calendar_intent intent then
       console_log "Processing calendar-related intent...";;
       try_catch
         (calendarResponse ← ask (CalendarHandler_handleCalendarIntent businessId
                                    (from messageData) userMessage intent businessTone);
          handled_reply calendarResponse)
         (λ calendarError,
            console_error "Calendar handler error:";;
            Ret None)
     else Ret None);
  match fromCalendar with
  | Some aiResponse => Ret aiResponse
  | None =>
      isOdoo ← (if truthy intent then of_res (startsWith intent "odoo_") else Ret false);
      fromOdoo ←
        (if (isOdoo : bool) then
           console_log "Processing Odoo-related intent...";;
           try_catch
             (odooResponse ← ask (OdooHandler_handleOdooIntent businessId
                                    (from messageData) userMessage intent businessTone);
              handled_reply odooResponse)
             (λ odooError,
                console_error "Odoo handler error:";;
                Ret None)
         else Ret None);
      match fromOdoo with
      | Some aiResponse => Ret aiResponse
      | None =>
          console_log "Checking FAQ embeddings...";;
          fromFaq ← faq_reply businessId userMessage;
          match fromFaq with
          | Some aiResponse => Ret aiResponse
          | None =>
              console_log "Generating AI response...";;
              conversationId ← of_res (prop conversation "id");
              conversationHistory ←
                ask (DatabaseService_getConversationHistory conversationId 10);
              ask (OpenAIService_generateResponse conversationHistory userMessage
                     businessTone intent)
          end
      end
  end.

End Replies.

(** The collaborators a run called, in order, and the responses it sent. *)
Definition asked (τ : list effect) : list service :=
  omap (λ x, match x with
             | Asked s _ => Some s
             | _ => None
             end) τ.

Definition sent (τ : list effect) : list (Z * jsval) :=
  omap (λ x, match x with
             | Sent status body => Some (status, body)
             | _ => None
             end) τ.

(** A collaborator whose failure fails the reply. *)
Definition critical (s : service) : bool :=
  match s with
  | IntentDetectionService_detectIntent _
  | DatabaseService_getConversationHistory _ _
  | OpenAIService_generateResponse _ _ _ _ => true
  | _ => false
  end.

(** A run that fails only with the error of its last call, made to a
    collaborator of the given kind, or with a [TypeError]. *)
Definition fails_by {A : Type} (kind : service → bool) (x : list effect * res A) : Prop :=
  ∀ e, x.2 = Err e →
    (∃ s, last x.1 = Some (Asked s (Err e)) ∧ kind s = true)
    ∨ ∃ msg, e = TypeError msg.

Definition is_handler (s : service) : bool :=
  match s with
  | CalendarHandler_handleCalendarIntent _ _ _ _ _
  | OdooHandler_handleOdooIntent _ _ _ _ _ => true
  | _ => false
  end.

(** Answers for the examples: the intent and the FAQ answer as given,
    OpenAI down, a booking the calendar handler takes, one configuration. *)
Definition chat (intent : string) (faq : jsval) (s : service) : res jsval :=
  match s with
  | IntentDetectionService_detectIntent _ =>
      Ok (JObj [("intent", JStr intent); ("confidence", JNum 1)])
  | CalendarHandler_handleCalendarIntent _ _ _ _ _ =>
      Ok (JObj [("handled", JBool true); ("response", JStr "Booked.")])
  | AirtableService_searchFAQEmbeddings _ _ => Ok faq
  | DatabaseService_getConversationHistory _ _ => Ok (JArr [])
  | OpenAIService_generateResponse _ _ _ _ => Err down
  | BusinessService_getAllWhatsAppConfigs =>
      Ok (JArr [JObj [("business_id", JNum 7); ("verify_token", JStr "s3cret")]])
  | _ => Ok JNull
  end.

End Responder.

(* ===================================================================== *)
(** * scripts/db-seed.js: the seeding helper                               *)
(* ===================================================================== *)

Module Seed.

(** What a run of the seeding helpers does: a statement sent to the pool
    with its outcome, a line logged, a pause. *)
Inductive effect : Type :=
| Queried (query : string) (params : list jsval) (x : res jsval)
| Logged (line : string)
| Slept (ms : Z).

Section Retry.

(** [pool.query]: the outcome of the [n]-th statement sent. *)
Variable pool_query : nat → string → list jsval → res jsval.

(** The loop of [executeWithRetry] from [i] on, having sent [sent]
    statements; [fuel] bounds the iterations. *)
Fixpoint retry_from (fuel : nat) (i : Z) (query : string) (params : list jsval)
  (retries : Z) : option (list effect * res jsval) :=
  match fuel with
  | O => None
  | S fuel' =>
      if (i <? retries)%Z then
        match pool_query (Z.to_nat i) query params with
        | Ok result => Some ([Queried query params (Ok result)], Ok result)
        | Err error =>
            if (i =? retries - 1)%Z then
              Some ([Queried query params (Err error)], Err error)
            else
              match retry_from fuel' (i + 1) query params retries with
              | Some (τ, r) =>
                  Some (Queried query params (Err error)
                        :: Logged ("🔄 Retry " +:+ pretty (i + 1)%Z +:+ "/"
                                   +:+ pretty retries +:+ " for query...")
                        :: Slept (1000 * (i + 1))
                        :: τ, r)
              | None => None
              end
        end
      else Some ([], Ok JUndefined)
  end.

Definition executeWithRetry (query : string) (params : list jsval) (retries : Z)
  : option (list effect * res jsval) :=
  retry_from (Z.to_nat retries + 1) 0 query params retries.

End Retry.

Definition queries (τ : list effect) : list (res jsval) :=
  omap (λ f, match f with
             | Queried _ _ x => Some x
             | _ => None
             end) τ.

Definition pauses (τ : list effect) : list Z :=
  omap (λ f, match f with
             | Slept ms => Some ms
             | _ => None
             end) τ.

(** [1000; 2000; ...; 1000 * n] *)
Definition backoff (n : nat) : list Z :=
  map (λ j, (1000 * (Z.of_nat j + 1))%Z) (seq 0 n).

(** A pool that fails [n] times, then answers. *)
Definition flaky (n : nat) (k : nat) (query : string) (params : list jsval) : res jsval :=
  if (k <? n)%nat then Err (mkError "connection terminated")
  else Ok (JObj [("rows", JArr [])]).

End Seed.

(* ===================================================================== *)
(** * Acceptance, failure reports and replies                             *)
(* ===================================================================== *)

(** The markers a run added, the timers it set and the callbacks it gave
    to [setImmediate]. *)
Definition marks (τ : list act) : list string :=
  omap (λ a, match a with
             | ADo (processingMessages_add id) _ => Some id
             | _ => None
             end) τ.

Definition timeouts (τ : list act) : list (async jsval * Z) :=
  omap (λ a, match a with
             | ATimeout cb ms => Some (cb, ms)
             | _ => None
             end) τ.

Definition deferred (τ : list act) : list (async jsval) :=
  omap (λ a, match a with
             | AImmediate cb => Some cb
             | _ => None
             end) τ.

(** [error.name], or [undefined] where reading it throws. *)
Definition field (v : jsval) (name : string) : jsval :=
  match prop v name with
  | Ok x => x
  | Err _ => JUndefined
  end.

(** What the background callback asks of its collaborators when its
    pipeline fails with [error]: the error record, unless the thrown value
    has no properties to read, then the apology. *)
Definition error_report (messageData : message_data) (error : jsval) : list request :=
  (if readable error then
     [Query_UpsertError (messageId messageData)
        (js_or (field error "message") (JStr "Unknown error"))
        (js_or (field error "stack") (JStr EmptyString))]
   else [])
  ++ [WhatsAppService_sendMessage (from messageData) (JStr MessageProcessor.apology)].

(** A reply to the user. *)
Definition is_reply (c : request * res jsval) : bool :=
  match c.1 with
  | WhatsAppService_sendMessage _ _ => true
  | _ => false
  end.

(** The calls of a pipeline run that reached the reply: the incoming row
    stored, the responder asked, the reply stored, the reaction cleared,
    each fulfilled, then the reply sent. *)
Definition stored_then_replied (md : message_data)
  (calls : list (request * res jsval)) : Prop :=
  ∃ businessId conversationId conversationId' responder answer aiResponse now s1 s2 s3 x,
    calls
    = [(DatabaseService_saveMessage
          (MessageRow businessId conversationId (messageId md) (from md) (to md)
             (messageType md) (content md) (mediaUrl md) JNull true), Ok s1);
       (responder, Ok answer);
       (DatabaseService_saveMessage
          (MessageRow businessId conversationId'
             ("ai_" +:+ messageId md +:+ "_" +:+ pretty (now : Z))
             (to md) (from md) "text" aiResponse JNull JNull false), Ok s2);
       (WhatsAppService_sendReaction (from md) (messageId md) EmptyString, Ok s3);
       (WhatsAppService_sendMessage (from md) aiResponse, x)]
    ∧ match responder with
      | Respond_text md' _ businessId' _ =>
          md' = md ∧ businessId' = businessId ∧ aiResponse = answer
      | Respond_media md' businessId' =>
          md' = md ∧ businessId' = businessId ∧ prop answer "aiResponse" = Ok aiResponse
      | _ => False
      end.

(** [processWithLock] called on its own, with a function that throws. *)
Definition locked_failure : list event :=
  [ Request (MessageProcessor.processWithLock "k" (Throw (JStr "boom"))); Tick ].

(* ===================================================================== *)
(** * The state a trace leaves                                            *)
(* ===================================================================== *)

(** What one entry of the trace does to the markers and to the counters. *)
Definition marks_step (s : gset string) (x : nat * act) : gset string :=
  match x.2 with
  | ADo (processingMessages_add id) _ => s ∪ {[id]}
  | ADo (processingMessages_delete id) _ => s ∖ {[id]}
  | _ => s
  end.

Definition stats_step (s : processor_stats) (x : nat * act) : processor_stats :=
  match x.2 with
  | ADo (stats_incr c) _ => incr c s
  | _ => s
  end.

(** The markers and the counters that the operations of a trace leave,
    whichever task made them. *)
Definition marks_after (tr : list (nat * act)) : gset string := foldl marks_step ∅ tr.

Definition stats_after (tr : list (nat * act)) : processor_stats :=
  foldl stats_step (ProcessorStats 0 0 0) tr.

(** The markers and the counters of a state are those its trace leaves. *)
Record replayed (st : loop) : Prop := Replayed {
  r_marks : processingMessages (w_heap (world_of st)) = marks_after (trace st);
  r_stats : stats (w_heap (world_of st)) = stats_after (trace st)
}.


(** A getter that runs right after an invalidation, with no [await]
    between the two: it reports no hit and calls the loader first, whatever
    the store held; when the loader fails it calls it a second time, and its
    outcome is that of the last call it made. *)
Definition reloads (invalidate : async unit) (get : async jsval) (loader : request) : Prop :=
  ∀ (a a2 : answer) (dt dt2 : Z) (rest : list (Z * answer)) (w : world),
  ∃ r w' rest' tr,
    run_seq (invalidate;; get) ((dt, a) :: (dt2, a2) :: rest) w = Some (r, w', rest', tr)
    ∧ calls_in tr
      = (loader, outcome a) :: (if is_served a then [] else [(loader, outcome a2)])
    ∧ r = (if is_served a then outcome a else outcome a2)
    ∧ hits (cstats (w_heap w')) = hits (cstats (w_heap w))
    ∧ misses (cstats (w_heap w')) = S (misses (cstats (w_heap w))).

(** A load of business 7 is in flight when the business is invalidated; it
    is answered afterwards (call 1), and the business is asked for again. *)
Definition stale_after_invalidate : list event :=
  [ Request (ConfigCache.getCachedBusiness (JNum 7) Route.getBusinessById);
    Request (ConfigCache.invalidateBusinessCache (JNum 7);; Ret JUndefined);
    Reply 1 (Served business_row);
    Request (ConfigCache.getCachedBusiness (JNum 7) Route.getBusinessById) ].

(* ===================================================================== *)
(** * Lemmas on the primitives                                            *)
(* ===================================================================== *)

#[local] Arguments serve : simpl never.
#[local] Arguments node_cache_get : simpl never.
#[local] Arguments node_cache_set : simpl never.

Lemma serve_external r a w :
  is_external r = true → serve r a w = (outcome a, w).
Proof. destruct r, a; try discriminate; reflexivity. Qed.

Lemma serve_heap_clock r a w :
  w_heap (serve r a w).2 = w_heap w ∧ w_clock (serve r a w).2 = w_clock w.
Proof.
  unfold serve. destruct a; [|done]. destruct r; try done.
  - cbn. by destruct (upsert_error _ _ _ _ _).
  - cbn. by destruct (save_message _ _).
Qed.

Lemma node_cache_get_dead now key c :
  match c !! key with
  | Some e => negb (entry_expires e <? now)%Z
  | None => false
  end = false →
  node_cache_get now key c = (JUndefined, delete key c).
Proof.
  unfold node_cache_get. destruct (c !! key) as [e|] eqn:E.
  - destruct (entry_expires e <? now)%Z; [done | discriminate].
  - intros _. by rewrite delete_id.
Qed.

Lemma node_cache_get_fresh now now' key v c :
  (now' ≤ now + stdTTL_ms)%Z →
  node_cache_get now' key (node_cache_set now key v c)
  = (v, node_cache_set now key v c).
Proof.
  intros H. unfold node_cache_get, node_cache_set. rewrite lookup_insert_eq. simpl.
  destruct (Z.ltb_spec (now + stdTTL_ms) now'); [lia | done].
Qed.

Lemma truthy_defined v : truthy v = true → is_undefined v = false.
Proof. by destruct v. Qed.

Lemma prop_truthy v name : truthy v = true → ∃ x, prop v name = Ok x.
Proof. destruct v; try discriminate; cbn; repeat case_match; eauto. Qed.


Lemma all_paths_mono {A} (m : async A) (Q Q' : list act → res A → Prop) :
  (∀ τ r, Q τ r → Q' τ r) → all_paths m Q → all_paths m Q'.
Proof.
  revert Q Q'. induction m; intros Q Q' HQ; cbn; eauto.
  1-4: intros Hm x; eapply H; [|apply Hm]; cbn; eauto.
  all: intros Hm; eapply IHm2; [|apply Hm]; cbn; eauto.
Qed.

Lemma bind_Ret {A B} (a : A) (f : A → async B) : bind (Ret a) f = f a.
Proof. reflexivity. Qed.
Lemma bind_Throw {A B} e (f : A → async B) : bind (Throw e) f = Throw e.
Proof. reflexivity. Qed.
Lemma try_catch_Ret {A} (a : A) h : try_catch (Ret a) h = Ret a.
Proof. reflexivity. Qed.
Lemma try_catch_Throw {A} e (h : jsval → async A) : try_catch (Throw e) h = h e.
Proof. reflexivity. Qed.
Lemma of_res_Ok {A} (a : A) : of_res (Ok a) = Ret a.
Proof. reflexivity. Qed.
Lemma of_res_Err {A} e : of_res (Err e) = @Throw A e.
Proof. reflexivity. Qed.

(** Case analysis on the three getters. *)
Ltac getter_cases H :=
  unfold getters in H;
  repeat (apply elem_of_cons in H as [H|H]; [injection H as -> -> | ]);
  [ | | | by apply elem_of_nil in H].

Ltac unfold_sources :=
  unfold MessageProcessor.background, MessageProcessor.processWithLock,
    MessageProcessor.logProcessingError, MessageProcessor.sendErrorNotification,
    MessageProcessor.markAsCompleted, MessageProcessor.markAsProcessing,
    MessageProcessor.isMessageProcessed, MessageProcessor.processInBackground,
    ConfigCache.getCachedWhatsAppConfig, ConfigCache.getCachedBusiness,
    ConfigCache.getCachedBusinessTone,
    Route.processMessageFull, Route.processTextMessage, Route.processMediaMessage.

(** One step of a task, symbolically. *)
Ltac crank :=
  cbn [all_paths bind try_catch try_finally do call start await await_all
       of_res when throw setTimeout setImmediate await_value prop ret_type
       String.eqb Ascii.eqb Bool.eqb negb andb orb].

Ltac unstick :=
  progress rewrite ?bind_Ret, ?bind_Throw, ?try_catch_Ret, ?try_catch_Throw,
    ?of_res_Ok, ?of_res_Err.

(** Follow every path of a task to its end. *)
Ltac walk :=
  repeat (crank; match goal with
  | |- ∀ _ : unit, _ => intros []
  | |- ∀ _ : bool, _ => intros []
  | |- ∀ _ : option _, _ => intros [?|]
  | |- ∀ _ : res _, _ => intros [?|?]
  | |- ∀ _ : nat, _ => intro
  | |- ∀ _ : Z, _ => intro
  | |- ∀ _ : jsval, _ => intro
  | |- context [prop ?e _] => is_var e; destruct e
  | |- _ => unstick
  | |- context [is_undefined ?c] => is_var c; destruct (is_undefined c)
  | |- context [truthy ?c] => is_var c; destruct (truthy c)
  end).

(** Keep the postcondition folded while the paths are followed. *)
Ltac hide_post :=
  match goal with
  | |- all_paths _ ?Q => generalize (eq_refl Q); generalize Q at 2 3; intros ? ?
  end.

(* ===================================================================== *)
(** * Every task of the loop follows a path of its program                *)
(* ===================================================================== *)

Lemma steps_app s tr1 tr2 : steps s (tr1 ++ tr2) = steps s tr1 ++ steps s tr2.
Proof. unfold steps. apply omap_app. Qed.

Lemma steps_other s s' a : s' ≠ s → steps s [(s', a)] = [].
Proof.
  intros H. unfold steps. cbn. by destruct (Nat.eqb_spec s' s).
Qed.

Lemma steps_own s a : is_step a = true → steps s [(s, a)] = [a].
Proof. intros H. unfold steps. cbn. by rewrite Nat.eqb_refl, H. Qed.

Lemma steps_not_step s s' a : is_step a = false → steps s [(s', a)] = [].
Proof. intros H. unfold steps. cbn. by rewrite H, andb_false_r. Qed.

Lemma steps_elem s a tr : a ∈ steps s tr → (s, a) ∈ tr.
Proof.
  unfold steps. rewrite list_elem_of_omap. intros ([s' a'] & Hin & H). cbn in H.
  destruct (Nat.eqb_spec s' s) as [->|]; [|done]. cbn in H.
  destruct (is_step a'); [|done]. by simplify_eq.
Qed.

Lemma linked_mono tr tr' a : linked tr a → linked (tr ++ tr') a.
Proof.
  destruct a as [| | |p body|ps [vs|e]| | |]; cbn; try done.
  - intros H. apply elem_of_app. by left.
  - intros H. eapply Forall2_impl; [exact H|].
    intros p v Hp. apply elem_of_app. by left.
  - intros (p & Hp & H). exists p. split; [done|]. apply elem_of_app. by left.
Qed.

Lemma first_rejected_elem sm ps e :
  first_rejected sm ps = Some e → ∃ p, p ∈ ps ∧ sm !! p = Some (Err e).
Proof.
  induction ps as [|p ps IH]; cbn; [done|].
  destruct (sm !! p) as [[v|e']|] eqn:E.
  2: { intros [= ->]. exists p. split; [by left|done]. }
  all: intros H; destruct (IH H) as (q & Hq & Hsm); exists q; split; [by right|done].
Qed.

Lemma all_fulfilled_values sm ps vs :
  all_fulfilled sm ps = Some vs → Forall2 (λ p v, sm !! p = Some (Ok v)) ps vs.
Proof.
  revert vs. induction ps as [|p ps IH]; intros vs; cbn.
  - intros [= <-]. constructor.
  - destruct (sm !! p) as [[v|e']|] eqn:E; [|done|done].
    destruct (all_fulfilled sm ps) as [vs'|]; [|done].
    intros [= <-]. constructor; [done|]. by apply IH.
Qed.

Lemma gather_linked tr sm ps x :
  (∀ p r, sm !! p = Some r → (p, AEnd r) ∈ tr) →
  gather sm ps = Some x → linked tr (AAwait ps x).
Proof.
  intros Hs. unfold gather.
  destruct (first_rejected sm ps) as [e|] eqn:E1.
  - intros [= <-]. apply first_rejected_elem in E1 as (p & Hp & Hsm).
    exists p. split; [done|]. by apply Hs.
  - destruct (all_fulfilled sm ps) as [vs|] eqn:E2; [|done].
    intros [= <-]. apply all_fulfilled_values in E2. cbn.
    eapply Forall2_impl; [exact E2|]. intros p v. apply Hs.
Qed.

Lemma ob_frame tr s pre c s' a :
  s' ≠ s → ob tr s pre c → ob (tr ++ [(s', a)]) s pre c.
Proof.
  intros Hne H m Hm Q HQ.
  apply elem_of_app in Hm as [Hm|Hm].
  2: { apply list_elem_of_singleton in Hm. congruence. }
  rewrite steps_app, steps_other, app_nil_r by done. by eapply H.
Qed.

Lemma ob_log tr s a c :
  is_step a = true → ob tr s [a] c → ob (tr ++ [(s, a)]) s [] c.
Proof.
  intros Ha H m Hm Q HQ.
  apply elem_of_app in Hm as [Hm|Hm].
  2: { apply list_elem_of_singleton in Hm. by simplify_eq. }
  rewrite steps_app, steps_own by done.
  eapply all_paths_mono; [|by eapply H]. cbn. intros τ r. by rewrite <- app_assoc.
Qed.

Lemma ob_do tr s o k b : ob tr s [] (Do o k) → ob tr s [ADo o b] (k b).
Proof. intros H m Hm Q HQ. apply (H m Hm Q HQ). Qed.
Lemma ob_call tr s q k x : ob tr s [] (Call q k) → ob tr s [ACall q x] (k x).
Proof. intros H m Hm Q HQ. apply (H m Hm Q HQ). Qed.
Lemma ob_spawn tr s body k p : ob tr s [] (Spawn body k) → ob tr s [ASpawn p body] (k p).
Proof. intros H m Hm Q HQ. apply (H m Hm Q HQ). Qed.
Lemma ob_await tr s ps k x : ob tr s [] (Await ps k) → ob tr s [AAwait ps x] (k x).
Proof. intros H m Hm Q HQ. apply (H m Hm Q HQ). Qed.
Lemma ob_timeout tr s cb ms k : ob tr s [] (SetTimeout cb ms k) → ob tr s [ATimeout cb ms] k.
Proof. intros H m Hm Q HQ. apply (H m Hm Q HQ). Qed.
Lemma ob_immediate tr s cb k : ob tr s [] (SetImmediate cb k) → ob tr s [AImmediate cb] k.
Proof. intros H m Hm Q HQ. apply (H m Hm Q HQ). Qed.

Lemma ob_begin tr p body :
  (∀ x, x ∈ tr → x.1 ≠ p) → ob (tr ++ [(p, ABegin body)]) p [] body.
Proof.
  intros Hfresh m Hm Q HQ.
  apply elem_of_app in Hm as [Hm|Hm].
  { by apply Hfresh in Hm. }
  apply list_elem_of_singleton in Hm. simplify_eq.
  rewrite steps_app, steps_not_step, app_nil_r by done.
  assert (steps p tr = []) as ->.
  { unfold steps. clear -Hfresh. induction tr as [|x tr IH]; [done|]. cbn.
    destruct (Nat.eqb_spec x.1 p) as [E|E].
    - exfalso. eapply Hfresh; [by left|done].
    - cbn. apply IH. intros y Hy. apply Hfresh. by right. }
  done.
Qed.

Lemma run_ent_local x : local (run_ent x).
Proof. intros tr s' a Hne H. by apply ob_frame. Qed.
Lemma wait_ent_local w : local (wait_ent w).
Proof. intros tr s' a Hne H x. by apply ob_frame. Qed.
Lemma call_ent_local c : local (call_ent c).
Proof. intros tr s' a Hne H x. by apply ob_frame. Qed.

Lemma sound_perm es es' tr n sm : es ≡ₚ es' → sound es tr n sm → sound es' tr n sm.
Proof.
  intros Hp [H1 H2 H3 H4 H5 H6]. split; try done.
  - by rewrite <- Hp.
  - intros e He. apply H2. by rewrite Hp.
Qed.

Lemma sound_fresh es tr n n' sm : n ≤ n' → sound es tr n sm → sound es tr n' sm.
Proof.
  intros Hle [H1 H2 H3 H4 H5 H6]. split; try done.
  - intros e He. destruct (H2 e He) as (?&?&?&?). repeat split; try done. lia.
  - intros x Hx. specialize (H3 x Hx). lia.
Qed.

Lemma sound_swap (P' : list (nat * act) → Prop) s P es tr n sm :
  sound ((s, P) :: es) tr n sm → P' tr → local (s, P') → sound ((s, P') :: es) tr n sm.
Proof.
  intros [H1 H2 H3 H4 H5 H6] HP' Hl. split; try done.
  intros e He. apply elem_of_cons in He as [->|He].
  - destruct (H2 (s, P)) as (?&?&?&?); [by left|]. done.
  - apply H2. by right.
Qed.

Lemma elem_of_snoc_ne {A} (x y : A) l : x ≠ y → x ∈ l ++ [y] ↔ x ∈ l.
Proof.
  intros Hne. rewrite elem_of_app, list_elem_of_singleton.
  split; [intros [?|?]; [done|congruence] | by left].
Qed.

Lemma linked_snoc tr x :
  (∀ y, y ∈ tr → linked tr y.2) → linked tr x.2 →
  ∀ y, y ∈ tr ++ [x] → linked (tr ++ [x]) y.2.
Proof.
  intros H Hx y Hy. apply linked_mono.
  apply elem_of_app in Hy as [Hy|Hy]; [by apply H|].
  apply list_elem_of_singleton in Hy. by subst.
Qed.

Lemma sound_log (P' : list (nat * act) → Prop) s P a es tr n sm :
  sound ((s, P) :: es) tr n sm →
  is_step a = true →
  linked tr a →
  P' (tr ++ [(s, a)]) → local (s, P') →
  sound ((s, P') :: es) (tr ++ [(s, a)]) n sm.
Proof.
  intros [H1 H2 H3 H4 H5 H6] Ha Hlink HP' Hl.
  destruct (H2 (s, P)) as (_&_&Hsn&Hsend); [by left|]. cbn in Hsn, Hsend.
  cbn in H1. apply NoDup_cons in H1 as [Hs Hnd].
  split.
  - cbn. by apply NoDup_cons.
  - intros e He. apply elem_of_cons in He as [->|He].
    + repeat split; try done. intros r. cbn. rewrite elem_of_snoc_ne; [done|].
      intros [= <-]. done.
    + destruct (H2 e) as (He2&Hel&Hen&Hee); [by right|].
      assert (s ≠ e.1). { intros ->. apply Hs. apply list_elem_of_fmap. eauto. }
      repeat split; try done.
      * by apply Hel.
      * intros r. rewrite elem_of_snoc_ne; [done|]. intros [= E _]. done.
  - intros x Hx. apply elem_of_app in Hx as [Hx|Hx]; [by apply H3|].
    apply list_elem_of_singleton in Hx. by subst.
  - intros t m r Hb He Q HQ.
    rewrite elem_of_snoc_ne in Hb by (intros [= _ <-]; done).
    rewrite elem_of_snoc_ne in He by (intros [= _ <-]; done).
    assert (s ≠ t). { intros ->. by eapply Hsend. }
    rewrite steps_app, steps_other, app_nil_r by done. by eapply H4.
  - by apply linked_snoc.
  - intros p r Hp. apply elem_of_app. left. by apply H6.
Qed.

Lemma sound_end s c r es tr n sm :
  sound (run_ent (s, c) :: es) tr n sm →
  (∀ Q : list act → res jsval → Prop, all_paths c Q → Q [] r) →
  sound es (tr ++ [(s, AEnd r)]) n (<[s := r]> sm).
Proof.
  intros [H1 H2 H3 H4 H5 H6] Hc.
  destruct (H2 (run_ent (s, c))) as (Hob&_&Hsn&Hsend); [by left|]. cbn in Hob, Hsn, Hsend.
  cbn in H1. apply NoDup_cons in H1 as [Hs Hnd].
  split.
  - done.
  - intros e He.
    destruct (H2 e) as (He2&Hel&Hen&Hee); [by right|].
    assert (s ≠ e.1). { intros ->. apply Hs. apply list_elem_of_fmap. eauto. }
    repeat split; try done.
    + by apply Hel.
    + intros r'. rewrite elem_of_snoc_ne; [done|]. intros [= E _]. done.
  - intros x Hx. apply elem_of_app in Hx as [Hx|Hx]; [by apply H3|].
    apply list_elem_of_singleton in Hx. by subst.
  - intros t m r' Hb He Q HQ.
    rewrite elem_of_snoc_ne in Hb by (intros [= _ ?]; done).
    rewrite steps_app, steps_not_step, app_nil_r by done.
    apply elem_of_app in He as [He|He].
    + by eapply H4.
    + apply list_elem_of_singleton in He. simplify_eq.
      specialize (Hob m Hb Q HQ). apply Hc in Hob. by rewrite app_nil_r in Hob.
  - by apply linked_snoc.
  - intros p r' Hp. apply elem_of_app.
    destruct (decide (s = p)) as [->|Hne].
    + rewrite lookup_insert_eq in Hp. simplify_eq. right. by apply list_elem_of_singleton.
    + rewrite lookup_insert_ne in Hp by done. left. by apply H6.
Qed.

Lemma sound_begin body es tr n sm :
  sound es tr n sm →
  sound (run_ent (n, body) :: es) (tr ++ [(n, ABegin body)]) (S n) sm.
Proof.
  intros [H1 H2 H3 H4 H5 H6].
  assert (Hn : ∀ x, x ∈ tr → x.1 ≠ n). { intros x Hx. specialize (H3 x Hx). lia. }
  split.
  - cbn. apply NoDup_cons. split; [|done].
    intros Hin. apply list_elem_of_fmap in Hin as (e & -> & He).
    destruct (H2 e He) as (_&_&?&_). lia.
  - intros e He. apply elem_of_cons in He as [->|He].
    + repeat split.
      * cbn. by apply ob_begin.
      * apply run_ent_local.
      * cbn. lia.
      * intros r. cbn. rewrite elem_of_snoc_ne by (intros [= _ ?]; done).
        intros Hx. by apply Hn in Hx.
    + destruct (H2 e He) as (He2&Hel&Hen&Hee).
      repeat split; try done.
      * apply Hel; [lia|done].
      * lia.
      * intros r. rewrite elem_of_snoc_ne by (intros [= _ ?]; done). done.
  - intros x Hx. apply elem_of_app in Hx as [Hx|Hx].
    + specialize (H3 x Hx). lia.
    + apply list_elem_of_singleton in Hx. subst. cbn. lia.
  - intros t m r Hb He Q HQ.
    rewrite elem_of_snoc_ne in He by (intros [= _ ?]; done).
    assert (t ≠ n). { intros ->. by apply Hn in He. }
    rewrite elem_of_snoc_ne in Hb by (intros [= ? _]; done).
    rewrite steps_app, steps_not_step, app_nil_r by done. by eapply H4.
  - by apply linked_snoc.
  - intros p r Hp. apply elem_of_app. left. by apply H6.
Qed.

Lemma Inv_perm E E' st : E ≡ₚ E' → Inv E st → Inv E' st.
Proof. intros Hp. unfold Inv. apply sound_perm. by rewrite Hp. Qed.

Lemma Inv_log_step self c c' a E st :
  Inv ((self, c) :: E) st →
  is_step a = true →
  linked (trace st) a →
  ob (trace st) self [a] c' →
  Inv ((self, c') :: E) (log self a st).
Proof.
  intros H Ha Hl Hob. unfold Inv in *. cbn in *.
  eapply (sound_log (run_ent (self, c')).2); [exact H|done|done| |apply (run_ent_local (self, c'))].
  cbn. by apply ob_log.
Qed.

Lemma Inv_head self c E st : Inv ((self, c) :: E) st → ob (trace st) self [] c.
Proof. intros [_ H _ _ _ _]. destruct (H (run_ent (self, c))) as [? _]; [by left|done]. Qed.

Lemma Inv_to_micro self c E st :
  Inv ((self, c) :: E) st → Inv E (set_micro (micro st ++ [(self, c)]) st).
Proof.
  unfold Inv, pool. cbn. apply sound_perm.
  rewrite fmap_app. cbn. solve_Permutation.
Qed.

Lemma Inv_to_wait self ps k E st :
  Inv ((self, Await ps k) :: E) st →
  Inv E (set_waiting (waiting st ++ [Waiter ps k self]) st).
Proof.
  intros H. pose proof (Inv_head _ _ _ _ H) as Hob.
  unfold Inv, pool in *. cbn in *.
  eapply (sound_swap (wait_ent (Waiter ps k self)).2) in H.
  2: { cbn. intros x. by apply ob_await. }
  2: { apply (wait_ent_local (Waiter ps k self)). }
  revert H. apply sound_perm. rewrite fmap_app. cbn.
  change (self, λ tr, ∀ x, ob tr self [AAwait ps x] (k x)) with (wait_ent (Waiter ps k self)).
  solve_Permutation.
Qed.

Lemma Inv_to_call self q k E st :
  Inv ((self, Call q k) :: E) st →
  Inv E (set_fresh (S (fresh st))
           (set_calls (calls st ++ [Pending (fresh st) q k self]) st)).
Proof.
  intros H. pose proof (Inv_head _ _ _ _ H) as Hob.
  unfold Inv, pool in *. cbn in *.
  eapply (sound_swap (call_ent (Pending (fresh st) q k self)).2) in H.
  2: { cbn. intros x. by apply ob_call. }
  2: { apply (call_ent_local (Pending (fresh st) q k self)). }
  apply (sound_fresh _ _ (fresh st)); [lia|].
  revert H. apply sound_perm. rewrite fmap_app. cbn.
  change (self, λ tr, ∀ x, ob tr self [ACall q x] (k x))
    with (call_ent (Pending (fresh st) q k self)).
  solve_Permutation.
Qed.

Lemma Inv_begin body E st :
  Inv E st →
  Inv ((fresh st, body) :: E)
    (log (fresh st) (ABegin body) (set_fresh (S (fresh st)) st)).
Proof.
  intros H. unfold Inv, pool in *. cbn in *.
  by apply (sound_begin body) in H.
Qed.

Lemma Inv_spawn self body k E st :
  Inv ((self, Spawn body k) :: E) st →
  Inv ((fresh st, body) :: (self, k (fresh st)) :: E)
    (log self (ASpawn (fresh st) body)
       (log (fresh st) (ABegin body) (set_fresh (S (fresh st)) st))).
Proof.
  intros H. apply (Inv_begin body) in H.
  apply (Inv_perm _ ((self, Spawn body k) :: (fresh st, body) :: E)) in H.
  2: { apply perm_swap. }
  apply (Inv_perm ((self, k (fresh st)) :: (fresh st, body) :: E)).
  { apply perm_swap. }
  apply (Inv_log_step self (Spawn body k)); [exact H|done| |].
  - cbn. apply elem_of_app. right. by apply list_elem_of_singleton.
  - apply ob_spawn. apply (Inv_head _ _ _ _ H).
Qed.

Lemma Inv_end self c r E st :
  Inv ((self, c) :: E) st →
  (∀ Q : list act → res jsval → Prop, all_paths c Q → Q [] r) →
  Inv E (set_settled (<[self := r]> (settled st)) (log self (AEnd r) st)).
Proof.
  intros H Hc. unfold Inv, pool in *. cbn in *. by eapply sound_end.
Qed.

(** Moving one waiter to the microtask queue. *)
Lemma Inv_resume w r w1 w2 E st :
  waiting st = w1 ++ w :: w2 →
  gather (settled st) (wt_on w) = Some r →
  Inv E st →
  Inv E (resume (w, r) (set_waiting (w1 ++ w2) st)).
Proof.
  intros Hw Hg H. unfold Inv, pool, resume in *. cbn in *. rewrite Hw in H.
  assert (Hp : (run_ent <$> E) ++ (run_ent <$> micro st) ++
               (wait_ent <$> w1 ++ w :: w2) ++ (call_ent <$> calls st)
             ≡ₚ wait_ent w :: ((run_ent <$> E) ++ (run_ent <$> micro st) ++
               (wait_ent <$> w1 ++ w2) ++ (call_ent <$> calls st))).
  { rewrite !fmap_app. cbn. solve_Permutation. }
  apply (sound_perm _ _ _ _ _ Hp) in H.
  pose proof H as [_ Hok _ _ _ Hset]. destruct (Hok (wait_ent w)) as [Hob _]; [by left|].
  eapply (sound_log (run_ent (wt_self w, wt_k w r)).2 _ _ (AAwait (wt_on w) r)) in H.
  2: done.
  2: { by eapply gather_linked. }
  2: { cbn. apply ob_log; [done|]. apply Hob. }
  2: { apply (run_ent_local (wt_self w, wt_k w r)). }
  revert H. apply sound_perm. rewrite !fmap_app. cbn.
  change (wt_self w, λ tr, ob tr (wt_self w) [] (wt_k w r))
    with (run_ent (wt_self w, wt_k w r)).
  solve_Permutation.
Qed.

Lemma set_waiting_id st : set_waiting (waiting st) st = st.
Proof. by destruct st. Qed.

Lemma release_sound E ws : ∀ kept st,
  waiting st = kept ++ ws →
  Inv E st →
  Inv E (foldl (λ st wr, resume wr st)
           (set_waiting (kept ++ (release (settled st) ws).2) st)
           (release (settled st) ws).1).
Proof.
  induction ws as [|w ws IH]; intros kept st Hw H; cbn.
  - rewrite app_nil_r in *. by rewrite <- Hw, set_waiting_id.
  - destruct (gather (settled st) (wt_on w)) as [r|] eqn:Hg; cbn.
    + pose proof (Inv_resume w r kept ws E st Hw Hg H) as H1.
      apply (IH kept (resume (w, r) (set_waiting (kept ++ ws) st)) eq_refl H1).
    + specialize (IH (kept ++ [w]) st). rewrite <- !app_assoc in IH. cbn in IH.
      by apply IH.
Qed.

Lemma Inv_settle self c r E st :
  Inv ((self, c) :: E) st →
  (∀ Q : list act → res jsval → Prop, all_paths c Q → Q [] r) →
  Inv E (settle self r st).
Proof.
  intros H Hc. unfold settle.
  exact (release_sound E (waiting st) []
           (set_settled (<[self := r]> (settled st)) (log self (AEnd r) st))
           eq_refl (Inv_end _ _ _ _ _ H Hc)).
Qed.

Lemma run_thread_sound : ∀ (m : async jsval) self st E,
  Inv ((self, m) :: E) st → Inv E (run_thread self m st).
Proof.
  fix IH 1. intros m self st E H. destruct m; cbn.
  - apply (Inv_settle _ _ _ _ _ H). by intros Q HQ.
  - apply (Inv_settle _ _ _ _ _ H). by intros Q HQ.
  - apply IH.
    apply (Inv_log_step self (Do o k) _ _ _ (set_world (op_sem o (world_of st)).2 st));
      [exact H|done|done|].
    apply ob_do. apply (Inv_head _ _ _ _ H).
  - by apply Inv_to_call.
  - apply IH. apply IH. by apply Inv_spawn.
  - destruct (gather (settled st) ps) as [r|] eqn:G.
    + unfold resume. cbn.
      assert (Hl : linked (trace st) (AAwait ps r)).
      { destruct H as [_ _ _ _ _ Hset]. by eapply gather_linked. }
      pose proof (Inv_log_step self (Await ps k) (k r) (AAwait ps r) E st H eq_refl Hl
                    (ob_await _ _ _ _ _ (Inv_head _ _ _ _ H))) as H1.
      apply Inv_to_micro in H1. exact H1.
    + by apply Inv_to_wait.
  - apply IH.
    apply (Inv_log_step self (SetTimeout m1 ms m2) m2 (ATimeout m1 ms) E
             (set_timers (timers st ++ [((w_clock (world_of st) + ms)%Z, m1)]) st));
      [exact H|done|done|].
    apply ob_timeout. apply (Inv_head _ _ _ _ H).
  - apply IH.
    apply (Inv_log_step self (SetImmediate m1 m2) m2 (AImmediate m1) E
             (set_immediates (immediates st ++ [m1]) st)); [exact H|done|done|].
    apply ob_immediate. apply (Inv_head _ _ _ _ H).
Qed.

Lemma take_call_split cid l c rest :
  take_call cid l = Some (c, rest) → ∃ l1 l2, l = l1 ++ c :: l2 ∧ rest = l1 ++ l2.
Proof.
  revert rest. induction l as [|x l IH]; intros rest; cbn; [done|].
  destruct (Nat.eqb (pc_id x) cid).
  - intros [= <- <-]. by exists [], l.
  - destruct (take_call cid l) as [[y r]|]; [|done].
    intros [= <- <-]. destruct (IH r eq_refl) as (l1 & l2 & -> & ->).
    by exists (x :: l1), l2.
Qed.

Lemma Inv_boot : Inv [] boot.
Proof.
  split; cbn.
  - constructor.
  - intros e He. by apply elem_of_nil in He.
  - intros x Hx. by apply elem_of_nil in Hx.
  - intros s m r Hb. by apply elem_of_nil in Hb.
  - intros x Hx. by apply elem_of_nil in Hx.
  - intros p r Hp. by rewrite lookup_empty in Hp.
Qed.

Lemma run_new_sound m st : Inv [] st → Inv [] (run_new m st).
Proof. intros H. unfold run_new. apply run_thread_sound. by apply Inv_begin. Qed.

Lemma step_sound ev st st' : Inv [] st → step ev st = Some st' → Inv [] st'.
Proof.
  intros H. unfold step.
  destruct ev as [m0|cid a| | |dt|], (micro st) as [|[self c0] rest0] eqn:Hm; try done.
  - intros [= <-]. by apply run_new_sound.
  - destruct (take_call cid (calls st)) as [[c rest]|] eqn:Hc; [|done].
    intros [= <-]. apply take_call_split in Hc as (l1 & l2 & Hl & ->).
    apply run_thread_sound.
    unfold Inv, pool in *. cbn. rewrite Hl, Hm in H. rewrite Hm. cbn in *.
    assert (Hp : (wait_ent <$> waiting st) ++ (call_ent <$> l1 ++ c :: l2)
               ≡ₚ call_ent c :: ((wait_ent <$> waiting st) ++ (call_ent <$> l1 ++ l2))).
    { rewrite !fmap_app. cbn. solve_Permutation. }
    apply (sound_perm _ _ _ _ _ Hp) in H.
    pose proof H as [_ Hok _ _ _ _]. destruct (Hok (call_ent c)) as [Hob _]; [by left|].
    eapply (sound_log (run_ent (pc_self c, pc_k c (serve (pc_req c) a (world_of st)).1)).2
              _ _ (ACall (pc_req c) (serve (pc_req c) a (world_of st)).1)) in H.
    2, 3: done.
    2: { cbn. apply ob_log; [done|]. apply Hob. }
    2: { apply (run_ent_local (pc_self c, _)). }
    exact H.
  - destruct (immediates st) as [|cb rest] eqn:Hi; [done|].
    intros [= <-]. apply run_new_sound. done.
  - destruct (next_timer (timers st)) as [[[due cb] rest]|]; [|done].
    destruct (due <=? w_clock (world_of st))%Z; [|done].
    intros [= <-]. apply run_new_sound. done.
  - destruct (_ && _); [|done]. intros [= <-]. done.
  - intros [= <-]. apply run_thread_sound.
    unfold Inv, pool in *. cbn. rewrite Hm in H. exact H.
Qed.

Lemma exec_sound evs : ∀ st st', Inv [] st → exec evs st = Some st' → Inv [] st'.
Proof.
  induction evs as [|ev evs IH]; intros st st' H; cbn.
  - by intros [= <-].
  - destruct (step ev st) as [st1|] eqn:E; [|done].
    apply IH. by eapply step_sound.
Qed.

(** Every task that ended in a run of the event loop followed one of the
    paths of its program. *)
Lemma loop_follows_paths evs st self m r (Q : list act → res jsval → Prop) :
  exec evs boot = Some st →
  (self, ABegin m) ∈ trace st →
  (self, AEnd r) ∈ trace st →
  all_paths m Q →
  Q (steps self (trace st)) r.
Proof.
  intros He Hb Hend HQ.
  pose proof (exec_sound evs boot st Inv_boot He) as [_ _ _ Hdone _ _].
  by eapply Hdone.
Qed.

(** The task a step started has begun, with the body given to it. *)
Lemma loop_spawn_begins evs st self p body :
  exec evs boot = Some st →
  ASpawn p body ∈ steps self (trace st) →
  (p, ABegin body) ∈ trace st.
Proof.
  intros He Hs. apply steps_elem in Hs.
  pose proof (exec_sound evs boot st Inv_boot He) as [_ _ _ _ Hl _].
  apply (Hl _ Hs).
Qed.

(** What an [await] received from its promises is what their tasks ended
    with. *)
Lemma loop_await_ends evs st self ps x :
  exec evs boot = Some st →
  AAwait ps x ∈ steps self (trace st) →
  linked (trace st) (AAwait ps x).
Proof.
  intros He Hs. apply steps_elem in Hs.
  pose proof (exec_sound evs boot st Inv_boot He) as [_ _ _ _ Hl _].
  apply (Hl _ Hs).
Qed.

Lemma linked_one tr p x :
  linked tr (AAwait [p] x) → ∃ r, (p, AEnd r) ∈ tr ∧ x = lift r.
Proof.
  destruct x as [vs|e]; cbn.
  - intros H0. apply Forall2_cons_inv_l in H0 as (v & vs' & H & Hnil & ->).
    apply Forall2_nil_inv_l in Hnil as ->. by exists (Ok v).
  - intros (q & Hq & H). apply list_elem_of_singleton in Hq as ->. by exists (Err e).
Qed.

Lemma ran_spec evs : ran evs = true → exec evs boot = Some (after evs).
Proof. unfold ran, after. by destruct (exec evs boot). Qed.

(* ===================================================================== *)
(** * Conversation sequencer                                              *)
(* ===================================================================== *)

(** C1 (the code departs from the claim).  Tasks of one conversation key
    do not always run one after the other.  One user sends A, then B and C
    while A is being answered: B and C both wait for A's promise, and when
    it settles both start.  After A's pipeline, the pipelines of B (task 29)
    and of C (task 32) are in flight together, and C's incoming row is
    stored before B's reply row. *)
Theorem three_messages_interleave :
  (λ st, (in_flight 29 st, in_flight 32 st, stored st)) <$>
    exec (three_arrive ++ a_completes) boot
  = Some (true, true, ["A"; "ai_A_0"])
  ∧ savers <$> exec (three_arrive ++ a_completes ++ b_and_c_interleave) boot
    = Some [(3, "A"); (3, "ai_A_0"); (29, "B"); (32, "C"); (29, "ai_B_0")].
Proof. split; vm_compute; reflexivity. Qed.

(** C6 (the code departs from the claim).  [processWithLock] deletes the
    key's entry when its task settles, whatever the entry points at.  In the
    run above the entry points at C's task (32) when B's task (29) settles;
    it is removed all the same, and a fourth message D then starts its
    pipeline (task 63) while C's is still in flight. *)
Theorem lock_removed_under_newer_task :
  (λ st, (lock_of "unknown:+100" st, in_flight 29 st, in_flight 32 st)) <$>
    exec (three_arrive ++ a_completes ++ b_and_c_interleave) boot
  = Some (Some 32, true, true)
  ∧ (λ st, (lock_of "unknown:+100" st, in_flight 29 st, in_flight 32 st)) <$>
      exec (three_arrive ++ a_completes ++ b_and_c_interleave ++ b_completes) boot
    = Some (None, false, true)
  ∧ (λ st, (lock_of "unknown:+100" st, in_flight 32 st, in_flight 63 st)) <$>
      exec (three_arrive ++ a_completes ++ b_and_c_interleave ++ b_completes
            ++ d_arrives) boot
    = Some (Some 63, true, true).
Proof. repeat split; vm_compute; reflexivity. Qed.

(* ===================================================================== *)
(** * Duplicate filter                                                    *)
(* ===================================================================== *)

(** C2 (the code departs from the claim).  The same delivery arrives twice,
    the second while the first waits for the database inside
    [isMessageProcessed]: neither finds a marker or a row, both are
    accepted, and [processMessageFull] runs twice.  The second run is
    refused by the unique constraint when it stores its row: an error
    record is written and the user gets the apology after the answer. *)
Theorem duplicate_delivery_runs_twice :
  (λ st, (pipeline_runs st, duplicates (mp_stats st))) <$>
    exec (twice_arrive ++ first_run) boot
  = Some (2, 0)
  ∧ (λ st, (pipeline_runs st, stored st, retries "m1" st, sent st, mp_stats st)) <$>
      exec (twice_arrive ++ first_run ++ second_run) boot
    = Some (2, ["m1"; "ai_m1_0"], Some 0%Z,
            [JStr "hello"; JStr MessageProcessor.apology],
            ProcessorStats 1 0 1).
Proof. split; vm_compute; reflexivity. Qed.

(** C7.  When the database lookup of [isMessageProcessed] fails, the
    function returns [false] and changes nothing; and whatever the lookup
    does, the function returns a boolean and never throws. *)
Theorem isMessageProcessed_fails_open (messageId : string) (dt : Z)
  (rest : list (Z * answer)) (w : world) :
  (∀ a, ∃ b w' rest' tr,
     run_seq (MessageProcessor.isMessageProcessed messageId) ((dt, a) :: rest) w
     = Some (Ok b, w', rest', tr))
  ∧ (messageId ∉ processingMessages (w_heap w) →
     ∀ e, ∃ tr,
       run_seq (MessageProcessor.isMessageProcessed messageId)
         ((dt, Failed e) :: rest) w
       = Some (Ok false, later dt w, rest, tr)
       ∧ calls_in tr = [(Query_SelectMessage messageId, Err e)]).
Proof.
  split.
  - intros a. cbn. destruct (bool_decide _); cbn; [by eexists _, _, _, _|].
    destruct a; cbn; [|by eexists _, _, _, _].
    unfold serve; cbn. destruct (has_message _ _); cbn; by eexists _, _, _, _.
  - intros H e. cbn. rewrite bool_decide_eq_false_2 by done. cbn.
    eexists. split; reflexivity.
Qed.

Lemma isMessageProcessed_fails_open_witness :
  ∃ tr,
    run_seq (MessageProcessor.isMessageProcessed "m1") [(30%Z, Failed down)] empty_world
    = Some (Ok false, later 30 empty_world, [], tr)
    ∧ calls_in tr = [(Query_SelectMessage "m1", Err down)].
Proof.
  apply (proj2 (isMessageProcessed_fails_open "m1" 30 [] empty_world)).
  apply (bool_decide_unpack _). vm_compute. exact I.
Defined.

(* ===================================================================== *)
(** * Error reporter                                                      *)
(* ===================================================================== *)

#[local] Arguments upsert_error : simpl never.





(* ===================================================================== *)
(** * Config cache                                                        *)
(* ===================================================================== *)

(** C4, as the code has it.  For each of the three getters: when the
    loader throws on a miss, the errors counter (and the misses counter)
    goes up by one, the getter calls the loader a second time and hands its
    caller the outcome of that second call, its value or its error; nothing
    is stored for the key either way, so the next call misses again. *)
Theorem loader_failure_falls_back prefix get :
  (prefix, get) ∈ getters →
  ∀ id req e a dt1 dt2 rest w,
  is_external (req id) = true →
  live (prefix +:+ template id) w = false →
  ∃ w' tr,
    run_seq (get id (λ x, call (req x))) ((dt1, Failed e) :: (dt2, a) :: rest) w
      = Some (outcome a, w', rest, tr)
    ∧ cstats (w_heap w') = cincr CacheErrors (cincr Misses (cstats (w_heap w)))
    ∧ cache (w_heap w') = delete (prefix +:+ template id) (cache (w_heap w))
    ∧ calls_in tr = [(req id, Err e); (req id, outcome a)]
    ∧ ∀ dt, live (prefix +:+ template id) (later dt w') = false.
Proof.
  intros Hin id req e a dt1 dt2 rest w Hext Hmiss. getter_cases Hin.
  all: destruct w as [[pm cl st c cs wc] db clk]; unfold live in Hmiss; cbn in Hmiss.
  all: cbn; rewrite (node_cache_get_dead _ _ _ Hmiss); cbn.
  all: repeat (rewrite serve_external by done; cbn).
  all: destruct a; cbn; eexists _, _; (split; [reflexivity|]); cbn.
  all: repeat split; try reflexivity.
  all: intros dt; unfold live; cbn; by rewrite lookup_delete_eq.
Qed.

Lemma loader_failure_falls_back_witness :
  ∃ w' tr,
    run_seq (ConfigCache.getCachedBusiness (JNum 7)
               (λ x, call (BusinessService_getBusinessById x)))
      [(5%Z, Failed down); (5%Z, Failed down)] empty_world
      = Some (Err down, w', [], tr)
    ∧ cstats (w_heap w')
      = cincr CacheErrors (cincr Misses (cstats (w_heap empty_world)))
    ∧ cache (w_heap w')
      = delete ("business:" +:+ template (JNum 7)) (cache (w_heap empty_world))
    ∧ calls_in tr = [(BusinessService_getBusinessById (JNum 7), Err down);
                     (BusinessService_getBusinessById (JNum 7), Err down)]
    ∧ ∀ dt, live ("business:" +:+ template (JNum 7)) (later dt w') = false.
Proof.
  apply (loader_failure_falls_back "business:" ConfigCache.getCachedBusiness).
  - unfold getters. apply elem_of_cons; right; apply elem_of_cons; left; reflexivity.
  - reflexivity.
  - reflexivity.
Defined.

(** C4 as stated fails: the loader throws once and answers on the getter's
    second call; the caller receives the value and no error. *)
Lemma loader_error_not_propagated :
  (λ x, (x.1.1.1, calls_in x.2)) <$>
    run_seq (ConfigCache.getCachedWhatsAppConfig (JStr "769784609553122")
               Route.getWhatsAppConfigByPhoneNumber)
      [(5%Z, Failed down); (5%Z, Served config_row)] empty_world
  = Some (Ok config_row,
          [(BusinessService_getWhatsAppConfigByPhoneNumber (JStr "769784609553122"),
            Err down);
           (BusinessService_getWhatsAppConfigByPhoneNumber (JStr "769784609553122"),
            Ok config_row)]).
Proof. vm_compute. reflexivity. Qed.

(** C5, as the code has it.  For each of the three getters: three calls
    made one after the other, the first on a miss with a loader that
    returns a truthy value, the others within the ttl of the stored entry,
    call the loader once and all return that value; the first call counts a
    miss, the other two a hit each. *)
Theorem three_calls_one_load prefix get :
  (prefix, get) ∈ getters →
  ∀ id req v dt d2 d3 w,
  is_external (req id) = true →
  live (prefix +:+ template id) w = false →
  truthy v = true →
  (0 ≤ d2)%Z → (0 ≤ d3)%Z → (d2 + d3 ≤ stdTTL_ms)%Z →
  ∃ w1 w2 w3 tr1 tr2 tr3,
    run_seq (get id (λ x, call (req x))) [(dt, Served v)] w = Some (Ok v, w1, [], tr1)
    ∧ run_seq (get id (λ x, call (req x))) [] (later d2 w1) = Some (Ok v, w2, [], tr2)
    ∧ run_seq (get id (λ x, call (req x))) [] (later d3 w2) = Some (Ok v, w3, [], tr3)
    ∧ calls_in (tr1 ++ tr2 ++ tr3) = [(req id, Ok v)]
    ∧ cstats (w_heap w1) = cincr Misses (cstats (w_heap w))
    ∧ cstats (w_heap w2) = cincr Hits (cstats (w_heap w1))
    ∧ cstats (w_heap w3) = cincr Hits (cstats (w_heap w2)).
Proof.
  intros Hin id req v dt d2 d3 w Hext Hmiss Hv H2 H3 Httl. getter_cases Hin.
  all: destruct w as [[pm cl st c cs wc] db clk]; unfold live in Hmiss; cbn in Hmiss.
  all: cbn; rewrite (node_cache_get_dead _ _ _ Hmiss); cbn.
  all: repeat (rewrite serve_external by done; cbn).
  all: rewrite Hv; cbn.
  all: eexists _, _, _, _, _, _.
  all: split; [reflexivity|].
  all: cbn; rewrite node_cache_get_fresh by lia; cbn.
  all: rewrite (truthy_defined _ Hv); cbn.
  all: split; [reflexivity|].
  all: cbn; rewrite node_cache_get_fresh by lia; cbn.
  all: rewrite (truthy_defined _ Hv); cbn.
  all: repeat split; reflexivity.
Qed.

Lemma three_calls_one_load_witness :
  ∃ w1 w2 w3 tr1 tr2 tr3,
    run_seq (ConfigCache.getCachedWhatsAppConfig (JStr "769784609553122")
               (λ x, call (BusinessService_getWhatsAppConfigByPhoneNumber x)))
      [(20%Z, Served config_row)] empty_world = Some (Ok config_row, w1, [], tr1)
    ∧ run_seq (ConfigCache.getCachedWhatsAppConfig (JStr "769784609553122")
                 (λ x, call (BusinessService_getWhatsAppConfigByPhoneNumber x)))
        [] (later 1000 w1) = Some (Ok config_row, w2, [], tr2)
    ∧ run_seq (ConfigCache.getCachedWhatsAppConfig (JStr "769784609553122")
                 (λ x, call (BusinessService_getWhatsAppConfigByPhoneNumber x)))
        [] (later 299000 w2) = Some (Ok config_row, w3, [], tr3)
    ∧ calls_in (tr1 ++ tr2 ++ tr3)
      = [(BusinessService_getWhatsAppConfigByPhoneNumber (JStr "769784609553122"),
          Ok config_row)]
    ∧ cstats (w_heap w1) = cincr Misses (cstats (w_heap empty_world))
    ∧ cstats (w_heap w2) = cincr Hits (cstats (w_heap w1))
    ∧ cstats (w_heap w3) = cincr Hits (cstats (w_heap w2)).
Proof.
  apply (three_calls_one_load "whatsapp_config:" ConfigCache.getCachedWhatsAppConfig).
  - unfold getters. apply elem_of_cons; left; reflexivity.
  - reflexivity.
  - reflexivity.
  - reflexivity.
  - lia.
  - lia.
  - unfold stdTTL_ms. lia.
Defined.

(** C5 as stated fails: a loader that succeeds with [null] (no row for the
    number) is called by each of three successive calls, since a falsy
    result is not stored. *)
Lemma absent_value_loaded_three_times :
  (λ x, (x.1.1.1, length (calls_in x.2), cstats (w_heap x.1.1.2))) <$>
    run_seq three_lookups
      [(1%Z, Served JNull); (1%Z, Served JNull); (1%Z, Served JNull)] empty_world
  = Some (Ok [JNull; JNull; JNull], 3, CacheStats 0 3 0).
Proof. vm_compute. reflexivity. Qed.

(* ===================================================================== *)
(** * Background executor                                                 *)
(* ===================================================================== *)

(** The paths of the callback that [processInBackground] schedules: it
    ends without throwing and its last step clears the marker; it starts
    one task, the pipeline, and awaits it; when the pipeline is fulfilled it
    calls no collaborator and counts the message as processed. *)
Lemma background_paths md fn :
  all_paths (MessageProcessor.background md fn) (λ τ r,
    (r = Ok JUndefined
     ∧ count_acts (is_unmark (messageId md)) τ = 1
     ∧ last τ = Some (ADo (processingMessages_delete (messageId md)) tt))
    ∧ (∃ p x, spawned τ = [p] ∧ task_await τ = Some (p, ([p], x)))
    ∧ (fulfilled τ = true →
       calls_in τ = []
       ∧ count_acts (is_incr Processed) τ = 1
       ∧ count_acts (is_incr Errors) τ = 0)).
Proof.
  hide_post. unfold_sources. walk.
  all: subst; split; [|split].
  all: try (unfold count_acts; cbn; rewrite ?String.eqb_refl; cbn; done).
  all: try (unfold count_acts, fulfilled; cbn; done).
  all: eexists _, _; split; reflexivity.
Qed.


Lemma first_await_elem τ ps x : first_await τ = Some (ps, x) → AAwait ps x ∈ τ.
Proof.
  unfold first_await. induction τ as [|a τ IH]; [done|].
  destruct a; cbn; try (intros H; right; by apply IH).
  intros [= -> ->]. by left.
Qed.

Lemma task_await_elem τ p ps x : task_await τ = Some (p, (ps, x)) → AAwait ps x ∈ τ.
Proof.
  induction τ as [|a τ IH]; [done|].
  destruct a; cbn; try (intros H; right; by apply IH).
  destruct (first_await τ) as [[ps' x']|] eqn:E; [|done].
  intros [= -> -> ->]. right. by apply first_await_elem.
Qed.








(** The markers and the counters of a state are those its trace leaves. *)
Lemma marks_after_snoc tr x : marks_after (tr ++ [x]) = marks_step (marks_after tr) x.
Proof. unfold marks_after. by rewrite foldl_app. Qed.

Lemma stats_after_snoc tr x : stats_after (tr ++ [x]) = stats_step (stats_after tr) x.
Proof. unfold stats_after. by rewrite foldl_app. Qed.

Lemma replayed_log self a st :
  match a with
  | ADo _ _ => False
  | _ => True
  end →
  replayed st → replayed (log self a st).
Proof.
  intros Ha [Hm Hs]. split; cbn; rewrite ?marks_after_snoc, ?stats_after_snoc.
  - rewrite Hm. by destruct a.
  - rewrite Hs. by destruct a.
Qed.

Lemma replayed_op self o st :
  replayed st →
  replayed (log self (ADo o (op_sem o (world_of st)).1)
              (set_world (op_sem o (world_of st)).2 st)).
Proof.
  intros [Hm Hs]. split; cbn; rewrite ?marks_after_snoc, ?stats_after_snoc.
  - rewrite <- Hm. destruct o; try done. cbn. by destruct (node_cache_get _ _ _).
  - rewrite <- Hs. destruct o; try done. cbn. by destruct (node_cache_get _ _ _).
Qed.

Lemma replayed_same st st' :
  world_of st' = world_of st → trace st' = trace st → replayed st → replayed st'.
Proof. intros Hw Ht [Hm Hs]. split; by rewrite Hw, Ht. Qed.

Lemma replayed_resume wr st : replayed st → replayed (resume wr st).
Proof.
  intros H. unfold resume. apply replayed_log; [done|]. by apply (replayed_same st).
Qed.

Lemma replayed_settle self r st : replayed st → replayed (settle self r st).
Proof.
  intros H. unfold settle.
  generalize (release (<[self:=r]> (settled st)) (waiting st)). intros [ready still]. cbn.
  assert (Hall : ∀ l s, replayed s → replayed (foldl (λ st wr, resume wr st) s l)).
  { induction l as [|wr l IH]; intros s Hs; cbn; [done|]. by apply IH, replayed_resume. }
  apply Hall. apply (replayed_same (log self (AEnd r) st)); [done|done|]. by apply replayed_log.
Qed.

Lemma run_thread_replayed : ∀ (m : async jsval) self st,
  replayed st → replayed (run_thread self m st).
Proof.
  fix IH 1. intros m self st H. destruct m; cbn [run_thread].
  - by apply replayed_settle.
  - by apply replayed_settle.
  - apply IH. by apply replayed_op.
  - by apply (replayed_same st).
  - apply IH, IH. apply replayed_log; [done|]. apply replayed_log; [done|].
    by apply (replayed_same st).
  - destruct (gather (settled st) ps) as [r|].
    + by apply replayed_resume.
    + by apply (replayed_same st).
  - apply IH. apply replayed_log; [done|]. by apply (replayed_same st).
  - apply IH. apply replayed_log; [done|]. by apply (replayed_same st).
Qed.

Lemma run_new_replayed m st : replayed st → replayed (run_new m st).
Proof.
  intros H. unfold run_new. apply run_thread_replayed.
  apply replayed_log; [done|]. by apply (replayed_same st).
Qed.

Lemma step_replayed ev st st' : replayed st → step ev st = Some st' → replayed st'.
Proof.
  intros H. unfold step.
  destruct ev as [m0|cid a| | |dt|], (micro st) as [|[self c0] rest0]; try done.
  - intros [= <-]. by apply run_new_replayed.
  - destruct (take_call cid (calls st)) as [[c rest]|]; [|done].
    intros [= <-]. destruct (serve_heap_clock (pc_req c) a (world_of st)) as [Hh _].
    apply run_thread_replayed. apply replayed_log; [done|].
    destruct H as [Hm Hs]. split; cbn; by rewrite Hh.
  - destruct (immediates st) as [|cb rest]; [done|].
    intros [= <-]. apply run_new_replayed. by apply (replayed_same st).
  - destruct (next_timer (timers st)) as [[[due cb] rest]|]; [|done].
    destruct (due <=? w_clock (world_of st))%Z; [|done].
    intros [= <-]. apply run_new_replayed. by apply (replayed_same st).
  - destruct ((0 <=? dt)%Z && forallb _ _); [|done]. intros [= <-].
    destruct H as [Hm Hs]. by split.
  - intros [= <-]. apply run_thread_replayed. by apply (replayed_same st).
Qed.

Lemma exec_replayed evs : ∀ st st', replayed st → exec evs st = Some st' → replayed st'.
Proof.
  induction evs as [|ev evs IH]; intros st st' H; cbn; [by intros [= <-]|].
  destruct (step ev st) as [st1|] eqn:Hstep; [|done].
  intros He. eapply IH; [|exact He]. by eapply step_replayed.
Qed.

Lemma replayed_boot : replayed boot.
Proof. by split. Qed.

(** After a delete of [id], the marker is back only if it was added again. *)
Lemma marks_after_deleted id tr1 s tr2 :
  id ∈ marks_after (tr1 ++ (s, ADo (processingMessages_delete id) tt) :: tr2) →
  ∃ s', (s', ADo (processingMessages_add id) tt) ∈ tr2.
Proof.
  unfold marks_after. rewrite foldl_app. cbn [foldl].
  generalize (foldl marks_step ∅ tr1). intros s0.
  assert (Hout : id ∉ marks_step s0 (s, ADo (processingMessages_delete id) ())).
  { unfold marks_step. cbn. intros [_ Hn]%elem_of_difference.
    apply Hn. by apply elem_of_singleton. }
  revert Hout. generalize (marks_step s0 (s, ADo (processingMessages_delete id) ())).
  induction tr2 as [|[s' a] tr2 IH]; intros s1 Hout; cbn [foldl]; [done|].
  intros Hin.
  assert (Hstep : id ∈ marks_step s1 (s', a) → a = ADo (processingMessages_add id) tt).
  { unfold marks_step. cbn. destruct a as [|o b| | | | | |]; try done.
    destruct o; try done.
    - destruct b. intros [?| ->%elem_of_singleton]%elem_of_union; done.
    - by intros [? _]%elem_of_difference. }
  destruct (decide (id ∈ marks_step s1 (s', a))) as [Hyes|Hno].
  - exists s'. rewrite <- (Hstep Hyes). by left.
  - destruct (IH _ Hno Hin) as [s'' Hs'']. exists s''. by right.
Qed.


(** In every run, the markers and the counters are those the trace leaves. *)
Lemma loop_replayed evs st : exec evs boot = Some st → replayed st.
Proof. intros He. by apply (exec_replayed evs boot st replayed_boot). Qed.

(** After the delete that ends a task, the marker is in the set only if a
    later step added it. *)
Lemma loop_deleted_last evs st self id :
  exec evs boot = Some st →
  last (steps self (trace st)) = Some (ADo (processingMessages_delete id) tt) →
  ∃ before since,
    trace st = before ++ (self, ADo (processingMessages_delete id) tt) :: since
    ∧ (marked id st = true →
       ∃ s, (s, ADo (processingMessages_add id) tt) ∈ since).
Proof.
  intros He Hlast. apply last_Some_elem_of, steps_elem, list_elem_of_split in Hlast
    as (before & since & Htr).
  exists before, since. split; [done|]. intros Hm.
  apply bool_decide_eq_true in Hm.
  rewrite (r_marks _ (loop_replayed _ _ He)), Htr in Hm.
  by apply marks_after_deleted in Hm.
Qed.





(** C3.  In every run of the event loop, every callback that
    [processInBackground] scheduled and that has ended, for every pipeline:
    whether the pipeline succeeded or threw, and whether logging and
    notifying succeeded or failed, the callback called
    [processingMessages.delete] for its message id exactly once, as its last
    step, and ended without throwing; and from that step on the id is in
    [processingMessages] only if a later step added it again. *)
Theorem marker_cleared_once evs st job md fn r :
  exec evs boot = Some st →
  (job, ABegin (MessageProcessor.background md fn)) ∈ trace st →
  (job, AEnd r) ∈ trace st →
  r = Ok JUndefined
  ∧ count_acts (is_unmark (messageId md)) (steps job (trace st)) = 1
  ∧ last (steps job (trace st)) = Some (ADo (processingMessages_delete (messageId md)) tt)
  ∧ ∃ before since,
      trace st
      = before ++ (job, ADo (processingMessages_delete (messageId md)) tt) :: since
      ∧ (marked (messageId md) st = true →
         ∃ s, (s, ADo (processingMessages_add (messageId md)) tt) ∈ since).
Proof.
  intros He Hb Hend.
  destruct (loop_follows_paths evs st job _ r _ He Hb Hend (background_paths md fn))
    as ((-> & Hunmark & Hlast) & _).
  split; [done|]. split; [done|]. split; [done|].
  by apply (loop_deleted_last evs).
Qed.

(** The second delivery of the duplicate run (task 9): its pipeline fails
    on the unique constraint, and the marker is cleared all the same. *)
Lemma marker_cleared_once_witness :
  (@Ok jsval JUndefined = Ok JUndefined
   ∧ count_acts (is_unmark "m1")
       (steps 9 (trace (after (twice_arrive ++ first_run ++ second_run)))) = 1
   ∧ last (steps 9 (trace (after (twice_arrive ++ first_run ++ second_run))))
     = Some (ADo (processingMessages_delete "m1") tt)
   ∧ ∃ before since,
       trace (after (twice_arrive ++ first_run ++ second_run))
       = before ++ (9, ADo (processingMessages_delete "m1") tt) :: since
       ∧ (marked "m1" (after (twice_arrive ++ first_run ++ second_run)) = true →
          ∃ s, (s, ADo (processingMessages_add "m1") tt) ∈ since))
  ∧ marked "m1" (after (twice_arrive ++ first_run ++ second_run)) = false.
Proof.
  split.
  - apply (marker_cleared_once (twice_arrive ++ first_run ++ second_run) _ 9
             (msg "m1") Route.processMessageFull).
    + apply ran_spec. vm_compute. reflexivity.
    + apply (list_elem_of_lookup_2 _ 41). vm_compute. reflexivity.
    + apply (list_elem_of_lookup_2 _ 142). vm_compute. reflexivity.
  - vm_compute. reflexivity.
Defined.





(* ===================================================================== *)
(** * Acceptance markers and their timers                                 *)
(* ===================================================================== *)

Lemma settle_timers self r st : timers (settle self r st) = timers st.
Proof.
  unfold settle. generalize (release (<[self:=r]> (settled st)) (waiting st)).
  intros [ready still]. cbn.
  assert (H : ∀ l s, timers (foldl (λ st wr, resume wr st) s l) = timers s).
  { induction l as [|wr l IH]; intros s; cbn; [done|]. by rewrite IH. }
  rewrite H. reflexivity.
Qed.

Lemma settle_marked id self r st : marked id (settle self r st) = marked id st.
Proof.
  unfold settle. generalize (release (<[self:=r]> (settled st)) (waiting st)).
  intros [ready still]. cbn.
  assert (H : ∀ l s, world_of (foldl (λ st wr, resume wr st) s l) = world_of s).
  { induction l as [|wr l IH]; intros s; cbn; [done|]. by rewrite IH. }
  unfold marked. rewrite H. reflexivity.
Qed.

Lemma tidy_expires cb : tidy None cb → tidy (expires cb) cb.
Proof.
  destruct cb as [| |o k| | | | |]; try done.
  destruct o; try done. cbn. intros H b. specialize (H b).
  rewrite decide_True by done. by rewrite decide_False in H.
Qed.

Lemma expires_expire id : expires (expire id) = Some id.
Proof. reflexivity. Qed.

Lemma op_sem_clock o w : w_clock (op_sem o w).2 = w_clock w.
Proof.
  destruct o; try done. cbn. by destruct (node_cache_get _ _ _).
Qed.

Lemma op_sem_marks o w id :
  id ∈ processingMessages (w_heap (op_sem o w).2) ↔
  match o with
  | processingMessages_add id' => id ∈ processingMessages (w_heap w) ∨ id = id'
  | processingMessages_delete id' => id ∈ processingMessages (w_heap w) ∧ id ≠ id'
  | _ => id ∈ processingMessages (w_heap w)
  end.
Proof.
  destruct o; try done; cbn.
  - set_solver.
  - set_solver.
  - by destruct (node_cache_get _ _ _).
Qed.

Lemma next_timer_None l : next_timer l = None → l = [].
Proof.
  destruct l as [|a l]; cbn; [done|].
  destruct (next_timer l) as [[u r]|]; [|done]. by destruct (a.1 <=? u.1)%Z.
Qed.

Lemma next_timer_split l t rest :
  next_timer l = Some (t, rest) → ∀ x, x ∈ l ↔ x = t ∨ x ∈ rest.
Proof.
  revert t rest. induction l as [|a l IH]; intros t rest; cbn; [done|].
  destruct (next_timer l) as [[u r]|] eqn:E.
  - destruct (a.1 <=? u.1)%Z; intros [= <- <-] x; rewrite elem_of_cons.
    + done.
    + rewrite (IH _ _ eq_refl), elem_of_cons. tauto.
  - intros [= <- <-] x. rewrite (next_timer_None _ E). apply elem_of_cons.
Qed.

(** The invariant is kept by every move of the loop. *)
Lemma kept_log owed self a st : kept owed st → kept owed (log self a st).
Proof. intros []. by split. Qed.

Lemma kept_fresh owed n st : kept owed st → kept owed (set_fresh n st).
Proof. intros []. by split. Qed.

Lemma kept_op o owed owed' st :
  owes o owed = Some owed' → kept owed st →
  kept owed' (set_world (op_sem o (world_of st)).2 st).
Proof.
  intros Ho [Hm H2 H3 H4 H5 H6]. split; try done. cbn.
  intros id Hid. rewrite op_sem_clock. apply op_sem_marks in Hid.
  destruct o; cbn in Ho; simplify_eq; try by apply Hm.
  - destruct owed; simplify_eq. destruct Hid as [Hid| ->]; [|by left].
    destruct (Hm id Hid) as [|]; [done|by right].
  - destruct Hid as [Hid Hne]. destruct (Hm id Hid) as [->|]; [|by right].
    left. rewrite decide_False; [done|]. by intros [= ->].
Qed.

Lemma kept_resume owed wr st :
  (∀ x, tidy None (wt_k wr.1 x)) → kept owed st → kept owed (resume wr st).
Proof.
  intros Hk [H1 H2 H3 H4 H5 H6]. split; try done. cbn.
  intros x Hx. apply elem_of_app in Hx as [Hx|Hx]; [by apply H2|].
  apply list_elem_of_singleton in Hx as ->. apply Hk.
Qed.

Lemma release_sub sm ws :
  (∀ wr, wr ∈ (release sm ws).1 → wr.1 ∈ ws)
  ∧ (∀ w, w ∈ (release sm ws).2 → w ∈ ws).
Proof.
  induction ws as [|w ws [IH1 IH2]]; cbn.
  { split; intros ? H; by apply elem_of_nil in H. }
  destruct (gather sm (wt_on w)) as [r|]; cbn; split.
  - intros wr Hwr. apply elem_of_cons in Hwr as [->|Hwr]; [by left|].
    right. by apply IH1.
  - intros w' Hw'. right. by apply IH2.
  - intros wr Hwr. right. by apply IH1.
  - intros w' Hw'. apply elem_of_cons in Hw' as [->|Hw']; [by left|].
    right. by apply IH2.
Qed.

Lemma kept_resume_all owed l : ∀ st,
  (∀ wr x, wr ∈ l → tidy None (wt_k wr.1 x)) → kept owed st →
  kept owed (foldl (λ st wr, resume wr st) st l).
Proof.
  induction l as [|wr l IH]; intros st Hl Hk; cbn; [done|].
  apply IH.
  - intros wr' x Hwr'. apply Hl. by right.
  - apply kept_resume; [|done]. intros x. apply Hl. by left.
Qed.

Lemma kept_settle owed self r st : kept owed st → kept owed (settle self r st).
Proof.
  intros Hk. unfold settle.
  destruct (release_sub (<[self:=r]> (settled st)) (waiting st)) as [Hr1 Hr2].
  apply kept_resume_all.
  - intros wr x Hwr. apply Hr1 in Hwr. by apply (k_waiting _ _ Hk).
  - destruct Hk as [H1 H2 H3 H4 H5 H6]. split; try done. cbn.
    intros w x Hw. apply H3. by apply Hr2.
Qed.

Lemma kept_timeout owed cb ms st :
  tidy None cb →
  match owed with
  | Some id => cb = expire id ∧ ms = 120000%Z
  | None => True
  end →
  kept owed st →
  kept None (set_timers (timers st ++ [((w_clock (world_of st) + ms)%Z, cb)]) st).
Proof.
  intros Hcb Ho [Hm H2 H3 H4 H5 H6]. split; try done; cbn.
  - intros id Hid. right. destruct (Hm id Hid) as [->|(due & Hdue & Hb)].
    + destruct Ho as [-> ->]. exists (w_clock (world_of st) + 120000)%Z.
      split; [|lia]. apply elem_of_app. right. by apply list_elem_of_singleton.
    + exists due. split; [|done]. apply elem_of_app. by left.
  - intros t Ht. apply elem_of_app in Ht as [Ht|Ht]; [by apply H6|].
    by apply list_elem_of_singleton in Ht as ->.
Qed.

Lemma run_thread_kept : ∀ (m : async jsval) self st owed,
  tidy owed m → kept owed st → kept None (run_thread self m st).
Proof.
  fix IH 1. intros m self st owed Ht Hk. destruct m; cbn [run_thread tidy] in *.
  - subst. by apply kept_settle.
  - subst. by apply kept_settle.
  - destruct (owes o owed) as [owed'|] eqn:Ho; [|done].
    apply (IH _ _ _ owed' (Ht _)). apply kept_log. by apply (kept_op _ owed).
  - destruct Ht as [-> Hk']. destruct Hk as [H1 H2 H3 H4 H5 H6]. split; try done. cbn.
    intros c x Hc. apply elem_of_app in Hc as [Hc|Hc]; [by apply H4|].
    apply list_elem_of_singleton in Hc as ->. apply Hk'.
  - destruct Ht as (-> & Hb & Hkp).
    apply (IH _ _ _ None (Hkp _)). apply (IH _ _ _ None Hb).
    by apply kept_log, kept_log, kept_fresh.
  - destruct Ht as [-> Hk']. destruct (gather (settled st) ps) as [r|].
    + by apply kept_resume.
    + destruct Hk as [H1 H2 H3 H4 H5 H6]. split; try done. cbn.
      intros w x Hw. apply elem_of_app in Hw as [Hw|Hw]; [by apply H3|].
      apply list_elem_of_singleton in Hw as ->. apply Hk'.
  - destruct Ht as (Hcb & Ho & Hk').
    apply (IH _ _ _ None Hk'). apply kept_log. by eapply kept_timeout.
  - destruct Ht as (Hcb & Hk').
    apply (IH _ _ _ owed Hk'). apply kept_log.
    destruct Hk as [H1 H2 H3 H4 H5 H6]. split; try done. cbn.
    intros cb Hcb'. apply elem_of_app in Hcb' as [?|Hcb']; [by apply H5|].
    by apply list_elem_of_singleton in Hcb' as ->.
Qed.

Lemma run_new_kept owed m st :
  tidy owed m → kept owed st → kept None (run_new m st).
Proof.
  intros Ht Hk. unfold run_new. apply (run_thread_kept _ _ _ owed Ht).
  by apply kept_log, kept_fresh.
Qed.

Lemma take_call_elem cid l c rest :
  take_call cid l = Some (c, rest) → c ∈ l ∧ ∀ x, x ∈ rest → x ∈ l.
Proof.
  revert rest. induction l as [|a l IH]; intros rest; cbn; [done|].
  destruct (Nat.eqb (pc_id a) cid).
  - intros [= <- <-]. split; [by left|]. intros x Hx. by right.
  - destruct (take_call cid l) as [[y r]|]; [|done].
    intros [= <- <-]. destruct (IH r eq_refl) as [Hy Hr]. split; [by right|].
    intros x Hx. apply elem_of_cons in Hx as [->|Hx]; [by left|]. right. by apply Hr.
Qed.

Lemma kept_boot : kept None boot.
Proof.
  split; cbn; try (intros ? H; by apply elem_of_nil in H);
    try (intros ? ? H; by apply elem_of_nil in H).
  intros id H. by apply elem_of_empty in H.
Qed.

Lemma step_kept ev st st' :
  is_delivery ev → (∀ parsed, tidy None (Route.webhook_post parsed)) →
  kept None st → step ev st = Some st' → kept None st'.
Proof.
  intros Hev Hpost Hk. unfold step.
  destruct ev as [m0|cid a| | |dt|], (micro st) as [|[self c0] rest0] eqn:Hm; try done.
  - intros [= <-]. destruct Hev as [parsed ->]. by eapply run_new_kept.
  - destruct (take_call cid (calls st)) as [[c rest]|] eqn:Hc; [|done].
    intros [= <-]. apply take_call_elem in Hc as [Hc Hrest].
    destruct (serve_heap_clock (pc_req c) a (world_of st)) as [Hh Hcl].
    apply (run_thread_kept _ _ _ None).
    { by apply (k_calls _ _ Hk). }
    apply kept_log. destruct Hk as [H1 H2 H3 H4 H5 H6]. split; try done; cbn.
    + rewrite Hh, Hcl. done.
    + intros c' x Hc'. apply H4. by apply Hrest.
  - destruct (immediates st) as [|cb rest] eqn:Hi; [done|].
    intros [= <-]. apply (run_new_kept None).
    { apply (k_immediates _ _ Hk). rewrite Hi. by left. }
    destruct Hk as [H1 H2 H3 H4 H5 H6]. split; try done; cbn.
    intros cb' Hcb'. apply H5. rewrite Hi. by right.
  - destruct (next_timer (timers st)) as [[[due cb] rest]|] eqn:Hn; [|done].
    destruct (due <=? w_clock (world_of st))%Z; [|done].
    intros [= <-]. pose proof (next_timer_split _ _ _ Hn) as Hsplit.
    apply (run_new_kept (expires cb)).
    { apply tidy_expires. apply (k_timers _ _ Hk (due, cb)). apply Hsplit. by left. }
    destruct Hk as [H1 H2 H3 H4 H5 H6]. split; try done; cbn.
    + intros id Hid. destruct (H1 id Hid) as [|(due' & Hdue' & Hb)]; [done|].
      apply Hsplit in Hdue' as [[= -> <-]|Hdue']; [by left|].
      right. by exists due'.
    + intros t Ht. apply H6. apply Hsplit. by right.
  - destruct (0 <=? dt)%Z eqn:Hdt; [|done]. cbn.
    destruct (forallb _ _) eqn:Hall; [|done]. intros [= <-].
    rewrite forallb_forall in Hall.
    destruct Hk as [H1 H2 H3 H4 H5 H6]. split; try done; cbn.
    intros id Hid. destruct (H1 id Hid) as [|(due & Hdue & Hb)]; [done|].
    right. exists due. split; [done|].
    apply list_elem_of_In, Hall in Hdue. cbn in Hdue. lia.
  - intros [= <-]. apply (run_thread_kept _ _ _ None).
    { apply (k_micro _ _ Hk (self, c0)). rewrite Hm. by left. }
    destruct Hk as [H1 H2 H3 H4 H5 H6]. split; try done; cbn.
    intros x Hx. apply H2. rewrite Hm. by right.
Qed.

Lemma exec_kept evs : ∀ st st',
  Forall is_delivery evs → (∀ parsed, tidy None (Route.webhook_post parsed)) →
  kept None st → exec evs st = Some st' → kept None st'.
Proof.
  induction evs as [|ev evs IH]; intros st st' Hevs Hpost Hk; cbn.
  - by intros [= <-].
  - destruct (step ev st) as [st1|] eqn:E; [|done].
    apply Forall_cons in Hevs as [Hev Hevs].
    apply IH; [done|done|]. by eapply step_kept.
Qed.

(** The functions of the sources are tidy. *)
Lemma tidy_bind {A B} (m : async A) (f : A → async B) : ∀ owed,
  tidy owed m → (∀ a, tidy None (f a)) → tidy owed (bind m f).
Proof.
  revert B f.
  induction m as [A a|A e|A o k IH|A r k IH|A body IHb k IH|A ps k IH|A cb IHc ms k IH|A cb IHc k IH];
    intros B f owed Hm Hf; cbn in *.
  - by subst.
  - done.
  - destruct (owes o owed); [|done]. intros b. by apply IH.
  - destruct Hm as [-> Hk]. split; [done|]. intros x. by apply IH.
  - destruct Hm as (-> & Hb & Hk). split; [done|]. split; [done|]. intros p. by apply IH.
  - destruct Hm as [-> Hk]. split; [done|]. intros x. by apply IH.
  - destruct Hm as (Hcb & Ho & Hk). split; [done|]. split; [done|]. by apply IH.
  - destruct Hm as (Hcb & Hk). split; [done|]. by apply IH.
Qed.

Lemma tidy_try_catch {A} (m : async A) (h : jsval → async A) : ∀ owed,
  tidy owed m → (∀ e, tidy None (h e)) → tidy owed (try_catch m h).
Proof.
  revert h.
  induction m as [A a|A e|A o k IH|A r k IH|A body IHb k IH|A ps k IH|A cb IHc ms k IH|A cb IHc k IH];
    intros h owed Hm Hh; cbn in *.
  - done.
  - by subst.
  - destruct (owes o owed); [|done]. intros b. by apply IH.
  - destruct Hm as [-> Hk]. split; [done|]. intros x. by apply IH.
  - destruct Hm as (-> & Hb & Hk). split; [done|]. split; [done|]. intros p. by apply IH.
  - destruct Hm as [-> Hk]. split; [done|]. intros x. by apply IH.
  - destruct Hm as (Hcb & Ho & Hk). split; [done|]. split; [done|]. by apply IH.
  - destruct Hm as (Hcb & Hk). split; [done|]. by apply IH.
Qed.

Lemma tidy_try_finally {A} (m : async A) (fin : async unit) : ∀ owed,
  tidy owed m → tidy None fin → tidy owed (try_finally m fin).
Proof.
  induction m as [A a|A e|A o k IH|A r k IH|A body IHb k IH|A ps k IH|A cb IHc ms k IH|A cb IHc k IH];
    intros owed Hm Hf; cbn in *.
  - subst. by apply tidy_bind.
  - subst. by apply tidy_bind.
  - destruct (owes o owed); [|done]. intros b. by apply IH.
  - destruct Hm as [-> Hk]. split; [done|]. intros x. by apply IH.
  - destruct Hm as (-> & Hb & Hk). split; [done|]. split; [done|]. intros p. by apply IH.
  - destruct Hm as [-> Hk]. split; [done|]. intros x. by apply IH.
  - destruct Hm as (Hcb & Ho & Hk). split; [done|]. split; [done|]. by apply IH.
  - destruct Hm as (Hcb & Hk). split; [done|]. by apply IH.
Qed.

Lemma tidy_do o :
  match o with
  | processingMessages_add _ => False
  | _ => True
  end → tidy None (do o).
Proof. by destruct o. Qed.

Lemma tidy_of_res {A} (r : res A) : tidy None (of_res r).
Proof. by destruct r. Qed.

Lemma tidy_call r : tidy None (call r).
Proof. split; [done|]. apply tidy_of_res. Qed.

Lemma tidy_start body : tidy None body → tidy None (start body).
Proof. by intros H. Qed.

Lemma tidy_await p : tidy None (await p).
Proof. split; [done|]. by intros [|]. Qed.

Lemma tidy_await_all ps : tidy None (await_all ps).
Proof. split; [done|]. apply tidy_of_res. Qed.

Lemma tidy_await_value v : tidy None (await_value v).
Proof. destruct v; [apply tidy_await|done]. Qed.

Lemma tidy_when c body : tidy None body → tidy None (when c body).
Proof. by destruct c. Qed.

Create HintDb tidy.

(** One step of the check that a function is tidy. *)
Ltac tidy_step :=
  lazymatch goal with
  | |- tidy None (bind _ _) => apply tidy_bind; [|intros ?]
  | |- tidy None (try_catch _ _) => apply tidy_try_catch; [|intros ?]
  | |- tidy None (try_finally _ _) => apply tidy_try_finally
  | |- tidy None (do ?o) => exact (tidy_do o I)
  | |- tidy None (of_res _) => apply tidy_of_res
  | |- tidy None (call _) => apply tidy_call
  | |- tidy None (start _) => apply tidy_start
  | |- tidy None (await_all _) => apply tidy_await_all
  | |- tidy None (await _) => apply tidy_await
  | |- tidy None (await_value _) => apply tidy_await_value
  | |- tidy None (when _ _) => apply tidy_when
  | |- tidy None (Ret _) => reflexivity
  | |- tidy None (Throw _) => reflexivity
  | |- tidy None (throw _) => reflexivity
  | |- tidy None (if ?c then _ else _) => destruct c
  | |- tidy None (match ?c with _ => _ end) => destruct c
  | |- tidy None _ => solve [eauto with tidy]
  end.

Lemma tidy_getCachedWhatsAppConfig id (f : jsval → async jsval) :
  (∀ x, tidy None (f x)) → tidy None (ConfigCache.getCachedWhatsAppConfig id f).
Proof. intros Hf. unfold_sources. repeat tidy_step. Qed.

Lemma tidy_getCachedBusiness id (f : jsval → async jsval) :
  (∀ x, tidy None (f x)) → tidy None (ConfigCache.getCachedBusiness id f).
Proof. intros Hf. unfold_sources. repeat tidy_step. Qed.

Lemma tidy_getCachedBusinessTone id (f : jsval → async jsval) :
  (∀ x, tidy None (f x)) → tidy None (ConfigCache.getCachedBusinessTone id f).
Proof. intros Hf. unfold_sources. repeat tidy_step. Qed.

Lemma tidy_isMessageProcessed id : tidy None (MessageProcessor.isMessageProcessed id).
Proof. unfold_sources. repeat tidy_step. Qed.

Lemma tidy_markAsProcessing id : tidy None (MessageProcessor.markAsProcessing id).
Proof. cbn. done. Qed.

Lemma tidy_processWithLock key fn :
  tidy None fn → tidy None (MessageProcessor.processWithLock key fn).
Proof. intros H. unfold_sources. repeat tidy_step. Qed.

#[local] Hint Resolve tidy_getCachedWhatsAppConfig tidy_getCachedBusiness
  tidy_getCachedBusinessTone tidy_isMessageProcessed tidy_markAsProcessing
  tidy_processWithLock tidy_call : tidy.

Lemma tidy_background md fn :
  (∀ md, tidy None (fn md)) → tidy None (MessageProcessor.background md fn).
Proof.
  intros H. unfold MessageProcessor.background, MessageProcessor.logProcessingError,
    MessageProcessor.sendErrorNotification, MessageProcessor.markAsCompleted.
  repeat tidy_step.
Qed.

Lemma tidy_processInBackground md fn :
  (∀ md, tidy None (fn md)) → tidy None (MessageProcessor.processInBackground md fn).
Proof. intros H. split; [by apply tidy_background|done]. Qed.

Lemma tidy_processMessageFull md : tidy None (Route.processMessageFull md).
Proof.
  unfold Route.processMessageFull, Route.processTextMessage, Route.processMediaMessage,
    Route.getWhatsAppConfigByPhoneNumber, Route.getBusinessById, Route.getBusinessTone.
  repeat tidy_step.
Qed.

#[local] Hint Resolve tidy_processInBackground tidy_processMessageFull : tidy.

Lemma tidy_webhook_post parsed : tidy None (Route.webhook_post parsed).
Proof. unfold Route.webhook_post. repeat tidy_step. Qed.

(** No step of a task removes a timer. *)
Lemma run_thread_timers : ∀ (m : async jsval) self st t,
  t ∈ timers st → t ∈ timers (run_thread self m st).
Proof.
  fix IH 1. intros m self st t Ht. destruct m; cbn [run_thread].
  - by rewrite settle_timers.
  - by rewrite settle_timers.
  - by apply IH.
  - done.
  - apply IH. by apply IH.
  - by destruct (gather (settled st) ps).
  - apply IH. cbn. apply elem_of_app. by left.
  - by apply IH.
Qed.

(** A function that sets a marker and starts no timer is not tidy. *)
Example untimed_marker_not_tidy id :
  ¬ tidy None (do (processingMessages_add id);; Ret JUndefined).
Proof. cbn. intros H. by specialize (H tt). Qed.


(** C10.  [markAsProcessing] sets the marker and starts a timer due 120
    seconds later whose callback deletes the marker; [markAsCompleted]
    leaves every pending timer in place, and so does every move of the loop
    but the firing of that timer when it is due; the callback deletes the
    marker whatever else is going on.  In every run of webhook deliveries,
    whenever a marker is present a timer that deletes it is pending and due
    within 120 seconds: no marker outlives 120 seconds.  And in the run
    below a delivery that was dropped at time 0 and accepted again at 119 s
    loses its marker at 120 s, when the first acceptance's timer fires,
    while its pipeline (task 10) is still in flight and its own timer (due
    at 239 s) is still pending. *)
Theorem marker_expiry :
  (∀ self id st,
     let st' := run_thread self
                  (MessageProcessor.markAsProcessing id;; Ret JUndefined) st in
     marked id st' = true
     ∧ timers st' = timers st ++ [((w_clock (world_of st) + 120000)%Z, expire id)])
  ∧ (∀ self id st,
       timers (run_thread self
                 (MessageProcessor.markAsCompleted id;; Ret JUndefined) st)
       = timers st)
  ∧ (∀ ev st st' t,
       step ev st = Some st' → t ∈ timers st →
       t ∈ timers st' ∨ (ev = Timer ∧ (t.1 ≤ w_clock (world_of st))%Z))
  ∧ (∀ id st, marked id (run_new (expire id) st) = false)
  ∧ (∀ evs st id,
       Forall is_delivery evs → exec evs boot = Some st → marked id st = true →
       ∃ due, (due, expire id) ∈ timers st
              ∧ (w_clock (world_of st) ≤ due ≤ w_clock (world_of st) + 120000)%Z)
  ∧ (λ st, (marked "m1" st, w_clock (world_of st), due_times st, in_flight 10 st)) <$>
      exec dropped_then_redelivered boot
    = Some (true, 119000%Z, [120000%Z; 239000%Z], true)
  ∧ (λ st, (marked "m1" st, w_clock (world_of st), due_times st, in_flight 10 st)) <$>
      exec (dropped_then_redelivered ++ stale_timer_fires) boot
    = Some (false, 120000%Z, [239000%Z], true).
Proof.
  split; [|split; [|split; [|split; [|split; [|split]]]]].
  - intros self id st. cbn. rewrite settle_marked, settle_timers. cbn. split; [|done].
    unfold marked. cbn. apply bool_decide_eq_true_2.
    apply elem_of_union. right. by apply elem_of_singleton.
  - intros self id st. cbn. by rewrite settle_timers.
  - intros ev st st' t. unfold step.
    destruct ev as [m0|cid a| | |dt|], (micro st) as [|[self c0] rest0]; try done.
    + intros [= <-] Ht. left. by apply run_thread_timers.
    + destruct (take_call cid (calls st)) as [[c rest]|]; [|done].
      intros [= <-] Ht. left. by apply run_thread_timers.
    + destruct (immediates st) as [|cb rest]; [done|].
      intros [= <-] Ht. left. by apply run_thread_timers.
    + destruct (next_timer (timers st)) as [[[due cb] rest]|] eqn:Hn; [|done].
      destruct (Z.leb_spec due (w_clock (world_of st))); [|done].
      intros [= <-] Ht. apply (next_timer_split _ _ _ Hn) in Ht as [->|Ht].
      * by right.
      * left. by apply run_thread_timers.
    + destruct (_ && _); [|done]. intros [= <-] Ht. by left.
    + intros [= <-] Ht. left. by apply run_thread_timers.
  - intros id st. unfold run_new, expire. cbn. rewrite settle_marked.
    unfold marked. cbn. apply bool_decide_eq_false_2.
    rewrite elem_of_difference, elem_of_singleton. tauto.
  - intros evs st id Hevs He Hid.
    pose proof (exec_kept evs boot st Hevs tidy_webhook_post kept_boot He) as Hk.
    apply bool_decide_eq_true_1 in Hid.
    by destruct (k_marks _ _ Hk id Hid) as [|].
  - vm_compute. reflexivity.
  - vm_compute. reflexivity.
Qed.

(* ===================================================================== *)
(** * Further properties                                                  *)
(* ===================================================================== *)

(** The paths of the webhook handler. *)
Lemma webhook_paths parsed :
  all_paths (Route.webhook_post parsed) (λ τ r,
    r = Ok JUndefined
    ∧ count_acts is_ack τ = 1
    ∧ deferred_before_ack τ = 0).
Proof.
  hide_post.
  unfold Route.webhook_post, MessageProcessor.isMessageProcessed,
    MessageProcessor.markAsProcessing, MessageProcessor.processInBackground.
  destruct parsed as [md|].
  all: repeat (walk; crank;
               try match goal with
                   | |- context [prop ?e ?n] => destruct (prop e n)
                   | |- context [gt_zero ?v] => destruct (gt_zero v)
                   end).
  all: subst; done.
Qed.

(** X1.  In every run of the event loop, every webhook handler that has
    ended, whatever the delivery (a message, a duplicate, or nothing that
    parses) and whatever the database answered to the duplicate check, sent
    the 200 response exactly once, did not throw, and gave no callback to
    [setImmediate] before the response. *)
Theorem webhook_acknowledges evs st self parsed r :
  exec evs boot = Some st →
  (self, ABegin (Route.webhook_post parsed)) ∈ trace st →
  (self, AEnd r) ∈ trace st →
  r = Ok JUndefined
  ∧ count_acts is_ack (steps self (trace st)) = 1
  ∧ deferred_before_ack (steps self (trace st)) = 0.
Proof.
  intros He Hb Hend.
  apply (loop_follows_paths evs st self _ r _ He Hb Hend (webhook_paths parsed)).
Qed.

(** The handler of the delivery without configuration (task 0). *)
Lemma webhook_acknowledges_witness :
  @Ok jsval JUndefined = Ok JUndefined
  ∧ count_acts is_ack (steps 0 (trace (after unconfigured))) = 1
  ∧ deferred_before_ack (steps 0 (trace (after unconfigured))) = 0.
Proof.
  apply (webhook_acknowledges unconfigured _ 0 (Some (msg "m1"))).
  - apply ran_spec. vm_compute. reflexivity.
  - apply (list_elem_of_lookup_2 _ 0). vm_compute. reflexivity.
  - apply (list_elem_of_lookup_2 _ 12). vm_compute. reflexivity.
Defined.

(** X2.  A getter that is called right after the invalidation of its key,
    with no [await] between the two, reports no hit and calls the loader,
    whatever the store held and whatever the loader answers:
    [getCachedBusiness] and [getCachedBusinessTone] after
    [invalidateBusinessCache(id)], [getCachedWhatsAppConfig] after
    [invalidateWhatsAppConfig(id)].  The invalidation does not reach a load
    in flight: in the run [stale_after_invalidate] that load stores its
    value after the invalidation, and the next call is a hit on it. *)
Theorem invalidate_forces_reload (id : jsval) :
  reloads (ConfigCache.invalidateBusinessCache id)
    (ConfigCache.getCachedBusiness id Route.getBusinessById)
    (BusinessService_getBusinessById id)
  ∧ reloads (ConfigCache.invalidateBusinessCache id)
      (ConfigCache.getCachedBusinessTone id Route.getBusinessTone)
      (BusinessService_getBusinessTone id)
  ∧ reloads (ConfigCache.invalidateWhatsAppConfig id)
      (ConfigCache.getCachedWhatsAppConfig id Route.getWhatsAppConfigByPhoneNumber)
      (BusinessService_getWhatsAppConfigByPhoneNumber id)
  ∧ (λ st, (calls_in (trace st).*2, settled st !! 3, hits (cstats (w_heap (world_of st))))) <$>
      exec stale_after_invalidate boot
    = Some ([(BusinessService_getBusinessById (JNum 7), Ok business_row)],
            Some (Ok business_row), 1).
Proof.
  split; [|split; [|split]]; [| | |vm_compute; reflexivity].
  all: intros a a2 dt dt2 rest [[pm cl st c cs wc] db clk]; cbn.
  all: rewrite node_cache_get_dead; cbn.
  all: try (rewrite !lookup_delete; repeat case_decide; done).
  all: rewrite serve_external by done; cbn.
  all: destruct a as [v|e]; cbn.
  all: try (destruct (truthy v); cbn; by eexists _, _, _, _).
  all: rewrite serve_external by done; cbn.
  all: destruct a2 as [v2|e2]; cbn.
  all: by eexists _, _, _, _.
Qed.

(** X3.  [sendErrorNotification] sends the apology to the sender once and
    never throws, whether the message is delivered or not; it changes no
    state. *)
Theorem sendErrorNotification_swallows (md : message_data) (dt : Z) (a : answer)
  (rest : list (Z * answer)) (w : world) :
  ∃ tr,
    run_seq (MessageProcessor.sendErrorNotification md) ((dt, a) :: rest) w
    = Some (Ok tt, later dt w, rest, tr)
    ∧ calls_in tr
      = [(WhatsAppService_sendMessage (from md) (JStr MessageProcessor.apology),
          outcome a)].
Proof.
  cbn. rewrite serve_external by done. destruct a; cbn; by eexists.
Qed.

(* ===================================================================== *)
(** * Acceptance, failure reports and replies                             *)
(* ===================================================================== *)

(** Follow every path, also through the properties of values that are not
    variables. *)
Ltac walk_on :=
  repeat (walk; crank;
          try match goal with
              | |- context [prop ?e ?n] => destruct (prop e n)
              | |- context [gt_zero ?v] => destruct (gt_zero v)
              end).

(** The paths of [processWithLock]. *)
Lemma processWithLock_paths key fn :
  all_paths (MessageProcessor.processWithLock key fn) (λ τ r,
    ∃ p x,
      spawns τ = [(p, fn)]
      ∧ task_await τ = Some (p, ([p], x))
      ∧ r = match x with
            | Ok vs => Ok (hd JUndefined vs)
            | Err e => Err e
            end
      ∧ count_acts (is_incr Processed) τ = (if x is Ok _ then 1 else 0)
      ∧ count_acts (is_incr Errors) τ = (if x is Ok _ then 0 else 1)
      ∧ last τ = Some (ADo (conversationLocks_delete key) tt)).
Proof.
  hide_post. unfold_sources. walk.
  all: subst; eexists _, _; repeat split; reflexivity.
Qed.

(** The paths of the webhook handler for a delivery that carries a message. *)
Lemma acceptance_paths md :
  all_paths (Route.webhook_post (Some md)) (λ τ r,
    (count_acts (is_incr Duplicates) τ = 1
     ∧ marks τ = []
     ∧ timeouts τ = []
     ∧ deferred τ = [])
    ∨ (count_acts (is_incr Duplicates) τ = 0
       ∧ marks τ = [messageId md]
       ∧ timeouts τ = [(expire (messageId md), 120000%Z)]
       ∧ deferred τ = [MessageProcessor.background md Route.processMessageFull])).
Proof.
  hide_post.
  unfold Route.webhook_post, MessageProcessor.isMessageProcessed,
    MessageProcessor.markAsProcessing, MessageProcessor.processInBackground.
  walk_on.
  all: subst; cbn; first [by left | by right].
Qed.

(** The paths of the background callback whose pipeline throws. *)
Lemma failure_paths md fn :
  all_paths (MessageProcessor.background md fn) (λ τ r,
    ∀ e, task_outcome τ = Some (Err e) →
      (∃ p, spawns τ = [(p, fn md)] ∧ task_await τ = Some (p, ([p], Err e)))
      ∧ map fst (calls_in τ) = error_report md e
      ∧ count_acts (is_incr Errors) τ = 1
      ∧ count_acts (is_incr Processed) τ = 0).
Proof.
  hide_post. unfold_sources. walk.
  all: subst; intros err He; cbn in He; simplify_eq.
  all: split; [by eexists|done].
Qed.

Lemma spawns_inv q body τ : (q, body) ∈ spawns τ → ASpawn q body ∈ τ.
Proof.
  intros H. apply list_elem_of_omap in H as (a & Ha & H).
  destruct a; try done. by simplify_eq.
Qed.

Lemma lift_inv r x :
  lift r = x →
  r = match x with
      | Ok vs => Ok (hd JUndefined vs)
      | Err e => Err e
      end.
Proof. intros <-. by destruct r. Qed.

(** The paths of the pipeline, with the calls it makes itself. *)
Lemma reply_paths md :
  all_paths (Route.processMessageFull md) (λ τ r,
    (existsb is_reply (calls_in τ) = true → stored_then_replied md (calls_in τ))
    ∧ (∀ v, r = Ok v → dropped τ = true ∨ existsb is_reply (calls_in τ) = true)).
Proof.
  hide_post. unfold Route.processMessageFull, Route.processTextMessage,
    Route.processMediaMessage.
  crank. intros z []. crank. intros p1 p2 [first|e]; crank.
  2: { intros []. subst. cbn. done. }
  destruct (truthy (nth 0 first JUndefined)) eqn:Hcfg; crank.
  2: { intros []. subst. unfold dropped. cbn. rewrite Hcfg. split; [done|]. by left. }
  destruct (prop_truthy _ "business_id" Hcfg) as [bid ->]. crank. intros [].
  destruct (truthy (nth 1 first JUndefined)); crank.
  all: intros p3 p4 [second|e]; crank.
  all: try (intros []; subst; unfold dropped; cbn; rewrite Hcfg; cbn; done).
  all: destruct (truthy (nth 0 second JUndefined)) eqn:Hbiz; crank.
  all: try (intros []; subst; unfold dropped; cbn; rewrite Hcfg, Hbiz; cbn;
            split; [done|]; by left).
  all: destruct (prop_truthy _ "status" Hbiz) as [status Hst]; rewrite Hst; crank.
  all: destruct (Route.is_inactive status) eqn:Hin; crank.
  all: try (destruct (prop_truthy _ "name" Hbiz) as [name ->]; crank;
            intros []; subst; unfold dropped, inactive; cbn;
            rewrite Hcfg, Hbiz, Hst, Hin; cbn; split; [done|]; intros; by left).
  all: repeat (walk; crank;
               try match goal with
                   | |- context [Route.is_media ?t] => destruct (Route.is_media t)
                   | |- context [prop ?e ?n] => destruct (prop e n)
                   end).
  all: subst; (split; [|intros v' Hv; try discriminate; by right]).
  all: cbn; try discriminate.
  all: intros _; do 11 eexists; (split; [reflexivity|]); cbn; done.
Qed.

(** X4.  When the database answers the lookup, [isMessageProcessed] returns
    [true] exactly when the id is in [processingMessages] or a row with this
    message id is stored; it counts a duplicate exactly then, leaves the
    markers and the database as they were, and does not query the database
    when the marker is present. *)
Theorem isMessageProcessed_decides (id : string) (dt : Z) (v : jsval)
  (rest : list (Z * answer)) (w : world) :
  ∃ w' rest' tr,
    run_seq (MessageProcessor.isMessageProcessed id) ((dt, Served v) :: rest) w
    = Some (Ok (bool_decide (id ∈ processingMessages (w_heap w))
                || has_message id (messages (w_db w))), w', rest', tr)
    ∧ duplicates (stats (w_heap w'))
      = duplicates (stats (w_heap w))
        + (if bool_decide (id ∈ processingMessages (w_heap w))
              || has_message id (messages (w_db w)) then 1 else 0)
    ∧ processingMessages (w_heap w') = processingMessages (w_heap w)
    ∧ w_db w' = w_db w
    ∧ calls_in tr
      = (if bool_decide (id ∈ processingMessages (w_heap w)) then []
         else [(Query_SelectMessage id, Ok (select_message id (w_db w)))]).
Proof.
  destruct w as [[pm cl [np nd ne] c cs wc] db clk].
  cbn. destruct (bool_decide (id ∈ pm)); cbn.
  - eexists _, _, _. repeat split; cbn; lia.
  - unfold serve, select_message; cbn.
    destruct (has_message id (messages db)); cbn; eexists _, _, _; repeat split; cbn; lia.
Qed.

(** X5.  In every run of the event loop, a call of [processWithLock] that
    has ended started exactly one task, the processing function, and ended
    as that task ended: with its value or with its error.  It counted the
    message as processed in the first case and as an error in the second,
    and its last step deleted the lock of its conversation key. *)
Theorem processWithLock_passes_outcome evs st self key fn r :
  exec evs boot = Some st →
  (self, ABegin (MessageProcessor.processWithLock key fn)) ∈ trace st →
  (self, AEnd r) ∈ trace st →
  ∃ p,
    spawns (steps self (trace st)) = [(p, fn)]
    ∧ (p, ABegin fn) ∈ trace st
    ∧ (p, AEnd r) ∈ trace st
    ∧ count_acts (is_incr Processed) (steps self (trace st)) = (if r is Ok _ then 1 else 0)
    ∧ count_acts (is_incr Errors) (steps self (trace st)) = (if r is Ok _ then 0 else 1)
    ∧ last (steps self (trace st)) = Some (ADo (conversationLocks_delete key) tt).
Proof.
  intros He Hb Hend.
  destruct (loop_follows_paths evs st self _ r _ He Hb Hend (processWithLock_paths key fn))
    as (p & x & Hsp & Hawait & Hr & Hproc & Herr & Hlast).
  assert (Hs : ASpawn p fn ∈ steps self (trace st)).
  { apply spawns_inv. rewrite Hsp. by apply list_elem_of_singleton. }
  pose proof (task_await_elem _ _ _ _ Hawait) as Hw.
  apply (loop_await_ends _ _ _ _ _ He), linked_one in Hw as (rp & Hpe & Hrp).
  symmetry in Hrp. apply lift_inv in Hrp. rewrite <- Hr in Hrp. subst rp.
  exists p. split; [done|]. split; [by apply (loop_spawn_begins _ _ _ _ _ He Hs)|].
  split; [done|]. by destruct x, r.
Qed.

(** A processing function that throws. *)
Lemma processWithLock_passes_outcome_witness :
  ∃ p,
    spawns (steps 0 (trace (after locked_failure))) = [(p, Throw (JStr "boom"))]
    ∧ (p, ABegin (Throw (JStr "boom"))) ∈ trace (after locked_failure)
    ∧ (p, AEnd (Err (JStr "boom"))) ∈ trace (after locked_failure)
    ∧ count_acts (is_incr Processed) (steps 0 (trace (after locked_failure))) = 0
    ∧ count_acts (is_incr Errors) (steps 0 (trace (after locked_failure))) = 1
    ∧ last (steps 0 (trace (after locked_failure)))
      = Some (ADo (conversationLocks_delete "k") tt).
Proof.
  apply (processWithLock_passes_outcome locked_failure _ 0 "k" (Throw (JStr "boom"))
           (Err (JStr "boom"))).
  - apply ran_spec. vm_compute. reflexivity.
  - apply (list_elem_of_lookup_2 _ 0). vm_compute. reflexivity.
  - apply (list_elem_of_lookup_2 _ 9). vm_compute. reflexivity.
Defined.

(** X6.  In every run of the event loop, a webhook handler that has ended
    for a delivery with a message either refused it, counting one duplicate,
    adding no marker, setting no timer and deferring nothing; or accepted
    it, counting no duplicate, adding the marker of its message id once,
    setting one timer of 120000 ms that deletes this marker, and giving
    [setImmediate] one callback, the background callback of this message
    with [processMessageFull]. *)
Theorem acceptance_all_or_nothing evs st self md r :
  exec evs boot = Some st →
  (self, ABegin (Route.webhook_post (Some md))) ∈ trace st →
  (self, AEnd r) ∈ trace st →
  (count_acts (is_incr Duplicates) (steps self (trace st)) = 1
   ∧ marks (steps self (trace st)) = []
   ∧ timeouts (steps self (trace st)) = []
   ∧ deferred (steps self (trace st)) = [])
  ∨ (count_acts (is_incr Duplicates) (steps self (trace st)) = 0
     ∧ marks (steps self (trace st)) = [messageId md]
     ∧ timeouts (steps self (trace st)) = [(expire (messageId md), 120000%Z)]
     ∧ deferred (steps self (trace st))
       = [MessageProcessor.background md Route.processMessageFull]).
Proof.
  intros He Hb Hend.
  apply (loop_follows_paths evs st self _ r _ He Hb Hend (acceptance_paths md)).
Qed.

(** The handler of the delivery without configuration (task 0), which is
    accepted. *)
Lemma acceptance_all_or_nothing_witness :
  (count_acts (is_incr Duplicates) (steps 0 (trace (after unconfigured))) = 1
   ∧ marks (steps 0 (trace (after unconfigured))) = []
   ∧ timeouts (steps 0 (trace (after unconfigured))) = []
   ∧ deferred (steps 0 (trace (after unconfigured))) = [])
  ∨ (count_acts (is_incr Duplicates) (steps 0 (trace (after unconfigured))) = 0
     ∧ marks (steps 0 (trace (after unconfigured))) = ["m1"]
     ∧ timeouts (steps 0 (trace (after unconfigured))) = [(expire "m1", 120000%Z)]
     ∧ deferred (steps 0 (trace (after unconfigured)))
       = [MessageProcessor.background (msg "m1") Route.processMessageFull]).
Proof.
  apply (acceptance_all_or_nothing unconfigured _ 0 (msg "m1") (Ok JUndefined)).
  - apply ran_spec. vm_compute. reflexivity.
  - apply (list_elem_of_lookup_2 _ 0). vm_compute. reflexivity.
  - apply (list_elem_of_lookup_2 _ 12). vm_compute. reflexivity.
Defined.

(** X7.  In every run of the event loop, for every background callback
    that has ended and whose [await] of the pipeline threw [e]: the task it
    started for the pipeline ended with [e]; the callback asked for the
    error record (unless [e] is [undefined] or [null], whose properties
    cannot be read) and then for the apology to the sender, and for nothing
    else; it counted one error and no processed message. *)
Theorem failed_pipeline_is_reported evs st job md fn r e :
  exec evs boot = Some st →
  (job, ABegin (MessageProcessor.background md fn)) ∈ trace st →
  (job, AEnd r) ∈ trace st →
  task_outcome (steps job (trace st)) = Some (Err e) →
  (∃ p, ASpawn p (fn md) ∈ steps job (trace st) ∧ (p, AEnd (Err e)) ∈ trace st)
  ∧ map fst (calls_in (steps job (trace st))) = error_report md e
  ∧ count_acts (is_incr Errors) (steps job (trace st)) = 1
  ∧ count_acts (is_incr Processed) (steps job (trace st)) = 0.
Proof.
  intros He Hb Hend Hout.
  destruct (loop_follows_paths evs st job _ r _ He Hb Hend (failure_paths md fn) e Hout)
    as ((p & Hsp & Hawait) & Hrest).
  split; [|done].
  pose proof (task_await_elem _ _ _ _ Hawait) as Hw.
  apply (loop_await_ends _ _ _ _ _ He), linked_one in Hw as (rp & Hpe & Hrp).
  destruct rp as [v|e']; cbn in Hrp; simplify_eq.
  exists p. split; [|done].
  apply spawns_inv. rewrite Hsp. by apply list_elem_of_singleton.
Qed.

(** The second delivery of the duplicate run (task 9), refused by the
    unique constraint. *)
Lemma failed_pipeline_is_reported_witness :
  (∃ p, ASpawn p (Route.processMessageFull (msg "m1"))
          ∈ steps 9 (trace (after (twice_arrive ++ first_run ++ second_run)))
        ∧ (p, AEnd (Err (mkError "duplicate key value violates unique constraint")))
          ∈ trace (after (twice_arrive ++ first_run ++ second_run)))
  ∧ map fst (calls_in (steps 9 (trace (after (twice_arrive ++ first_run ++ second_run)))))
    = error_report (msg "m1") (mkError "duplicate key value violates unique constraint")
  ∧ count_acts (is_incr Errors)
      (steps 9 (trace (after (twice_arrive ++ first_run ++ second_run)))) = 1
  ∧ count_acts (is_incr Processed)
      (steps 9 (trace (after (twice_arrive ++ first_run ++ second_run)))) = 0.
Proof.
  apply (failed_pipeline_is_reported (twice_arrive ++ first_run ++ second_run) _ 9
           (msg "m1") Route.processMessageFull (Ok JUndefined)).
  - apply ran_spec. vm_compute. reflexivity.
  - apply (list_elem_of_lookup_2 _ 41). vm_compute. reflexivity.
  - apply (list_elem_of_lookup_2 _ 142). vm_compute. reflexivity.
  - vm_compute. reflexivity.
Defined.

(** X8.  In every run of the event loop, for every pipeline that has ended:
    if it asked for a message to the user at all, then its calls were, in
    this order and each but the last fulfilled, storing the incoming row,
    asking the responder, storing the reply, clearing the reaction, and
    sending that same reply to the sender; and a pipeline that ended without
    throwing was dropped or asked for the reply. *)
Theorem reply_follows_storage evs st p md r :
  exec evs boot = Some st →
  (p, ABegin (Route.processMessageFull md)) ∈ trace st →
  (p, AEnd r) ∈ trace st →
  (existsb is_reply (calls_in (steps p (trace st))) = true →
   stored_then_replied md (calls_in (steps p (trace st))))
  ∧ (∀ v, r = Ok v →
       dropped (steps p (trace st)) = true
       ∨ existsb is_reply (calls_in (steps p (trace st))) = true).
Proof.
  intros He Hb Hend.
  apply (loop_follows_paths evs st p _ r _ He Hb Hend (reply_paths md)).
Qed.

(** The pipeline of the first delivery of the duplicate run (task 5). *)
Lemma reply_follows_storage_witness :
  (existsb is_reply
     (calls_in (steps 5 (trace (after (twice_arrive ++ first_run ++ second_run))))) = true →
   stored_then_replied (msg "m1")
     (calls_in (steps 5 (trace (after (twice_arrive ++ first_run ++ second_run))))))
  ∧ (∀ v, @Ok jsval JUndefined = Ok v →
       dropped (steps 5 (trace (after (twice_arrive ++ first_run ++ second_run)))) = true
       ∨ existsb is_reply
           (calls_in (steps 5 (trace (after (twice_arrive ++ first_run ++ second_run)))))
         = true).
Proof.
  apply (reply_follows_storage (twice_arrive ++ first_run ++ second_run) _ 5 (msg "m1")).
  - apply ran_spec. vm_compute. reflexivity.
  - apply (list_elem_of_lookup_2 _ 29). vm_compute. reflexivity.
  - apply (list_elem_of_lookup_2 _ 86). vm_compute. reflexivity.
Defined.

(* ===================================================================== *)
(** * Webhook verification and text replies                               *)
(* ===================================================================== *)

Module ResponderFacts.
Import Responder.

(** Unfold a run to its steps. *)
Ltac run_flow :=
  unfold webhook_get, processTextMessage, faq_reply, handled_reply,
    Responder.bind, Responder.try_catch, ask, Responder.of_res,
    Responder.console_log, Responder.console_error, Responder.res_send,
    Responder.Ret, Responder.Throw.

Lemma strict_eq_eq a b : strict_eq a b = true → a = b.
Proof.
  destruct a, b; try done; cbn.
  - by intros ->%Bool.eqb_prop.
  - by intros ->%Z.eqb_eq.
  - by intros ->%String.eqb_eq.
Qed.

Lemma find_token_found token items c :
  truthy token = true →
  find_token token items = Ok c → truthy c = true →
  ∃ fields, c = JObj fields ∧ c ∈ items ∧ assoc "verify_token" fields = token.
Proof.
  intros Htok. induction items as [|x items IH]; cbn; [by intros [= <-]|].
  destruct (prop x "verify_token") as [v|e] eqn:Hp; [|done].
  destruct (strict_eq v token) eqn:Hs.
  - intros [= <-] Ht. apply strict_eq_eq in Hs. subst.
    destruct x as [| | | | |fields|xs]; cbn in *; simplify_eq; try done.
    exists fields. split; [done|]. split; [by left|done].
  - intros Hf Ht. destruct (IH Hf Ht) as (fields & -> & Hin & Ha).
    exists fields. split; [done|]. split; [by right|done].
Qed.

(** X9.  The verification endpoint answers every request exactly once and
    never throws: with status 200 and the challenge, or with status 403 and
    "Forbidden"; and when the mode or the token is missing it does not ask
    for the configurations. *)
Theorem verification_answers_once mode token challenge ans :
  ∃ status body,
    (webhook_get mode token challenge ans).2 = Ok tt
    ∧ sent (webhook_get mode token challenge ans).1 = [(status, body)]
    ∧ ((status = 200%Z ∧ body = challenge)
       ∨ (status = 403%Z ∧ body = JStr "Forbidden"))
    ∧ (truthy mode && truthy token = false →
       asked (webhook_get mode token challenge ans).1 = []).
Proof.
  run_flow. destruct (truthy mode), (truthy token); cbn.
  2-4: by eexists _, _; split; [|split; [|split; [right|]]].
  destruct (ans BusinessService_getAllWhatsAppConfigs) as [configs|e]; cbn.
  2: by eexists _, _; split; [|split; [|split; [right|]]].
  destruct (find_config token configs) as [c|e]; cbn.
  2: by eexists _, _; split; [|split; [|split; [right|]]].
  destruct (strict_eq mode (JStr "subscribe") && truthy c); cbn.
  - by eexists _, _; split; [|split; [|split; [left|]]].
  - by eexists _, _; split; [|split; [|split; [right|]]].
Qed.

(** X10.  The verification endpoint sends status 200 only with the
    challenge as body, only for the mode "subscribe" and a token that is not
    empty, and only when [getAllWhatsAppConfigs] returned an array with a
    configuration whose [verify_token] is the token. *)
Theorem verification_sound mode token challenge ans body :
  (200%Z, body) ∈ sent (webhook_get mode token challenge ans).1 →
  body = challenge
  ∧ mode = JStr "subscribe"
  ∧ truthy token = true
  ∧ ∃ items fields,
      ans BusinessService_getAllWhatsAppConfigs = Ok (JArr items)
      ∧ JObj fields ∈ items
      ∧ assoc "verify_token" fields = token.
Proof.
  run_flow. destruct (truthy mode) eqn:Hm, (truthy token) eqn:Ht; cbn.
  2-4: by intros [[=]|[]%elem_of_nil]%elem_of_cons.
  destruct (ans BusinessService_getAllWhatsAppConfigs) as [configs|e]; cbn.
  2: by intros [[=]|[]%elem_of_nil]%elem_of_cons.
  destruct (find_config token configs) as [c|e] eqn:Hf; cbn.
  2: by intros [[=]|[]%elem_of_nil]%elem_of_cons.
  destruct (strict_eq mode (JStr "subscribe")) eqn:Hs; cbn.
  2: by intros [[=]|[]%elem_of_nil]%elem_of_cons.
  destruct (truthy c) eqn:Hc; cbn.
  2: by intros [[=]|[]%elem_of_nil]%elem_of_cons.
  intros [[= ->]|[]%elem_of_nil]%elem_of_cons.
  apply strict_eq_eq in Hs. split; [done|]. split; [done|]. split; [done|].
  destruct configs as [| | | | | |items]; try done. cbn in Hf.
  destruct (find_token_found _ _ _ Ht Hf Hc) as (fields & -> & Hin & Ha).
  by exists items, fields.
Qed.

(** X11.  For the mode "subscribe" and a token that is not empty, when
    [getAllWhatsAppConfigs] returns an array without [undefined] or [null]
    that has a configuration with this [verify_token], the endpoint answers
    200 with the challenge, once. *)
Theorem verification_complete (t : string) challenge ans items fields :
  t ≠ EmptyString →
  ans BusinessService_getAllWhatsAppConfigs = Ok (JArr items) →
  Forall (λ c, c ≠ JUndefined ∧ c ≠ JNull) items →
  JObj fields ∈ items →
  assoc "verify_token" fields = JStr t →
  sent (webhook_get (JStr "subscribe") (JStr t) challenge ans).1
  = [(200%Z, challenge)].
Proof.
  intros Ht Hans Hall Hin Ha.
  assert (∃ c, find_token (JStr t) items = Ok c ∧ truthy c = true) as (c & Hf & Hc).
  { clear Hans. induction items as [|x items IH]; [by apply elem_of_nil in Hin|].
    apply Forall_cons in Hall as [[Hx1 Hx2] Hall]. cbn.
    destruct (prop x "verify_token") as [v|e] eqn:Hp.
    2: { by destruct x. }
    destruct (strict_eq v (JStr t)) eqn:Hs.
    - exists x. split; [done|]. apply strict_eq_eq in Hs. subst.
      destruct x; cbn in *; by simplify_eq.
    - apply elem_of_cons in Hin as [<-|Hin]; [|by apply IH].
      cbn in Hp. injection Hp as <-. rewrite Ha in Hs. cbn in Hs.
      by rewrite String.eqb_refl in Hs. }
  run_flow. cbn. destruct (String.eqb_spec t EmptyString) as [|_]; [done|]. cbn.
  rewrite Hans. cbn. rewrite Hf. cbn. by rewrite Hc.
Qed.

Lemma prop_TypeError v name e : prop v name = Err e → ∃ msg, e = TypeError msg.
Proof. destruct v; cbn; try done; try (by case_match); intros [= <-]; eauto. Qed.

Lemma startsWith_TypeError v p e : startsWith v p = Err e → ∃ msg, e = TypeError msg.
Proof. destruct v; cbn; try done; intros [= <-]; eauto. Qed.

Lemma fails_by_bind {A B} kind (m : flow A) (f : A → flow B) ans :
  fails_by kind (m ans) → (∀ a, fails_by kind (f a ans)) →
  fails_by kind (Responder.bind m f ans).
Proof.
  unfold fails_by, Responder.bind. intros Hm Hf e.
  destruct (m ans) as [τ [a|e']]; cbn in *.
  2: { intros [= <-]. by apply Hm. }
  specialize (Hf a). destruct (f a ans) as [τ' r]; cbn in *.
  intros Hr. destruct (Hf e Hr) as [(s & Hl & Hs)|]; [|by right].
  left. exists s. split; [|done]. destruct τ' as [|x τ']; [done|].
  by rewrite last_app_cons.
Qed.

Lemma fails_by_try_catch {A} kind (m : flow A) h ans :
  (∀ e, fails_by kind (h e ans)) → fails_by kind (Responder.try_catch m h ans).
Proof.
  unfold fails_by, Responder.try_catch. intros Hh e.
  destruct (m ans) as [τ [a|e']]; cbn in *; [done|].
  specialize (Hh e'). destruct (h e' ans) as [τ' r]; cbn in *.
  intros Hr. destruct (Hh e Hr) as [(s & Hl & Hs)|]; [|by right].
  left. exists s. split; [|done]. destruct τ' as [|x τ']; [done|].
  by rewrite last_app_cons.
Qed.

Lemma fails_by_ask kind s ans : kind s = true → fails_by kind (ask s ans).
Proof. intros Hs e. cbn. intros ->. left. by exists s. Qed.

Lemma fails_by_Ok {A} kind (τ : list effect) (a : A) : fails_by kind (τ, Ok a).
Proof. by intros e. Qed.

Lemma fails_by_prop kind v name ans :
  fails_by kind (Responder.of_res (prop v name) ans).
Proof. intros e. cbn. intros H. right. by eapply prop_TypeError. Qed.

Lemma fails_by_handled_reply kind v ans : fails_by kind (handled_reply v ans).
Proof.
  unfold handled_reply. destruct (truthy v); [|apply fails_by_Ok].
  apply fails_by_bind; [apply fails_by_prop|]. intros h.
  destruct (truthy h); [|apply fails_by_Ok].
  apply fails_by_bind; [apply fails_by_prop|]. intros r. apply fails_by_Ok.
Qed.

Lemma verification_sound_witness :
  JStr "42" = JStr "42"
  ∧ JStr "subscribe" = JStr "subscribe"
  ∧ truthy (JStr "s3cret") = true
  ∧ ∃ items fields,
      chat "greeting" JNull BusinessService_getAllWhatsAppConfigs = Ok (JArr items)
      ∧ JObj fields ∈ items
      ∧ assoc "verify_token" fields = JStr "s3cret".
Proof.
  apply (verification_sound (JStr "subscribe") (JStr "s3cret") (JStr "42")
           (chat "greeting" JNull) (JStr "42")).
  apply elem_of_cons. left. reflexivity.
Defined.

Lemma verification_complete_witness :
  sent (webhook_get (JStr "subscribe") (JStr "s3cret") (JStr "42")
          (chat "greeting" JNull)).1
  = [(200%Z, JStr "42")].
Proof.
  apply (verification_complete "s3cret" (JStr "42") (chat "greeting" JNull)
           [JObj [("business_id", JNum 7); ("verify_token", JStr "s3cret")]]
           [("business_id", JNum 7); ("verify_token", JStr "s3cret")]).
  - discriminate.
  - reflexivity.
  - repeat constructor; discriminate.
  - apply elem_of_cons. left. reflexivity.
  - reflexivity.
Defined.

Section TextReplies.
Variable at_least : jsval → Z → bool.
Variables (md : message_data) (conversation businessId businessTone : jsval).
Variable ans : service → res jsval.

(** X12.  When [processTextMessage] throws, the error is that of its last
    call, and this call was the intent detection, the conversation history
    or the OpenAI response; or it is a [TypeError].  A failure of the
    calendar handler, of the Odoo handler or of the FAQ search never fails
    the reply. *)
Theorem handler_failures_do_not_fail_the_reply e :
  (processTextMessage at_least md conversation businessId businessTone ans).2 = Err e →
  (∃ s, last (processTextMessage at_least md conversation businessId businessTone ans).1
        = Some (Asked s (Err e)) ∧ critical s = true)
  ∨ ∃ msg, e = TypeError msg.
Proof.
  revert e. change (fails_by critical
    (processTextMessage at_least md conversation businessId businessTone ans)).
  unfold processTextMessage.
  apply fails_by_bind; [apply fails_by_Ok|]. intros _.
  apply fails_by_bind; [by apply fails_by_ask|]. intros intentResult.
  apply fails_by_bind; [apply fails_by_prop|]. intros intent.
  apply fails_by_bind; [apply fails_by_prop|]. intros confidence.
  apply fails_by_bind; [apply fails_by_Ok|]. intros _.
  apply fails_by_bind.
  { destruct (is_calendar_intent intent); [|apply fails_by_Ok].
    apply fails_by_bind; [apply fails_by_Ok|]. intros _.
    apply fails_by_try_catch. intros err. apply fails_by_Ok. }
  intros [reply|]; [apply fails_by_Ok|].
  apply fails_by_bind.
  { destruct (truthy intent); [|apply fails_by_Ok].
    intros err. cbn. intros H. right. by eapply startsWith_TypeError. }
  intros isOdoo. apply fails_by_bind.
  { destruct isOdoo; [|apply fails_by_Ok].
    apply fails_by_bind; [apply fails_by_Ok|]. intros _.
    apply fails_by_try_catch. intros err. apply fails_by_Ok. }
  intros [reply|]; [apply fails_by_Ok|].
  apply fails_by_bind; [apply fails_by_Ok|]. intros _.
  apply fails_by_bind.
  { apply fails_by_try_catch. intros err. apply fails_by_Ok. }
  intros [reply|]; [apply fails_by_Ok|].
  apply fails_by_bind; [apply fails_by_Ok|]. intros _.
  apply fails_by_bind; [apply fails_by_prop|]. intros cid.
  apply fails_by_bind; [by apply fails_by_ask|]. intros history.
  by apply fails_by_ask.
Qed.

(** X13.  When the intent is one of the four calendar intents, or a string
    that starts with "odoo_", and the handler for it answers with an object
    whose [handled] is truthy, [processTextMessage] returns the handler's
    [response], having asked only the intent detection and this handler. *)
Theorem handled_reply_is_final fields s reply :
  ans (IntentDetectionService_detectIntent (content md)) = Ok (JObj fields) →
  (is_calendar_intent (assoc "intent" fields) = true
   ∧ s = CalendarHandler_handleCalendarIntent businessId (from md) (content md)
           (assoc "intent" fields) businessTone)
  ∨ (∃ t, assoc "intent" fields = JStr t ∧ String.prefix "odoo_" t = true
     ∧ s = OdooHandler_handleOdooIntent businessId (from md) (content md)
             (assoc "intent" fields) businessTone) →
  ans s = Ok (JObj reply) →
  truthy (assoc "handled" reply) = true →
  (processTextMessage at_least md conversation businessId businessTone ans).2
  = Ok (assoc "response" reply)
  ∧ asked (processTextMessage at_least md conversation businessId businessTone ans).1
    = [IntentDetectionService_detectIntent (content md); s].
Proof.
  intros Hd Hs Ha Hh. run_flow. cbn. rewrite Hd. cbn.
  destruct Hs as [[Hc ->]|(t & Ht & Hp & ->)].
  - rewrite Hc. cbn. rewrite Ha. cbn. rewrite Hh. cbn. done.
  - rewrite Ht in *.
    assert (is_calendar_intent (JStr t) = false) as ->.
    { unfold is_calendar_intent. cbn.
      destruct (String.eqb_spec t "schedule_appointment") as [->|_];
        [by vm_compute in Hp|].
      destruct (String.eqb_spec t "check_availability") as [->|_];
        [by vm_compute in Hp|].
      destruct (String.eqb_spec t "cancel_appointment") as [->|_];
        [by vm_compute in Hp|].
      destruct (String.eqb_spec t "reschedule_appointment") as [->|_];
        [by vm_compute in Hp|].
      done. }
    cbn. destruct (String.eqb_spec t EmptyString) as [->|_]; [done|]. cbn.
    rewrite Hp. cbn. rewrite Ha. cbn. rewrite Hh. cbn. done.
Qed.

(** X15.  For an intent that no handler takes, when the FAQ search fails,
    or returns a falsy value or an empty array, the reply is what OpenAI
    answers for the last 10 messages of the conversation, its error
    included. *)
Theorem faq_failure_falls_back fields t cid history :
  ans (IntentDetectionService_detectIntent (content md)) = Ok (JObj fields) →
  assoc "intent" fields = JStr t →
  is_calendar_intent (JStr t) = false →
  String.prefix "odoo_" t = false →
  match ans (AirtableService_searchFAQEmbeddings businessId (content md)) with
  | Err _ => True
  | Ok matches => truthy matches = false ∨ matches = JArr []
  end →
  prop conversation "id" = Ok cid →
  ans (DatabaseService_getConversationHistory cid 10) = Ok history →
  (processTextMessage at_least md conversation businessId businessTone ans).2
  = ans (OpenAIService_generateResponse history (content md) businessTone (JStr t))
  ∧ asked (processTextMessage at_least md conversation businessId businessTone ans).1
    = [IntentDetectionService_detectIntent (content md);
       AirtableService_searchFAQEmbeddings businessId (content md);
       DatabaseService_getConversationHistory cid 10;
       OpenAIService_generateResponse history (content md) businessTone (JStr t)].
Proof.
  intros Hd Hi Hc Hp Hf Hcid Hh. run_flow. cbn. rewrite Hd. cbn. rewrite Hi, Hc. cbn.
  destruct (String.eqb_spec t EmptyString) as [->|_]; cbn; rewrite ?Hp; cbn.
  all: destruct (ans (AirtableService_searchFAQEmbeddings _ _)) as [m|e']; cbn.
  all: try (destruct Hf as [Hm| ->]; [rewrite Hm|]; cbn).
  all: try change (0 <? Z.of_nat 0)%Z with false; cbn.
  all: rewrite Hcid; cbn; rewrite Hh; cbn.
  all: by destruct (ans (OpenAIService_generateResponse _ _ _ _)).
Qed.
End TextReplies.

Lemma handler_failures_do_not_fail_the_reply_witness :
  (∃ s, last (processTextMessage (λ _ _, false) (msg "m1") conversation_row (JNum 7)
                tone_row (chat "greeting" JNull)).1
        = Some (Asked s (Err down)) ∧ critical s = true)
  ∨ ∃ text, down = TypeError text.
Proof.
  apply (handler_failures_do_not_fail_the_reply (λ _ _, false) (msg "m1")
           conversation_row (JNum 7) tone_row (chat "greeting" JNull) down).
  reflexivity.
Defined.

Lemma handled_reply_is_final_witness :
  (processTextMessage (λ _ _, false) (msg "m1") conversation_row (JNum 7) tone_row
     (chat "schedule_appointment" JNull)).2
  = Ok (JStr "Booked.")
  ∧ asked (processTextMessage (λ _ _, false) (msg "m1") conversation_row (JNum 7)
             tone_row (chat "schedule_appointment" JNull)).1
    = [IntentDetectionService_detectIntent (JStr "hi");
       CalendarHandler_handleCalendarIntent (JNum 7) "+100" (JStr "hi")
         (JStr "schedule_appointment") tone_row].
Proof.
  apply (handled_reply_is_final (λ _ _, false) (msg "m1") conversation_row (JNum 7)
           tone_row (chat "schedule_appointment" JNull)
           [("intent", JStr "schedule_appointment"); ("confidence", JNum 1)]
           (CalendarHandler_handleCalendarIntent (JNum 7) "+100" (JStr "hi")
              (JStr "schedule_appointment") tone_row)
           [("handled", JBool true); ("response", JStr "Booked.")]).
  - reflexivity.
  - left. split; reflexivity.
  - reflexivity.
  - reflexivity.
Defined.

Lemma faq_failure_falls_back_witness :
  (processTextMessage (λ _ _, false) (msg "m1") conversation_row (JNum 7) tone_row
     (chat "greeting" JNull)).2
  = chat "greeting" JNull
      (OpenAIService_generateResponse (JArr []) (JStr "hi") tone_row (JStr "greeting"))
  ∧ asked (processTextMessage (λ _ _, false) (msg "m1") conversation_row (JNum 7)
             tone_row (chat "greeting" JNull)).1
    = [IntentDetectionService_detectIntent (JStr "hi");
       AirtableService_searchFAQEmbeddings (JNum 7) (JStr "hi");
       DatabaseService_getConversationHistory (JNum 1) 10;
       OpenAIService_generateResponse (JArr []) (JStr "hi") tone_row (JStr "greeting")].
Proof.
  apply (faq_failure_falls_back (λ _ _, false) (msg "m1") conversation_row (JNum 7)
           tone_row (chat "greeting" JNull)
           [("intent", JStr "greeting"); ("confidence", JNum 1)] "greeting"
           (JNum 1) (JArr [])).
  - reflexivity.
  - reflexivity.
  - reflexivity.
  - reflexivity.
  - left. reflexivity.
  - reflexivity.
  - reflexivity.
Defined.

End ResponderFacts.

(* ===================================================================== *)
(** * The seeding helper                                                  *)
(* ===================================================================== *)

Module SeedFacts.
Import Seed.

Section RetryFacts.
Variable pool_query : nat → string → list jsval → res jsval.
Variables (query : string) (params : list jsval).

Lemma queries_round q p x line ms τ :
  queries (Queried q p x :: Logged line :: Slept ms :: τ) = x :: queries τ.
Proof. reflexivity. Qed.

Lemma pauses_round q p x line ms τ :
  pauses (Queried q p x :: Logged line :: Slept ms :: τ) = ms :: pauses τ.
Proof. reflexivity. Qed.

(** The loop from attempt [i] on, when attempts [i .. k-1] fail and
    attempt [k] is answered. *)
Lemma retry_from_answered retries (k : nat) v : ∀ (d : nat) (i : nat) fuel,
  (i + d = k)%nat →
  (Z.of_nat k < retries)%Z →
  (d < fuel)%nat →
  (∀ j, (i ≤ j < k)%nat → ∃ e, pool_query j query params = Err e) →
  pool_query k query params = Ok v →
  ∃ τ, retry_from pool_query fuel (Z.of_nat i) query params retries = Some (τ, Ok v)
       ∧ queries τ = map (λ j, pool_query j query params) (seq i (S d))
       ∧ pauses τ = map (λ j, (1000 * (Z.of_nat j + 1))%Z) (seq i d).
Proof.
  induction d as [|d IH]; intros i fuel Hk Hr Hf Hfail Hok.
  - destruct fuel as [|fuel]; [lia|]. cbn [retry_from].
    assert (i = k) as -> by lia.
    rewrite (proj2 (Z.ltb_lt _ _)) by lia. rewrite Nat2Z.id, Hok.
    eexists. split; [reflexivity|]. cbn. by rewrite Hok.
  - destruct fuel as [|fuel]; [lia|]. cbn [retry_from].
    rewrite (proj2 (Z.ltb_lt _ _)) by lia. rewrite Nat2Z.id.
    destruct (Hfail i) as [e He]; [lia|]. rewrite He.
    rewrite (proj2 (Z.eqb_neq _ _)) by lia.
    replace (Z.of_nat i + 1)%Z with (Z.of_nat (S i)) by lia.
    destruct (IH (S i) fuel) as (τ & -> & Hq & Hp); [lia|lia|lia| |done|].
    { intros j Hj. apply Hfail. lia. }
    eexists. split; [reflexivity|].
    rewrite queries_round, pauses_round, Hq, Hp. split.
    + cbn. by rewrite He.
    + cbn. f_equal. f_equal. lia.
Qed.

(** X16.  When the first [k] statements of [executeWithRetry] fail and the
    next is answered, with [k] less than [retries]: the call returns this
    answer after [k + 1] statements, the last of them the answered one, and
    it paused 1000, 2000, ..., 1000 * k ms between them. *)
Theorem retry_until_answered (retries : Z) (k : nat) (v : jsval) :
  (Z.of_nat k < retries)%Z →
  (∀ j, (j < k)%nat → ∃ e, pool_query j query params = Err e) →
  pool_query k query params = Ok v →
  ∃ τ, executeWithRetry pool_query query params retries = Some (τ, Ok v)
       ∧ length (queries τ) = S k
       ∧ last (queries τ) = Some (Ok v)
       ∧ pauses τ = backoff k.
Proof.
  intros Hr Hfail Hok.
  destruct (retry_from_answered retries k v k 0 (Z.to_nat retries + 1))
    as (τ & Hτ & Hq & Hp); [lia|lia|lia| |done|].
  { intros j Hj. apply Hfail. lia. }
  exists τ. split; [exact Hτ|]. rewrite Hq, Hp. split; [|split; [|done]].
  - by rewrite length_map, length_seq.
  - replace (seq 0 (S k)) with (seq 0 k ++ [k]) by (by rewrite seq_S).
    rewrite map_app. cbn [map]. by rewrite last_snoc, Hok.
Qed.

(** The loop from attempt [i] on, when every attempt fails. *)
Lemma retry_from_exhausted (retries : Z) (err : nat → jsval) : ∀ (d : nat) (i : nat) fuel,
  (Z.of_nat i + Z.of_nat d = retries - 1)%Z →
  (d < fuel)%nat →
  (∀ j, (Z.of_nat j < retries)%Z → pool_query j query params = Err (err j)) →
  ∃ τ, retry_from pool_query fuel (Z.of_nat i) query params retries
       = Some (τ, Err (err (i + d)%nat))
       ∧ queries τ = map (λ j, Err (err j)) (seq i (S d))
       ∧ pauses τ = map (λ j, (1000 * (Z.of_nat j + 1))%Z) (seq i d).
Proof.
  induction d as [|d IH]; intros i fuel Hk Hf Hfail.
  - destruct fuel as [|fuel]; [lia|]. cbn [retry_from].
    rewrite (proj2 (Z.ltb_lt _ _)) by lia. rewrite Nat2Z.id, Hfail by lia.
    rewrite (proj2 (Z.eqb_eq _ _)) by lia. rewrite Nat.add_0_r.
    eexists. split; [reflexivity|]. done.
  - destruct fuel as [|fuel]; [lia|]. cbn [retry_from].
    rewrite (proj2 (Z.ltb_lt _ _)) by lia. rewrite Nat2Z.id, Hfail by lia.
    rewrite (proj2 (Z.eqb_neq _ _)) by lia.
    replace (Z.of_nat i + 1)%Z with (Z.of_nat (S i)) by lia.
    destruct (IH (S i) fuel) as (τ & -> & Hq & Hp); [lia|lia|done|].
    replace (i + S d)%nat with (S i + d)%nat by lia.
    eexists. split; [reflexivity|].
    rewrite queries_round, pauses_round, Hq, Hp. split; [done|].
    cbn. f_equal. f_equal. lia.
Qed.

(** X17.  When every statement fails and [retries] is at least 1,
    [executeWithRetry] sends [retries] statements and throws the error of
    the last one, having paused 1000, ..., 1000 * (retries - 1) ms: there is
    no pause after the last failure. *)
Theorem retry_gives_up (retries : Z) (err : nat → jsval) :
  (1 ≤ retries)%Z →
  (∀ j, (Z.of_nat j < retries)%Z → pool_query j query params = Err (err j)) →
  ∃ τ, executeWithRetry pool_query query params retries
       = Some (τ, Err (err (Z.to_nat retries - 1)%nat))
       ∧ Z.of_nat (length (queries τ)) = retries
       ∧ pauses τ = backoff (Z.to_nat retries - 1).
Proof.
  intros Hr Hfail.
  destruct (retry_from_exhausted retries err (Z.to_nat retries - 1) 0 (Z.to_nat retries + 1))
    as (τ & Hτ & Hq & Hp); [lia|lia|done|].
  exists τ. split; [exact Hτ|]. rewrite Hq, Hp. split; [|done].
  rewrite length_map, length_seq. lia.
Qed.

(** The loop ends, whatever the pool answers. *)
Lemma retry_from_ends (retries : Z) : ∀ fuel (i : nat),
  (Z.to_nat (retries - Z.of_nat i) < fuel)%nat →
  ∃ τ r, retry_from pool_query fuel (Z.of_nat i) query params retries = Some (τ, r)
         ∧ (length (queries τ) ≤ Z.to_nat (retries - Z.of_nat i))%nat
         ∧ ((Z.of_nat i < retries)%Z → 1 ≤ length (queries τ))
         ∧ pauses τ
           = map (λ j, (1000 * (Z.of_nat j + 1))%Z) (seq i (length (queries τ) - 1))
         ∧ (τ = [] ∨ ∃ x, last τ = Some (Queried query params x))
         ∧ (∀ k x, queries τ !! k = Some x → S k < length (queries τ) → ∃ e, x = Err e)
         ∧ (∀ v, r = Ok v →
              last (queries τ) = Some (Ok v)
              ∨ ((retries ≤ Z.of_nat i)%Z ∧ τ = [] ∧ v = JUndefined))
         ∧ (∀ e, r = Err e → last (queries τ) = Some (Err e)).
Proof.
  induction fuel as [|fuel IH]; intros i Hf; [lia|]. cbn [retry_from].
  destruct (Z.ltb_spec (Z.of_nat i) retries) as [Hlt|Hge].
  2: { eexists _, _. split; [reflexivity|]. cbn.
       split; [lia|]. split; [lia|]. split; [done|]. split; [by left|].
       split; [done|]. split; [|done].
       intros v [= <-]. right. split; [lia|done]. }
  rewrite Nat2Z.id. destruct (pool_query i query params) as [v|e].
  { eexists _, _. split; [reflexivity|]. cbn.
    split; [lia|]. split; [lia|]. split; [done|]. split; [right; by eexists|].
    split; [intros k x _ Hk; lia|]. split; [|done].
    intros v' [= <-]. by left. }
  destruct (Z.eqb_spec (Z.of_nat i) (retries - 1)) as [Heq|Hne].
  { eexists _, _. split; [reflexivity|]. cbn.
    split; [lia|]. split; [lia|]. split; [done|]. split; [right; by eexists|].
    split; [intros k x _ Hk; lia|]. split; [done|].
    by intros e' [= <-]. }
  replace (Z.of_nat i + 1)%Z with (Z.of_nat (S i)) by lia.
  destruct (IH (S i)) as (τ & r & -> & Hq & Hone & Hp & Hlast & Hfail & Hok & Herr); [lia|].
  specialize (Hone ltac:(lia)).
  eexists _, _. split; [reflexivity|].
  rewrite queries_round, pauses_round. cbn [length].
  split; [lia|]. split; [lia|]. split.
  { rewrite Hp. replace (S (length (queries τ)) - 1) with (S (length (queries τ) - 1)) by lia.
    cbn. f_equal. f_equal. lia. }
  split.
  { right. destruct Hlast as [->|[x Hx]]; [cbn in Hone; lia|].
    exists x. do 3 rewrite last_cons. by rewrite Hx. }
  split.
  { intros [|k] x; cbn.
    - intros [= <-] _. by exists e.
    - intros Hk Hlen. apply (Hfail k x Hk). lia. }
  split.
  - intros v Hv. left.
    destruct (Hok v Hv) as [Hl|(? & -> & ->)].
    + by rewrite last_cons, Hl.
    + lia.
  - intros e' He'. by rewrite last_cons, (Herr e' He').
Qed.

(** X18.  Whatever the pool answers, [executeWithRetry] ends.  It sends at
    most [retries] statements, each but the last one failed, and nothing
    follows the last one; between the [k]-th statement and the next it
    pauses 1000 * k ms and it pauses nowhere else.  What it throws is the
    error of its last statement and what it returns is the answer of its
    last statement, except that for [retries] at most 0 it sends nothing and
    returns [undefined]. *)
Theorem retry_is_bounded (retries : Z) :
  ∃ τ r, executeWithRetry pool_query query params retries = Some (τ, r)
         ∧ (length (queries τ) ≤ Z.to_nat retries)%nat
         ∧ pauses τ = backoff (length (queries τ) - 1)
         ∧ (τ = [] ∨ ∃ x, last τ = Some (Queried query params x))
         ∧ (∀ k x, queries τ !! k = Some x → S k < length (queries τ) → ∃ e, x = Err e)
         ∧ (∀ e, r = Err e → last (queries τ) = Some (Err e))
         ∧ (∀ v, r = Ok v →
              last (queries τ) = Some (Ok v)
              ∨ ((retries ≤ 0)%Z ∧ τ = [] ∧ v = JUndefined)).
Proof.
  destruct (retry_from_ends retries (Z.to_nat retries + 1) 0)
    as (τ & r & Hτ & Hq & _ & Hp & Hlast & Hfail & Hok & Herr); [lia|].
  exists τ, r. split; [exact Hτ|]. split; [lia|]. by repeat split.
Qed.

End RetryFacts.

Lemma retry_until_answered_witness :
  ∃ τ, executeWithRetry (flaky 2) "SELECT 1" [] 3
       = Some (τ, Ok (JObj [("rows", JArr [])]))
       ∧ length (queries τ) = 3
       ∧ last (queries τ) = Some (Ok (JObj [("rows", JArr [])]))
       ∧ pauses τ = backoff 2.
Proof.
  apply (retry_until_answered (flaky 2) "SELECT 1" [] 3 2).
  - lia.
  - intros j Hj. exists (mkError "connection terminated").
    unfold flaky. by rewrite (proj2 (Nat.ltb_lt _ _)).
  - reflexivity.
Defined.

Lemma retry_gives_up_witness :
  ∃ τ, executeWithRetry (flaky 5) "SELECT 1" [] 3
       = Some (τ, Err (mkError "connection terminated"))
       ∧ Z.of_nat (length (queries τ)) = 3%Z
       ∧ pauses τ = backoff 2.
Proof.
  apply (retry_gives_up (flaky 5) "SELECT 1" [] 3 (λ _, mkError "connection terminated")).
  - lia.
  - intros j Hj. unfold flaky. rewrite (proj2 (Nat.ltb_lt _ _)) by lia. reflexivity.
Defined.


End SeedFacts.
